(** * chart-thing: statistics, scales, binning and line compression

    A shallow embedding of [src/common.ts], [src/BinStats1d.tsx],
    [src/BinStats2d.tsx] and [src/LineSegments.tsx].

    JavaScript numbers are IEEE 754 binary64 values; they are embedded as
    Rocq's primitive [float], whose operations are the same binary64
    operations.  Array lengths and positions are [nat]. *)

From Stdlib Require Import Floats ZArith List Bool String Lia PArith.
Import ListNotations.

Set Implicit Arguments.

(** ** JavaScript values and numbers *)

Module JS.

Local Open Scope float_scope.

(** Abrupt completions raised by the modelled code. *)
Inductive error := TypeError | RangeError.

Inductive completion (A : Type) : Type :=
| Normal (a : A)
| Throw (e : error).
Arguments Normal {A} a.
Arguments Throw {A} e.

Definition bind {A B} (c : completion A) (k : A -> completion B)
  : completion B :=
  match c with
  | Normal a => k a
  | Throw e => Throw e
  end.

(** The values a record field or an accessor can produce. *)
Inductive value :=
| VUndefined
| VNull
| VBoolean (b : bool)
| VNumber (n : float)
| VString (s : string).

(** A record: an object, given by its own properties. *)
Definition object := list (string * value).

Fixpoint get (o : object) (k : string) : option value :=
  match o with
  | [] => None
  | (k', v) :: o' => if String.eqb k k' then Some v else get o' k
  end.

(** [a >= b] and [a > b] on numbers. *)
Definition geb (a b : float) : bool := b <=? a.
Definition gtb (a b : float) : bool := b <? a.

(** [Number.isFinite] on a number. *)
Definition Number_isFinite (n : float) : bool := is_finite n.

(** Truthiness of a number: [0], [-0] and [NaN] are falsy. *)
Definition truthy (n : float) : bool := negb (is_nan n || is_zero n).

(** Truthiness of a string: only the empty string is falsy. *)
Definition truthy_string (s : string) : bool :=
  match s with
  | EmptyString => false
  | _ => true
  end.

(** [v || 0] where [v] is a number or [undefined]. *)
Definition or_zero (v : option float) : float :=
  match v with
  | Some n => if truthy n then n else 0
  | None => 0
  end.

Definition Math_PI : float := 0x1.921fb54442d18p+1.

Definition Math_max (a b : float) : float :=
  if is_nan a || is_nan b then nan
  else if a <? b then b
  else if b <? a then a
  else if get_sign a then b else a.

Definition Math_min (a b : float) : float :=
  if is_nan a || is_nan b then nan
  else if a <? b then a
  else if b <? a then b
  else if get_sign a then a else b.

(** The number with value [n], for [n] below 2^53. *)
Definition of_nat (n : nat) : float :=
  of_uint63 (Uint63.of_Z (Z.of_nat n)).

(** The binary64 value of a positive integer below 2^53, in canonical
    form: the mantissa is shifted to 53 bits. *)
Definition SFof_pos (p : positive) : spec_float :=
  let '(m, e) := shl_align p 0 (Zpos (digits2_pos p) - prec) in
  S754_finite false m e.

(** The integer-valued number [z], for [|z| < 2^53]. *)
Definition SFof_Z (z : Z) : spec_float :=
  match z with
  | Z0 => S754_zero false
  | Zpos p => SFof_pos p
  | Zneg p => SFopp (SFof_pos p)
  end.

(** [Math.floor]: numbers with a non-negative exponent, zeros, infinities
    and NaN are returned unchanged; otherwise the mantissa is shifted
    right, rounding towards minus infinity. *)
Definition Math_floor (n : float) : float :=
  match Prim2SF n with
  | S754_finite s m e =>
      if (0 <=? e)%Z then n
      else SF2Prim (SFof_Z (Z.shiftr (cond_Zopp s (Zpos m)) (- e)))
  | _ => n
  end.

(** The array index denoted by a number used as a property key of an
    array: the non-negative integers; [-0] denotes index 0. *)
Definition SFindex (f : spec_float) : option Z :=
  match f with
  | S754_zero _ => Some 0%Z
  | S754_finite false m e =>
      if (0 <=? e)%Z then Some (Z.shiftl (Zpos m) e)
      else if (Z.land (Zpos m) (Z.ones (- e)) =? 0)%Z
           then Some (Z.shiftr (Zpos m) (- e))
           else None
  | _ => None
  end.

Definition to_index (n : float) : option Z := SFindex (Prim2SF n).

(** [arr[n]] for an array [arr] and a number [n]; [None] is [undefined]. *)
Definition at_number {A} (arr : list A) (n : float) : option A :=
  match to_index n with
  | Some i =>
      if (i <? Z.of_nat (List.length arr))%Z then nth_error arr (Z.to_nat i)
      else None
  | None => None
  end.

(** [arr[arr.length - 1]]. *)
Definition last {A} (arr : list A) : option A :=
  nth_error arr (List.length arr - 1).

End JS.

(** ** The lodash functions used by the charts

    Modelled from the library's behaviour on numbers ([_.range], [_.times],
    [_.clamp], [_.inRange]). *)

Module Lodash.

Import JS.
Local Open Scope float_scope.

Definition MAX_INTEGER : float := 0x1.fffffffffffffp+1023.
Definition MAX_SAFE_INTEGER : float := 9007199254740991.
Definition MAX_ARRAY_LENGTH : Z := 4294967295.

Definition Math_ceil (n : float) : float := - Math_floor (- n).

(** [toFinite]: NaN becomes 0 and the infinities the largest finite
    numbers. *)
Definition toFinite (v : float) : float :=
  if is_zero v then v
  else if is_nan v then 0
  else if v =? infinity then MAX_INTEGER
  else if v =? neg_infinity then - MAX_INTEGER
  else v.

(** [toInteger]: [toFinite], then the fractional part is dropped. *)
Definition toInteger (v : float) : float :=
  let result := toFinite v in
  if result <? 0 then Math_ceil result else Math_floor result.

(** The loop of [baseRange]: [result[index] = start; start += step]. *)
Fixpoint baseRange_fill (length : nat) (start step : float) : list float :=
  match length with
  | O => []
  | S length' => start :: baseRange_fill length' (start + step) step
  end.

(** [Array(length)] raises a RangeError unless [length] is an integer
    between 0 and 2^32 - 1. *)
Definition array_length (length : float) : completion nat :=
  match to_index length with
  | Some n => if (n <=? MAX_ARRAY_LENGTH)%Z then Normal (Z.to_nat n)
              else Throw RangeError
  | None => Throw RangeError
  end.

(** [_.range(0, end)].  The step is 1 when [0 < end] and -1 otherwise, so
    the length [max(ceil((end - 0) / step), 0)] is [ceil(end)] or
    [max(ceil(-end), 0)]. *)
Definition range0 (end_ : float) : completion (list float) :=
  let end_ := toFinite end_ in
  let step := if 0 <? end_ then 1 else -1 in
  let length :=
    if 0 <? end_ then Math_ceil end_
    else Math_max (Math_ceil (- end_)) 0 in
  bind (array_length length) (fun n => Normal (baseRange_fill n 0 step)).

(** [_.times(n, iteratee)]: the results of [iteratee(0)], ...,
    [iteratee(n - 1)], at most 2^32 - 1 of them; the empty array when [n]
    is below 1 or above [MAX_SAFE_INTEGER]. *)
Definition times {A} (n : float) (iteratee : float -> A) : list A :=
  let n := toInteger n in
  if (n <? 1) || (MAX_SAFE_INTEGER <? n) then []
  else
    match to_index n with
    | Some len =>
        map iteratee
            (baseRange_fill (Z.to_nat (Z.min len MAX_ARRAY_LENGTH)) 0 1)
    | None => []
    end.

(** [_.clamp(number, lower, upper)] with both bounds given: a NaN bound
    counts as 0, a NaN [number] is returned as it is. *)
Definition clamp (number lower upper : float) : float :=
  let upper := if upper =? upper then upper else 0 in
  let lower := if lower =? lower then lower else 0 in
  if number =? number then
    let number := if number <=? upper then number else upper in
    if geb number lower then number else lower
  else number.

(** [_.inRange(number, start, end)]. *)
Definition inRange (number start end_ : float) : bool :=
  let start := toFinite start in
  let end_ := toFinite end_ in
  geb number (Math_min start end_) && (number <? Math_max start end_).

End Lodash.

(** ** [src/common.ts] *)

Module Common.

Import JS.
Local Open Scope float_scope.

(** [TypedAccessor<T, V>]: a property name or a function of the record. *)
Inductive TypedAccessor :=
| Key (k : string)
| Fn (f : object -> value).

Definition attributeValue (datum : object) (attr : TypedAccessor) : value :=
  match attr with
  | Fn f => f datum
  | Key k =>
      match get datum k with
      | Some v => v
      | None => VNull
      end
  end.

Definition attributeNumber (d : object) (attribute : TypedAccessor) : float :=
  match attributeValue d attribute with
  | VNumber n => n
  | _ => nan
  end.

(** [mean], [variance] and [stdev] are [None] for [null]; [median] is
    [None] when the array read yields [undefined]. *)
Record Stats := {
  count : nat;
  naCount : nat;
  min : float;
  max : float;
  range : float;
  sum : float;
  mean : option float;
  variance : option float;
  stdev : option float;
  median : option float
}.

(** [Partial<Stats>]: the properties present in the override object. *)
Record PartialStats := {
  o_count : option nat;
  o_naCount : option nat;
  o_min : option float;
  o_max : option float;
  o_range : option float;
  o_sum : option float;
  o_mean : option (option float);
  o_variance : option (option float);
  o_stdev : option (option float);
  o_median : option (option float)
}.

Definition no_override : PartialStats :=
  Build_PartialStats None None None None None None None None None None.

Definition or_else {A} (o : option A) (d : A) : A :=
  match o with
  | Some a => a
  | None => d
  end.

(** [Object.assign(stats, override)]. *)
Definition assign (s : Stats) (o : PartialStats) : Stats :=
  {| count := or_else (o_count o) (count s);
     naCount := or_else (o_naCount o) (naCount s);
     min := or_else (o_min o) (min s);
     max := or_else (o_max o) (max s);
     range := or_else (o_range o) (range s);
     sum := or_else (o_sum o) (sum s);
     mean := or_else (o_mean o) (mean s);
     variance := or_else (o_variance o) (variance s);
     stdev := or_else (o_stdev o) (stdev s);
     median := or_else (o_median o) (median s) |}.

(** [Array.prototype.sort] with a comparator: a stable sort. *)
Fixpoint sort_insert (cmp : float -> float -> float) (v : float)
         (l : list float) : list float :=
  match l with
  | [] => [v]
  | h :: t => if cmp v h <? 0 then v :: l else h :: sort_insert cmp v t
  end.

Definition sort (cmp : float -> float -> float) (l : list float)
  : list float :=
  fold_left (fun acc v => sort_insert cmp v acc) l [].

(** [a + b] where either operand may be [undefined]. *)
Definition add_undef (a b : option float) : float :=
  match a, b with
  | Some a, Some b => a + b
  | _, _ => nan
  end.

Section WithMath.

(** [Math.pow] of the engine. *)
Variable Math_pow : float -> float -> float.

Definition attrStats (arr : list object) (attr : TypedAccessor) : Stats :=
  let sortedValues :=
    sort (fun a b => a - b)
         (filter Number_isFinite
                 (map (fun d => attributeNumber d attr) arr)) in
  let count := List.length sortedValues in
  let naCount := (List.length arr - count)%nat in
  let min := or_zero (nth_error sortedValues 0) in
  let max := or_zero (nth_error sortedValues (count - 1)) in
  let range := max - min in
  let sum := or_zero (Some (fold_left (fun s v => s + v) sortedValues 0)) in
  let mean := if (count =? 0)%nat then None else Some (sum / of_nat count) in
  let variance :=
    match mean with
    | Some mean =>
        if (count <? 2)%nat then None
        else Some (fold_left (fun s v => s + Math_pow (v - mean) 2)
                             sortedValues 0
                   / (of_nat count - 1))
    | None => None
    end in
  let stdev :=
    match variance with
    | Some v => if truthy v then Some (sqrt v) else None
    | None => None
    end in
  let median :=
    if (count =? 1)%nat then nth_error sortedValues 0
    else if Nat.even count
         then at_number sortedValues (of_nat count / 2)
         else Some (add_undef
                      (at_number sortedValues
                                 (Math_floor (of_nat count / 2)))
                      (at_number sortedValues
                                 (Lodash.Math_ceil (of_nat count / 2)))
                    / 2) in
  {| count := count; naCount := naCount; min := min; max := max;
     sum := sum; mean := mean; variance := variance; stdev := stdev;
     range := range; median := median |}.

(** [scaleTo(datum, range)]; the [Stats] object is always truthy. *)
Definition scaleTo (datum : option float) (range : Stats) : option float :=
  match datum with
  | None => None
  | Some datum =>
      if negb (max range =? min range)
      then Some ((datum - min range) / Common.range range)
      else Some 0
  end.

(** [Scale<T>]: the callable together with the statistics it carries. *)
Record Scale := {
  call : object -> option float;
  stats : Stats;
  scaleAttr : TypedAccessor
}.

(** In [fn], the test [typeof value !== 'number'] is on the result of
    [attributeNumber], which is always a number: its [null] branch is
    never taken. *)
Definition attrScale (arr : list object) (scaleAttr : TypedAccessor)
           (override : PartialStats) : Scale :=
  let stats := assign (attrStats arr scaleAttr) override in
  let fn := fun datum : object =>
              let value := attributeNumber datum scaleAttr in
              scaleTo (Some value) stats in
  {| call := fn; stats := stats; scaleAttr := scaleAttr |}.

End WithMath.

End Common.

(** ** [src/LineSegments.tsx]: line compression *)

Module LineSegments.

Import JS.
Local Open Scope float_scope.

Definition ANGLE_RESOLUTION : float := 5.

(** The first segment point is created without [angle] and
    [gradientAngle]: reading them yields [undefined], here [None]. *)
Record SegmentPoint := {
  xComponent : float;
  yComponent : float;
  distance : float;
  x : float;
  y : float;
  index : nat;
  angle : option float;
  color1 : string;
  color2 : string;
  gradientAngle : option float;
  flipGradient : bool;
  continuous : bool
}.

(** An element of [compressed]: a segment point or an array of them. *)
Inductive Segment :=
| Point (p : SegmentPoint)
| Run (ps : list SegmentPoint).

(** [compressed.flat()]. *)
Definition flat (compressed : list Segment) : list SegmentPoint :=
  flat_map (fun c => match c with Point p => [p] | Run ps => ps end)
           compressed.

(** What the component reads from [CoordinateContext]. *)
Record CoordinateContext (T : Type) := {
  xScale : T -> option float;
  yScale : T -> option float;
  colorScale : option (T -> string);
  width : float;
  height : float
}.

(** [LineSegmentsProps<T>] after destructuring, with the defaults filled
    in.  [continuity], when given, stands for
    [!!attributeValue(point, continuity)]. *)
Record Props (T : Type) := {
  continuity : option (T -> bool);
  resolution : float;
  strokeWidth : float;
  colorResolution : float
}.

(** The props when only [continuity] is passed. *)
Definition defaultProps {T} (continuity : option (T -> bool)) : Props T :=
  {| continuity := continuity;
     resolution := 0;
     strokeWidth := 5;
     colorResolution := 5 |}.

(** The functions of the engine and of chroma-js that the component
    calls. *)
Record Library := {
  Math_pow : float -> float -> float;
  Math_atan2 : float -> float -> float;
  chroma_deltaE : string -> string -> float;
  chroma_distance : string -> string -> float
}.

Definition resolutionForThisPoint (onScreen : bool) (resolution : float)
  : float :=
  if onScreen then resolution else 50.

Definition angleResolutionForThisPoint (onScreen : bool) : float :=
  if onScreen then ANGLE_RESOLUTION else 20.

(** A projected coordinate that is a finite number. *)
Definition finite_number (v : option float) : option float :=
  match v with
  | Some n => if Number_isFinite n then Some n else None
  | None => None
  end.

(** [lastPoint.angle && Math.abs(lastPoint.angle - angle) >= r]. *)
Definition angleChanged (lastPoint new : SegmentPoint) (r : float) : bool :=
  match angle lastPoint, angle new with
  | Some a, Some a' => truthy a && geb (abs (a - a')) r
  | _, _ => false
  end.

(** [lastCompressed.push(newPoint)] on the last element of
    [compressed]. *)
Definition push_last (compressed : list Segment) (ps : list SegmentPoint)
           (new : SegmentPoint) : list Segment :=
  removelast compressed ++ [Run (ps ++ [new])].

Section WithContext.

Variable T : Type.
Variable lib : Library.
Variable ctx : CoordinateContext T.
Variable props : Props T.

Definition dissimilarColors (p : SegmentPoint) (colorResolution : float)
  : bool :=
  if String.eqb (color1 p) (color2 p) then false
  else if truthy_string (color1 p) && truthy_string (color2 p) then
    let diff := Math_min (chroma_deltaE lib (color1 p) (color2 p))
                         (chroma_distance lib (color1 p) (color2 p)) in
    let gradient := diff * distance p in
    gtb gradient colorResolution
  else true.

Definition onScreen (x y : float) : bool :=
  Lodash.inRange x 0 (width ctx) && Lodash.inRange y 0 (height ctx).

Definition color (point : T) : string :=
  match colorScale ctx with
  | Some colorScale => colorScale point
  | None => "black"%string
  end.

(** The initial segment point. *)
Definition firstPoint (point : T) (index : nat) (x y : float)
  : SegmentPoint :=
  {| x := x; y := y; index := index;
     color1 := color point; color2 := color point;
     continuous := false; flipGradient := false;
     xComponent := 0; yComponent := 0; distance := 0;
     angle := None; gradientAngle := None |}.

(** The segment point built for a non-initial [point]. *)
Definition newPoint (lastPoint : SegmentPoint) (point : T) (index : nat)
           (x y : float) : SegmentPoint :=
  let distance :=
    sqrt (Math_pow lib (x - LineSegments.x lastPoint) 2
          + Math_pow lib (y - LineSegments.y lastPoint) 2) in
  let continuous :=
    match continuity props with
    | Some continuity => continuity point
    | None => true
    end in
  let angle :=
    (Math_atan2 lib (y - LineSegments.y lastPoint)
                (x - LineSegments.x lastPoint) * 180) / Math_PI in
  {| xComponent := x - LineSegments.x lastPoint;
     yComponent := y - LineSegments.y lastPoint;
     distance := distance;
     x := x;
     y := y;
     index := index;
     angle := Some angle;
     color2 := color point;
     color1 := color2 lastPoint;
     gradientAngle := Some angle;
     flipGradient := false;
     continuous := continuous |}.

Definition keep (lastPoint new : SegmentPoint) : bool :=
  let onScreen := onScreen (x new) (y new) in
  geb (distance new) (strokeWidth props)
  && (dissimilarColors new (colorResolution props)
      || negb (Bool.eqb (continuous new) (continuous lastPoint))
      || geb (distance new)
             (resolutionForThisPoint onScreen (resolution props))
      || angleChanged lastPoint new
                      (angleResolutionForThisPoint onScreen)).

(** The reducer of [points.reduce].  Reading a property of [undefined]
    (the last element of an empty array) raises a TypeError. *)
Definition reducer (compressed : list Segment) (point : T) (index : nat)
  : completion (list Segment) :=
  match finite_number (xScale ctx point),
        finite_number (yScale ctx point) with
  | Some x, Some y =>
      if (List.length compressed =? 0)%nat
      then Normal [Point (firstPoint point index x y)]
      else
        match last compressed with
        | None => Throw TypeError
        | Some lastCompressed =>
            let lastPoint :=
              match lastCompressed with
              | Run ps => last ps
              | Point p => Some p
              end in
            match lastPoint with
            | None => Throw TypeError
            | Some lastPoint =>
                let new := newPoint lastPoint point index x y in
                if keep lastPoint new then
                  if negb (dissimilarColors new (colorResolution props))
                     && negb (dissimilarColors lastPoint
                                               (colorResolution props))
                  then
                    match lastCompressed with
                    | Run ps => Normal (push_last compressed ps new)
                    | Point _ =>
                        Normal (compressed ++ [Run [lastPoint; new]])
                    end
                  else Normal (compressed ++ [Point new])
                else Normal compressed
            end
        end
  | _, _ => Normal compressed
  end.

(** [points.reduce(reducer, [])], from position [index] on. *)
Fixpoint reduce_from (index : nat) (points : list T)
         (compressed : list Segment) : completion (list Segment) :=
  match points with
  | [] => Normal compressed
  | point :: points' =>
      bind (reducer compressed point index)
           (reduce_from (S index) points')
  end.

Definition compressed (points : list T) : completion (list Segment) :=
  reduce_from 0 points [].

End WithContext.

End LineSegments.

(** ** [src/BinStats1d.tsx]: one-dimensional binning *)

Module BinStats1d.

Import JS Common.
Local Open Scope float_scope.

Record Bin1d := {
  xBin : float;
  data : list object
}.

(** [bins[xBin].data.push(p)]: a TypeError when [bins[xBin]] is
    [undefined]. *)
Definition push_data (bins : list Bin1d) (xBin : float) (p : object)
  : completion (list Bin1d) :=
  match at_number bins xBin, to_index xBin with
  | Some bin, Some i =>
      Normal (firstn (Z.to_nat i) bins
              ++ {| xBin := BinStats1d.xBin bin; data := data bin ++ [p] |}
              :: skipn (S (Z.to_nat i)) bins)
  | _, _ => Throw TypeError
  end.

Section WithMath.

Variable Math_pow : float -> float -> float.

Section WithProps.

Variable points : list object.
Variable x : TypedAccessor.

Definition xStatScale : Scale := attrScale Math_pow points x no_override.

Definition xBinWidth : float :=
  match stdev (stats xStatScale) with
  | Some stdev =>
      (3.5 * stdev) / Math_pow (of_nat (List.length points)) (1 / 3)
  | None => range (stats xStatScale) / 20
  end.

Definition xBins : float :=
  Math_floor (range (stats xStatScale) / xBinWidth).

Definition start : completion (list Bin1d) :=
  bind (Lodash.range0 xBins)
       (fun r => Normal (map (fun xBin => {| xBin := xBin; data := [] |})
                             r)).

(** The bin index computed for a normalized value. *)
Definition binIndex (xValue : float) : float :=
  Lodash.clamp (Math_floor (xValue * xBins)) 0 (xBins - 1).

(** The test [typeof xValue !== "number" || !Number.isFinite(xValue)]
    fails. *)
Definition finite_value (p : object) : option float :=
  match call xStatScale p with
  | Some xValue => if Number_isFinite xValue then Some xValue else None
  | None => None
  end.

Definition reducer (bins : list Bin1d) (p : object)
  : completion (list Bin1d) :=
  match finite_value p with
  | Some xValue => push_data bins (binIndex xValue) p
  | None => Normal bins
  end.

Fixpoint reduce (ps : list object) (bins : list Bin1d)
  : completion (list Bin1d) :=
  match ps with
  | [] => Normal bins
  | p :: ps' => bind (reducer bins p) (reduce ps')
  end.

(** [Object.values(points.reduce(..., start))]: the elements of the
    array, in index order. *)
Definition bins : completion (list Bin1d) :=
  bind start (reduce points).

(** [binStats]: every bin with the statistics of its members. *)
Definition binStats (summaryDimension : TypedAccessor)
  : completion (list (Bin1d * Stats)) :=
  bind bins
       (fun bins =>
          Normal (map (fun bin =>
                         (bin, attrStats Math_pow (data bin)
                                         summaryDimension))
                      bins)).

End WithProps.

End WithMath.

End BinStats1d.

(** ** [src/BinStats2d.tsx]: two-dimensional binning *)

Module BinStats2d.

Import JS Common.
Local Open Scope float_scope.

Record Bin := {
  xBin : float;
  yBin : float;
  data : list object
}.

(** The property key [`${xBin},${yBin}`].  The decimal string of a number
    contains no comma and differs for different numbers, except that [0]
    and [-0] both print as "0"; [NaN] prints as "NaN".  A key is kept as
    the pair of numbers, compared accordingly. *)
Definition key := (float * float)%type.

Definition same_string (a b : float) : bool :=
  (a =? b) || (is_nan a && is_nan b).

Definition key_eqb (k k' : key) : bool :=
  same_string (fst k) (fst k') && same_string (snd k) (snd k').

(** An object with such keys: its properties in insertion order. *)
Definition bin_object := list (key * Bin).

Fixpoint lookup (o : bin_object) (k : key) : option Bin :=
  match o with
  | [] => None
  | (k', b) :: o' => if key_eqb k k' then Some b else lookup o' k
  end.

(** [{...o, [k]: b}]: an existing property keeps its position. *)
Fixpoint set (o : bin_object) (k : key) (b : Bin) : bin_object :=
  match o with
  | [] => [(k, b)]
  | (k', b') :: o' =>
      if key_eqb k k' then (k', b) :: o' else (k', b') :: set o' k b
  end.

(** [bins[k].data.push(p)]: a TypeError when [bins[k]] is [undefined]. *)
Fixpoint push_data (o : bin_object) (k : key) (p : object)
  : completion bin_object :=
  match o with
  | [] => Throw TypeError
  | (k', b) :: o' =>
      if key_eqb k k'
      then Normal ((k', {| xBin := xBin b; yBin := yBin b;
                           data := data b ++ [p] |}) :: o')
      else bind (push_data o' k p) (fun o'' => Normal ((k', b) :: o''))
  end.

Section WithMath.

Variable Math_pow : float -> float -> float.

Section WithProps.

Variable points : list object.
Variables x y : TypedAccessor.

Definition xStatScale : Scale := attrScale Math_pow points x no_override.
Definition yStatScale : Scale := attrScale Math_pow points y no_override.

Definition estimate (s : Scale) : float :=
  match stdev (stats s) with
  | Some stdev =>
      (3.5 * stdev) / Math_pow (of_nat (List.length points)) (1 / 3)
  | None => range (stats s) / 20
  end.

Definition xBinWidth : float :=
  Math_min (range (stats xStatScale) / 20)
           (Math_max (estimate xStatScale)
                     (range (stats xStatScale) / 100)).

Definition yBinWidth : float :=
  Math_max (estimate yStatScale) (range (stats yStatScale) / 100).

Definition xBins : float :=
  Math_floor (range (stats xStatScale) / xBinWidth).
Definition yBins : float :=
  Math_floor (range (stats yStatScale) / yBinWidth).

(** The grid cells, flattened, one object property for each. *)
Definition start : bin_object :=
  fold_left
    (fun o c => set o c {| xBin := fst c; yBin := snd c; data := [] |})
    (List.concat (Lodash.times xBins
               (fun xBin => Lodash.times yBins
                              (fun yBin => (xBin, yBin)))))
    [].

Definition finite_value (s : Scale) (p : object) : option float :=
  match call s p with
  | Some v => if Number_isFinite v then Some v else None
  | None => None
  end.

Definition reducer (bins : bin_object) (p : object)
  : completion bin_object :=
  match finite_value xStatScale p, finite_value yStatScale p with
  | Some xValue, Some yValue =>
      let xBin := Lodash.clamp (Math_floor (xValue * xBins)) 0
                               (xBins - 1) in
      let yBin := Lodash.clamp (Math_floor (yValue * yBins)) 0
                               (yBins - 1) in
      push_data bins (xBin, yBin) p
  | _, _ => Normal bins
  end.

Fixpoint reduce (ps : list object) (bins : bin_object)
  : completion bin_object :=
  match ps with
  | [] => Normal bins
  | p :: ps' => bind (reducer bins p) (reduce ps')
  end.

(** [Object.values(points.reduce(..., start))]. *)
Definition bins : completion (list Bin) :=
  bind (reduce points start) (fun o => Normal (map snd o)).

End WithProps.

End WithMath.

End BinStats2d.

(** ** [src/common.ts]: pixel scales *)

Module PixelScale.

Import JS Common.
Local Open Scope float_scope.

(** [buildScale(statScale, scaleTo, invert)]: the statistics are those of
    [statScale] with the pixel span substituted. *)
Definition buildScale (statScale : Scale) (scaleTo : float) (invert : bool)
  : Scale :=
  {| call := fun datum =>
               match call statScale datum with
               | None => None
               | Some scaled =>
                   Some (if invert then scaleTo - scaleTo * scaled
                         else scaleTo * scaled)
               end;
     stats :=
       {| count := count (stats statScale);
          naCount := naCount (stats statScale);
          min := 0;
          max := scaleTo;
          sum := sum (stats statScale) * scaleTo;
          range := scaleTo;
          mean := option_map (fun m => m * scaleTo) (mean (stats statScale));
          variance := None;
          stdev := None;
          median := option_map (fun m => m * scaleTo)
                               (median (stats statScale)) |};
     scaleAttr := scaleAttr statScale |}.

End PixelScale.

(** ** [src/SigmaFilter.tsx] *)

Module SigmaFilter.

Import JS Common.
Local Open Scope float_scope.

(** The predicate of [data.filter] in [sigmaFilter]. *)
Definition within (stats : Stats) (attribute : TypedAccessor)
           (threshold : float) (d : object) : bool :=
  match attributeValue d attribute, stdev stats, mean stats with
  | VNumber value, Some stdev, Some mean =>
      abs (value - mean) / stdev <=? threshold
  | _, _, _ => false
  end.

Definition sigmaFilter (Math_pow : float -> float -> float)
           (data : list object) (attribute : TypedAccessor)
           (threshold : float) : list object :=
  let stats := attrStats Math_pow data attribute in
  filter (within stats attribute threshold) data.

End SigmaFilter.

(** ** [src/SplitData.tsx] *)

Module SplitData.

Import JS Common.

(** [!!value] for the value of an accessor. *)
Definition truthy_value (v : value) : bool :=
  match v with
  | VUndefined | VNull => false
  | VBoolean b => b
  | VNumber n => truthy n
  | VString s => truthy_string s
  end.

(** The reducer of [allData.reduce]: a new section is opened when the
    accessor is truthy or there is no section yet; otherwise the point
    joins the last section. *)
Definition reducer (on : TypedAccessor) (sections : list (list object))
           (point : object) : list (list object) :=
  match truthy_value (attributeValue point on), last sections with
  | false, Some lastSection =>
      removelast sections ++ [lastSection ++ [point]]
  | _, _ => sections ++ [[point]]
  end.

Definition split (on : TypedAccessor) (allData : list object)
  : list (list object) :=
  fold_left (reducer on) allData [].

End SplitData.

(** ** [src/LineSegments.tsx]: gradients *)

Module Gradients.

Import Ascii JS LineSegments.

(** The characters of the class [[()#, ]]. *)
Definition special (c : Ascii.ascii) : bool :=
  existsb (Ascii.eqb c) ["("; ")"; "#"; ","; " "]%char.

(** [s.replace(/[()#, ]+/g, "-")]: every maximal run of special
    characters becomes one dash. *)
Fixpoint replace_runs (inRun : bool) (s : string) : string :=
  match s with
  | EmptyString => EmptyString
  | String c s' =>
      if special c then
        if inRun then replace_runs true s'
        else String "-" (replace_runs true s')
      else String c (replace_runs false s')
  end.

Definition gradientName (p : SegmentPoint) : string :=
  ("gradient-" ++ replace_runs false (color1 p) ++ "-"
   ++ replace_runs false (color2 p))%string.

Record Gradient := {
  name : string;
  g_color1 : string;
  g_color2 : string
}.

(** [_.uniqBy(array, "name")]: the first element for each name. *)
Fixpoint uniqBy_name (seen : list string) (l : list Gradient)
  : list Gradient :=
  match l with
  | [] => []
  | g :: l' =>
      if existsb (String.eqb (name g)) seen then uniqBy_name seen l'
      else g :: uniqBy_name (name g :: seen) l'
  end.

(** The elements of [compressed] that are not arrays. *)
Definition standalone (compressed : list Segment) : list SegmentPoint :=
  flat_map (fun c => match c with Point p => [p] | Run _ => [] end)
           compressed.

Definition gradients (compressed : list Segment) : list Gradient :=
  uniqBy_name []
    (filter (fun g => negb (String.eqb (g_color1 g) (g_color2 g)))
            (map (fun c => {| name := gradientName c;
                              g_color1 := color1 c;
                              g_color2 := color2 c |})
                 (standalone compressed))).

(** The [fill] of the rectangle drawn for a standalone point. *)
Definition fill (point : SegmentPoint) : string :=
  if String.eqb (color1 point) (color2 point) then color1 point
  else ("url(#" ++ gradientName point ++ ")")%string.

End Gradients.

(** ** Notions for the shape of the line compression's result *)

Module Shape.
Import JS LineSegments.

(** Two neighbours in a list. *)
Definition adjacent {A} (l : list A) (a b : A) : Prop :=
  exists l1 l2, l = l1 ++ a :: b :: l2.

(** The three ways in which the reducer extends [compressed] by a
    retained point [new] that follows [lastPoint]; [smooth] tells that
    neither point has dissimilar colours. *)
Inductive grows (smooth : bool) (lastPoint new : SegmentPoint)
  : list Segment -> list Segment -> Prop :=
| grows_point c :
    smooth = false ->
    grows smooth lastPoint new c (c ++ [Point new])
| grows_open c :
    smooth = true ->
    last c = Some (Point lastPoint) ->
    grows smooth lastPoint new c (c ++ [Run [lastPoint; new]])
| grows_extend c ps :
    smooth = true ->
    last c = Some (Run ps) ->
    last ps = Some lastPoint ->
    grows smooth lastPoint new c (removelast c ++ [Run (ps ++ [new])]).

End Shape.

(** ** Inputs of the worked examples *)

Module Examples.

Import JS.
Local Open Scope float_scope.

(** [Math.pow(b, 2)] is the correctly rounded square.  The cube roots
    [Math.pow(8, 1/3) = 2] and [Math.pow(27, 1/3) = 3] are the only other
    powers the examples evaluate. *)
Definition Math_pow (b e : float) : float :=
  if e =? 2 then b * b
  else if b =? 8 then 2
  else if b =? 27 then 3
  else nan.

(** [Math.atan2] along the x axis, where ECMA-262 fixes its value:
    [atan2(+0, x) = +0] for [x > 0], and pi for [x < 0]. *)
Definition Math_atan2 (y x : float) : float :=
  if is_zero y && (0 <? x) then 0
  else if is_zero y && (x <? 0) then Math_PI
  else nan.

(** The examples use one colour only, for which chroma-js is not
    called. *)
Definition lib : LineSegments.Library :=
  {| LineSegments.Math_pow := Math_pow;
     LineSegments.Math_atan2 := Math_atan2;
     LineSegments.chroma_deltaE := fun _ _ => nan;
     LineSegments.chroma_distance := fun _ _ => nan |}.

(** Records [{x, y}] already in pixel space, drawn in black on a
    100 x 100 viewport. *)
Definition point := (float * float)%type.

Definition ctx : LineSegments.CoordinateContext point :=
  {| LineSegments.xScale := fun p => Some (fst p);
     LineSegments.yScale := fun p => Some (snd p);
     LineSegments.colorScale := None;
     LineSegments.width := 100;
     LineSegments.height := 100 |}.

(** [<LineSegments resolution={r} strokeWidth={w} />]. *)
Definition props (r w : float) : LineSegments.Props point :=
  {| LineSegments.continuity := None;
     LineSegments.resolution := r;
     LineSegments.strokeWidth := w;
     LineSegments.colorResolution := 5 |}.

(** The same with [continuity={() => false}]. *)
Definition props_discontinuous (r w : float) : LineSegments.Props point :=
  {| LineSegments.continuity := Some (fun _ => false);
     LineSegments.resolution := r;
     LineSegments.strokeWidth := w;
     LineSegments.colorResolution := 5 |}.

(** Records [{v: n}] and [{x: n}], and the empty record [{}]. *)
Definition v_ (n : float) : object := [("v"%string, VNumber n)].
Definition x_ (n : float) : object := [("x"%string, VNumber n)].
Definition xy_ (n m : float) : object :=
  [("x"%string, VNumber n); ("y"%string, VNumber m)].

(** Three collinear points and the segment points built for them at
    resolution 5 and strokeWidth 1. *)
Definition P0 : LineSegments.SegmentPoint :=
  LineSegments.firstPoint ctx (0, 0) 0 0 0.
Definition P1 : LineSegments.SegmentPoint :=
  LineSegments.newPoint lib ctx (props 5 1) P0 (5, 0) 1 5 0.
Definition P2 : LineSegments.SegmentPoint :=
  LineSegments.newPoint lib ctx (props 5 1) P1 (10, 0) 2 10 0.

(** The segment point built for a step back from (5, 0) to (2, 0): its
    incoming angle is 180. *)
Definition P_back : LineSegments.SegmentPoint :=
  LineSegments.newPoint lib ctx (props 5 1) P1 (2, 0) 2 2 0.

(** A path that turns back on itself. *)
Definition zigzag : list point :=
  [(0, 0); (4, 0); (7, 0); (1, 0); (7, 0)].

(** Twenty-six records [{x: 0}], ..., [{x: 25}] and a record without
    [x]. *)
Definition sample : list object :=
  map (fun i => x_ (of_nat i)) (seq 0 26) ++ [[]].

End Examples.

(** ** The rules in the words of the specification *)

Module Specified.

Import JS LineSegments.
Local Open Scope float_scope.

(** The keep rule: the distance has to exceed the resolution, and the
    angle change the angle resolution. *)
Definition keep_as_specified {T} (lib : Library)
           (ctx : CoordinateContext T) (props : Props T)
           (lastPoint new : SegmentPoint) : bool :=
  let onScreen := onScreen ctx (x new) (y new) in
  geb (distance new) (strokeWidth props)
  && (dissimilarColors lib new (colorResolution props)
      || negb (Bool.eqb (continuous new) (continuous lastPoint))
      || gtb (distance new)
             (resolutionForThisPoint onScreen (resolution props))
      || match angle lastPoint, angle new with
         | Some a, Some a' =>
             gtb (abs (a' - a)) (angleResolutionForThisPoint onScreen)
         | _, _ => false
         end).

(** The thresholds: ten times the resolution and four times the angle
    threshold for a point outside the viewport. *)
Definition resolution_as_specified (onScreen : bool) (resolution : float)
  : float :=
  if onScreen then resolution else resolution * 10.

Definition angle_resolution_as_specified (onScreen : bool) : float :=
  if onScreen then ANGLE_RESOLUTION else ANGLE_RESOLUTION * 4.

End Specified.

(** ** Notions used to state the properties *)

Module Notions.

Import JS.
Local Open Scope float_scope.

Section LineCompression.

Import LineSegments.

(** A last retained point whose incoming angle is absent or is not
    zero. *)
Definition angle_not_zero (lastPoint : SegmentPoint) : Prop :=
  forall a, angle lastPoint = Some a -> is_zero a = false.

(** The keep decision with explicit thresholds. *)
Definition keep_with {T} (lib : Library) (props : Props T)
           (r a : float) (lastPoint new : SegmentPoint) : bool :=
  geb (distance new) (strokeWidth props)
  && (dissimilarColors lib new (colorResolution props)
      || negb (Bool.eqb (continuous new) (continuous lastPoint))
      || geb (distance new) r
      || angleChanged lastPoint new a).

(** [props] with another resolution. *)
Definition with_resolution {T} (props : Props T) (r : float) : Props T :=
  {| continuity := continuity props;
     resolution := r;
     strokeWidth := strokeWidth props;
     colorResolution := colorResolution props |}.

(** The points retained by a pass: the distinct points of
    [compressed.flat()] (a point that opens a run is listed twice). *)
Definition kept (c : completion (list Segment)) : list nat :=
  match c with
  | Normal c => nodup Nat.eq_dec (map index (flat c))
  | Throw _ => []
  end.

(** The last retained point of a non-empty [compressed]. *)
Definition lastPointOf (c : list Segment) : option SegmentPoint :=
  match last c with
  | Some (Run ps) => last ps
  | Some (Point p) => Some p
  | None => None
  end.

Definition nonempty_run (s : Segment) : Prop :=
  match s with
  | Run ps => ps <> []
  | Point _ => True
  end.

(** Every [compressed] the pass builds after the first finite point:
    that point first, on its own, then points and non-empty runs. *)
Definition headed (fp : SegmentPoint) (c : list Segment) : Prop :=
  exists rest, c = Point fp :: rest /\ Forall nonempty_run rest.

(** A point with both projected coordinates finite. *)
Definition projected {T} (ctx : CoordinateContext T) (p : T)
  : option (float * float) :=
  match finite_number (xScale ctx p), finite_number (yScale ctx p) with
  | Some px, Some py => Some (px, py)
  | _, _ => None
  end.

(** All points are projected and every point after the first lies
    inside the viewport, at least strokeWidth away from its
    predecessor. *)
Fixpoint well_spaced {T} (lib : Library) (ctx : CoordinateContext T)
         (props : Props T) (prev : option (float * float))
         (points : list T) : bool :=
  match points with
  | [] => true
  | p :: points' =>
      match projected ctx p with
      | None => false
      | Some (px, py) =>
          match prev with
          | None => true
          | Some (qx, qy) =>
              onScreen ctx px py
              && geb (sqrt (Math_pow lib (px - qx) 2
                            + Math_pow lib (py - qy) 2))
                     (strokeWidth props)
          end
          && well_spaced lib ctx props (Some (px, py)) points'
      end
  end.

End LineCompression.

Section Binning.

Import Common BinStats1d.

(** The sorted finite values of an array, as [attrStats] computes
    them. *)
Definition sortedValues (arr : list object) (attr : TypedAccessor)
  : list float :=
  sort (fun a b => a - b)
       (filter Number_isFinite (map (fun d => attributeNumber d attr) arr)).

(** The members of the bin at position [j]. *)
Definition data_at (bins : list Bin1d) (j : nat) : list object :=
  match nth_error bins j with
  | Some b => data b
  | None => []
  end.

(** The sum of the bins' member counts. *)
Definition memberCount (bins : list Bin1d) : nat :=
  list_sum (map (fun b => List.length (data b)) bins).

Variable Math_pow : float -> float -> float.
Variable points : list object.
Variable x : TypedAccessor.

(** The position of the bin a record is assigned to. *)
Definition binOf (p : object) : option Z :=
  match finite_value Math_pow points x p with
  | Some xValue => to_index (binIndex Math_pow points x xValue)
  | None => None
  end.

Definition assigned (j : nat) (p : object) : bool :=
  match binOf p with
  | Some i => (i =? Z.of_nat j)%Z
  | None => false
  end.

Definition finite_valued (p : object) : bool :=
  match finite_value Math_pow points x p with
  | Some _ => true
  | None => false
  end.

End Binning.

Section Binary64.

Local Open Scope Z_scope.

(** The value of a finite number, in units of 2^-1074. *)
Definition scaled (f : spec_float) : Z :=
  match f with
  | S754_finite s m e => cond_Zopp s (Zpos m * 2 ^ (e + 1074))
  | _ => 0
  end.

Definition finite (f : spec_float) : Prop :=
  match f with
  | S754_zero _ | S754_finite _ _ _ => True
  | _ => False
  end.

Definition quantum : Z := 2 ^ 1074.

(** [Math.floor] on specifications. *)
Definition SFfloor (f : spec_float) : spec_float :=
  match f with
  | S754_finite s m e =>
      if 0 <=? e then f else SFof_Z (Z.shiftr (cond_Zopp s (Zpos m)) (- e))
  | _ => f
  end.

End Binary64.

End Notions.

(** ** Notions for the order of the sorted values *)

Module Order.

Import JS.

(** The value of a finite number, in units of 2^-1074. *)
Definition value_of (f : float) : Z := Notions.scaled (Prim2SF f).

(** A list of numbers in ascending order of their values. *)
Fixpoint ascending (l : list float) : Prop :=
  match l with
  | [] => True
  | h :: t => (forall u, In u t -> (value_of h <= value_of u)%Z)
              /\ ascending t
  end.

End Order.

(** ** Notions for the two-dimensional grid *)

Module Grid.

Import JS Common BinStats2d.

Section Cells.

Variable Math_pow : float -> float -> float.
Variable points : list object.
Variables x y : TypedAccessor.

(** A record whose normalized x and y values are both finite. *)
Definition binned (p : object) : bool :=
  match finite_value (xStatScale Math_pow points x) p,
        finite_value (yStatScale Math_pow points y) p with
  | Some _, Some _ => true
  | _, _ => false
  end.

(** The cell a record is assigned to: the two clamped indices. *)
Definition cellOf (p : object) : option (Z * Z) :=
  match finite_value (xStatScale Math_pow points x) p,
        finite_value (yStatScale Math_pow points y) p with
  | Some xValue, Some yValue =>
      match to_index (Lodash.clamp
                        (Math_floor (xValue * xBins Math_pow points x)) 0
                        (xBins Math_pow points x - 1)),
            to_index (Lodash.clamp
                        (Math_floor (yValue * yBins Math_pow points y)) 0
                        (yBins Math_pow points y - 1)) with
      | Some i, Some j => Some (i, j)
      | _, _ => None
      end
  | _, _ => None
  end.

Definition in_cell (i j : nat) (p : object) : bool :=
  match cellOf p with
  | Some (i', j') => (i' =? Z.of_nat i)%Z && (j' =? Z.of_nat j)%Z
  | None => false
  end.

End Cells.

(** The object with one property for each key of [ks], in this order,
    where the cell at position [a + t] holds the records [D (a + t)]. *)
Fixpoint cells_from (a : nat) (D : nat -> list object) (ks : list key)
  : bin_object :=
  match ks with
  | [] => []
  | c :: ks' =>
      (c, {| xBin := fst c; yBin := snd c; data := D a |})
        :: cells_from (S a) D ks'
  end.

(** The sum of the bins' member counts. *)
Definition members (bins : list Bin) : nat :=
  list_sum (map (fun b => List.length (data b)) bins).

End Grid.

(** ** Inputs of further examples *)

Module Samples.

Import JS.
Local Open Scope float_scope.

(** Eight records [{x, y}]. *)
Definition heat : list object :=
  [Examples.xy_ 0 0; Examples.xy_ 1 3; Examples.xy_ 2 1; Examples.xy_ 3 4;
   Examples.xy_ 4 1; Examples.xy_ 5 5; Examples.xy_ 6 9; Examples.xy_ 7 2].

End Samples.

(** * Properties *)

(** ** Facts about binary64 arithmetic *)

Module FloatFacts.
Import JS.
Local Open Scope float_scope.

Lemma SFleb_trans (a b c : spec_float) :
  SFleb a b = true -> SFleb b c = true -> SFleb a c = true.
Proof.
  unfold SFleb, SFcompare.
  destruct a as [[]|[]| |[] ma ea], b as [[]|[]| |[] mb eb],
           c as [[]|[]| |[] mc ec];
    simpl; try reflexivity; try discriminate;
    change (Pos.compare_cont Eq) with Pos.compare;
    repeat match goal with
           | |- context [Z.compare ?u ?v] => destruct (Z.compare_spec u v)
           | |- context [Pos.compare ?u ?v] => destruct (Pos.compare_spec u v)
           end; simpl; try reflexivity; try discriminate; intros; lia.
Qed.

Lemma leb_trans (a b c : float) :
  (a <=? b) = true -> (b <=? c) = true -> (a <=? c) = true.
Proof. rewrite !leb_spec. apply SFleb_trans. Qed.

Lemma binary_round_aux_sign (s : bool) (m e : Z) (l : location) :
  match binary_round_aux prec emax s m e l with
  | S754_zero s' | S754_infinity s' | S754_finite s' _ _ => s' = s
  | S754_nan => True
  end.
Proof.
  unfold binary_round_aux.
  destruct (shr_fexp prec emax m e l) as [mrs' e'].
  destruct (shr_fexp prec emax _ e' loc_Exact) as [mrs'' e''].
  destruct (shr_m mrs''); auto.
  destruct (e'' <=? emax - prec)%Z; auto.
Qed.

Lemma SFsqrt_nonneg (z : spec_float) :
  SF64sqrt z = S754_nan \/ SFleb (S754_zero false) (SF64sqrt z) = true.
Proof.
  destruct z as [s|[]| |[] m e]; simpl; auto.
  unfold SF64sqrt, SFsqrt.
  destruct (SFsqrt_core_binary prec emax (Z.pos m) e) as [[mz ez] lz].
  pose proof (binary_round_aux_sign false mz ez lz) as H.
  destruct (binary_round_aux prec emax false mz ez lz); subst; auto.
Qed.

Lemma sqrt_nonneg (a z : float) :
  (a <=? sqrt z) = true -> (0 <=? sqrt z) = true.
Proof.
  rewrite !leb_spec, sqrt_spec. intros H.
  destruct (SFsqrt_nonneg (Prim2SF z)) as [E|E].
  - rewrite E in H. destruct (Prim2SF a) as [|[]| |[]]; discriminate.
  - exact E.
Qed.
End FloatFacts.

(** ** Line compression: the keep decision *)

Module KeepDecision.

Import JS LineSegments Specified Notions.
Local Open Scope float_scope.

Section Decision.

Variable T : Type.
Variable lib : Library.
Variable ctx : CoordinateContext T.
Variable props : Props T.

Lemma angleChanged_true (lastPoint new : SegmentPoint) (r : float) :
  angleChanged lastPoint new r = true <->
  exists a a', angle lastPoint = Some a /\ angle new = Some a'
               /\ truthy a = true /\ geb (abs (a - a')) r = true.
Proof.
  unfold angleChanged. split.
  - destruct (angle lastPoint) as [a|]; [|discriminate].
    destruct (angle new) as [a'|]; [|discriminate].
    intros H. apply andb_true_iff in H. destruct H as [Ht Hg].
    exists a, a'. auto.
  - intros (a & a' & -> & -> & Ht & Hg). now rewrite Ht, Hg.
Qed.

(** The decision as the code takes it, clause by clause. *)
Lemma keep_true (lastPoint new : SegmentPoint) :
  keep lib ctx props lastPoint new = true <->
  geb (distance new) (strokeWidth props) = true
  /\ (dissimilarColors lib new (colorResolution props) = true
      \/ continuous new <> continuous lastPoint
      \/ geb (distance new)
             (resolutionForThisPoint (onScreen ctx (x new) (y new))
                                     (resolution props)) = true
      \/ angleChanged lastPoint new
           (angleResolutionForThisPoint (onScreen ctx (x new) (y new)))
         = true).
Proof.
  unfold keep. rewrite andb_true_iff, !orb_true_iff, negb_true_iff.
  rewrite Bool.eqb_false_iff. tauto.
Qed.

Lemma truthy_geb (a a' r : float) :
  is_zero a = false ->
  truthy a && geb (abs (a - a')) r = geb (abs (a - a')) r.
Proof.
  intros Hz. unfold truthy. rewrite Hz, orb_false_r.
  destruct (is_nan a) eqn:Hn; [|reflexivity]. simpl.
  unfold geb. rewrite leb_spec, abs_spec, sub_spec.
  unfold is_nan in Hn. apply negb_true_iff in Hn.
  rewrite FloatAxioms.eqb_spec in Hn.
  destruct (Prim2SF a) as [[]|[]| |[] m e]; simpl in Hn;
    try discriminate.
  - destruct (Prim2SF a') as [[]|[]| |[]], (Prim2SF r) as [[]|[]| |[]];
      reflexivity.
  - unfold SFeqb, SFcompare in Hn.
    rewrite Z.compare_refl, Pos.compare_cont_refl in Hn. discriminate.
  - unfold SFeqb, SFcompare in Hn.
    rewrite Z.compare_refl, Pos.compare_cont_refl in Hn. discriminate.
Qed.


End Decision.



End KeepDecision.

(** ** Line compression: thresholds and monotonicity *)

Module Thresholds.

Import JS LineSegments Specified Notions KeepDecision.
Local Open Scope float_scope.

(** C8, as amended: for a point outside the viewport the keep decision
    uses the distance threshold 50, whatever the configured resolution,
    and the angle threshold 20, four times the base angle threshold; for
    a point inside the viewport it uses the configured resolution and the
    base angle threshold 5. *)
Theorem keep_thresholds {T} (lib : Library) (ctx : CoordinateContext T)
        (props : Props T) (lastPoint new : SegmentPoint) :
  keep lib ctx props lastPoint new
  = (if onScreen ctx (x new) (y new)
     then keep_with lib props (resolution props) ANGLE_RESOLUTION
                    lastPoint new
     else keep_with lib props 50 (4 * ANGLE_RESOLUTION) lastPoint new).
Proof.
  unfold keep, keep_with.
  destruct (onScreen ctx (x new) (y new)); reflexivity.
Qed.

(** C8, as stated, fails: with the default resolution 0 the threshold
    for an off-screen point is 50, not 0 * 10; the point (210, 0),
    10 pixels after the retained off-screen point (200, 0), is dropped
    although its distance exceeds both 0 * 10 and strokeWidth. *)
Lemma offscreen_threshold_is_not_scaled :
  resolutionForThisPoint false 0 = 50
  /\ resolution_as_specified false 0 = 0
  /\ (resolutionForThisPoint false 0 =? resolution_as_specified false 0)
     = false
  /\ angleResolutionForThisPoint false = angle_resolution_as_specified false
  /\ kept (compressed Examples.lib Examples.ctx (Examples.props 0 5)
                      [(0, 0); (200, 0); (210, 0)])
     = [0%nat; 1%nat].
Proof. vm_compute. repeat split. Qed.




End Thresholds.

(** ** Line compression: the whole pass *)

Module Pass.

Import JS LineSegments Notions.
Local Open Scope float_scope.

Lemma last_app {A} (l : list A) (a : A) : last (l ++ [a]) = Some a.
Proof.
  unfold last. rewrite length_app. simpl.
  replace (List.length l + 1 - 1)%nat with (List.length l) by lia.
  rewrite nth_error_app2 by lia. now rewrite Nat.sub_diag.
Qed.

Lemma last_cons {A} (a b : A) (l : list A) :
  last (a :: b :: l) = last (b :: l).
Proof. unfold last. simpl. now rewrite Nat.sub_0_r. Qed.

Lemma last_some {A} (l : list A) : l <> [] -> exists a, last l = Some a.
Proof.
  intros H. destruct (exists_last H) as (l' & a & ->).
  exists a. apply last_app.
Qed.

Lemma last_removelast {A} (l : list A) (a : A) :
  last l = Some a -> l = removelast l ++ [a].
Proof.
  intros H. destruct l as [|b l]; [discriminate|].
  destruct (@exists_last _ (b :: l)) as (l' & a' & E); [discriminate|].
  rewrite E in *. rewrite last_app in H. injection H as ->.
  now rewrite removelast_last.
Qed.

Section Pass.

Variable T : Type.
Variable lib : Library.
Variable ctx : CoordinateContext T.
Variable props : Props T.

Local Abbreviation reducer := (reducer lib ctx props).
Local Abbreviation reduce_from := (reduce_from lib ctx props).
Local Abbreviation compressed := (compressed lib ctx props).
Local Abbreviation projected := (Notions.projected ctx).
Local Abbreviation well_spaced := (Notions.well_spaced lib ctx props).

Lemma reducer_not_projected (c : list Segment) (p : T) (i : nat) :
  projected p = None -> reducer c p i = Normal c.
Proof.
  unfold Notions.projected, LineSegments.reducer.
  destruct (finite_number (xScale ctx p));
    destruct (finite_number (yScale ctx p)); try discriminate; auto.
Qed.

Lemma reducer_first (p : T) (i : nat) (px py : float) :
  projected p = Some (px, py) ->
  reducer [] p i = Normal [Point (firstPoint ctx p i px py)].
Proof.
  unfold Notions.projected, LineSegments.reducer.
  destruct (finite_number (xScale ctx p));
    destruct (finite_number (yScale ctx p)); try discriminate.
  now intros [= -> ->].
Qed.

Lemma headed_lastPointOf (fp : SegmentPoint) (c : list Segment) :
  headed fp c ->
  exists lc lp, last c = Some lc /\ lastPointOf c = Some lp
                /\ match lc with
                   | Run ps => last ps = Some lp
                   | Point p => p = lp
                   end.
Proof.
  intros (rest & -> & Hrest). unfold lastPointOf.
  destruct (@last_some _ (Point fp :: rest)) as [lc Hlc]; [discriminate|].
  rewrite Hlc. destruct lc as [p|ps].
  - exists (Point p), p. auto.
  - assert (Hin : In (Run ps) rest).
    { destruct rest as [|s rest].
      - unfold last in Hlc. simpl in Hlc. discriminate.
      - rewrite last_cons in Hlc. unfold last in Hlc.
        apply nth_error_In in Hlc. exact Hlc. }
    rewrite Forall_forall in Hrest. apply Hrest in Hin. simpl in Hin.
    destruct (last_some Hin) as [lp Hlp].
    exists (Run ps), lp. auto.
Qed.

(** What one step of the pass does to a headed [compressed]: nothing,
    or it appends the new point, alone or to a run. *)
Lemma reducer_headed (fp : SegmentPoint) (c : list Segment) (p : T)
      (i : nat) :
  headed fp c ->
  exists c', reducer c p i = Normal c' /\ headed fp c'
             /\ incl (flat c) (flat c')
             /\ (projected p = None -> c' = c)
             /\ forall px py lp,
                 projected p = Some (px, py) ->
                 lastPointOf c = Some lp ->
                 if keep lib ctx props lp (newPoint lib ctx props lp p i px py)
                 then lastPointOf c'
                      = Some (newPoint lib ctx props lp p i px py)
                      /\ In (newPoint lib ctx props lp p i px py) (flat c')
                 else c' = c.
Proof.
  intros Hc.
  destruct (projected p) as [[px py]|] eqn:Hp.
  2:{ exists c. rewrite reducer_not_projected by assumption.
      repeat split; auto using incl_refl. discriminate. }
  destruct (headed_lastPointOf Hc) as (lc & lp & Hlc & Hlp & Hlast).
  destruct Hc as (rest & -> & Hrest).
  unfold LineSegments.reducer. unfold Notions.projected in Hp.
  destruct (finite_number (xScale ctx p)) as [qx|]; [|discriminate].
  destruct (finite_number (yScale ctx p)) as [qy|]; [|discriminate].
  injection Hp as -> ->.
  change (List.length (Point fp :: rest) =? 0)%nat with false.
  cbv iota. rewrite Hlc.
  assert (Hlp' : match lc with
                 | Point p0 => Some p0
                 | Run ps => last ps
                 end = Some lp).
  { destruct lc; [now subst|assumption]. }
  rewrite Hlp'.
  set (new := newPoint lib ctx props lp p i px py).
  destruct (keep lib ctx props lp new) eqn:Hk.
  - destruct (negb (dissimilarColors lib new (colorResolution props))
              && negb (dissimilarColors lib lp (colorResolution props))).
    + destruct lc as [p0|ps].
      * exists ((Point fp :: rest) ++ [Run [lp; new]]).
        repeat split.
        -- exists (rest ++ [Run [lp; new]]). split; [reflexivity|].
           apply Forall_app. split; [assumption|].
           constructor; [discriminate|constructor].
        -- unfold flat. rewrite flat_map_app. apply incl_appl, incl_refl.
        -- discriminate.
        -- intros qx qy lq [= <- <-] Hq. rewrite Hlp in Hq.
           injection Hq as <-. fold new. rewrite Hk.
           unfold lastPointOf. rewrite last_app.
           split.
           ++ unfold last. reflexivity.
           ++ unfold flat. rewrite flat_map_app. apply in_or_app.
              right. simpl. auto.
      * assert (Hrm : Point fp :: rest
                      = removelast (Point fp :: rest) ++ [Run ps])
          by (apply last_removelast; assumption).
        assert (Hne : rest <> []).
        { intros ->. unfold last in Hlc. simpl in Hlc. discriminate. }
        assert (Hrm' : removelast (Point fp :: rest)
                       = Point fp :: removelast rest).
        { destruct rest; [congruence|reflexivity]. }
        exists (push_last (Point fp :: rest) ps new).
        unfold push_last. repeat split.
        -- exists (removelast rest ++ [Run (ps ++ [new])]).
           rewrite Hrm'. split; [reflexivity|].
           apply Forall_app. split.
           ++ rewrite Hrm' in Hrm. injection Hrm as Hrm.
              rewrite Hrm in Hrest. apply Forall_app in Hrest. tauto.
           ++ constructor; [|constructor]. simpl.
              destruct ps; discriminate.
        -- rewrite Hrm at 1. unfold flat. rewrite !flat_map_app. simpl.
           rewrite !app_nil_r. apply incl_app.
           ++ apply incl_appl, incl_refl.
           ++ apply incl_appr, incl_appl, incl_refl.
        -- discriminate.
        -- intros qx qy lq [= <- <-] Hq. rewrite Hlp in Hq.
           injection Hq as <-. fold new. rewrite Hk.
           unfold lastPointOf. rewrite last_app.
           split.
           ++ apply last_app.
           ++ unfold flat. rewrite flat_map_app. apply in_or_app.
              right. simpl. rewrite app_nil_r. apply in_or_app.
              right. simpl. auto.
    + exists ((Point fp :: rest) ++ [Point new]). repeat split.
      * exists (rest ++ [Point new]). split; [reflexivity|].
        apply Forall_app. split; [assumption|].
        constructor; [exact I|constructor].
      * unfold flat. rewrite flat_map_app. apply incl_appl, incl_refl.
      * discriminate.
      * intros qx qy lq [= <- <-] Hq. rewrite Hlp in Hq.
        injection Hq as <-. fold new. rewrite Hk.
        unfold lastPointOf. rewrite last_app. split; [reflexivity|].
        unfold flat. rewrite flat_map_app. apply in_or_app.
        right. simpl. auto.
  - exists (Point fp :: rest). repeat split; auto using incl_refl.
    + exists rest. auto.
    + intros qx qy lq [= <- <-] Hq. rewrite Hlp in Hq.
      injection Hq as <-. fold new. now rewrite Hk.
Qed.

Lemma reduce_from_headed (fp : SegmentPoint) (points : list T) :
  forall (i : nat) (c : list Segment),
    headed fp c ->
    exists c', reduce_from i points c = Normal c' /\ headed fp c'
               /\ incl (flat c) (flat c').
Proof.
  induction points as [|p points IH]; intros i c Hc.
  - exists c. simpl. auto using incl_refl.
  - destruct (reducer_headed p i Hc) as (c1 & E1 & H1 & I1 & _).
    destruct (IH (S i) c1 H1) as (c' & E' & H' & I').
    exists c'. simpl. rewrite E1. simpl. rewrite E'.
    repeat split; auto. eapply incl_tran; eauto.
Qed.

Lemma reduce_from_skip (pre : list T) :
  forall (i : nat) (points : list T),
    (forall q, In q pre -> projected q = None) ->
    reduce_from i (pre ++ points) []
    = reduce_from (i + List.length pre) points [].
Proof.
  induction pre as [|q pre IH]; intros i points Hpre.
  - simpl. now rewrite Nat.add_0_r.
  - simpl. rewrite reducer_not_projected by (apply Hpre; simpl; auto).
    simpl. rewrite IH by (intros; apply Hpre; simpl; auto).
    f_equal. lia.
Qed.


Lemma reduce_from_well_spaced (points : list T) :
  forall (i : nat) (c : list Segment) (fp lp : SegmentPoint),
    resolution props = 0 ->
    headed fp c ->
    lastPointOf c = Some lp ->
    well_spaced (Some (x lp, y lp)) points = true ->
    exists out,
      reduce_from i points c = Normal out
      /\ incl (flat c) (flat out)
      /\ forall j p,
          nth_error points j = Some p ->
          exists sp, In sp (flat out) /\ index sp = (i + j)%nat
                     /\ projected p = Some (x sp, y sp).
Proof.
  induction points as [|p points IH]; intros i c fp lp Hres Hc Hlp Hws.
  - exists c. simpl. repeat split; auto using incl_refl.
    intros [|j] p H; discriminate.
  - simpl in Hws.
    destruct (projected p) as [[px py]|] eqn:Hp; [|discriminate].
    apply andb_true_iff in Hws. destruct Hws as [Hws Hrest].
    apply andb_true_iff in Hws. destruct Hws as [Hon Hsw].
    destruct (reducer_headed p i Hc) as (c1 & E1 & H1 & I1 & _ & Hk).
    specialize (Hk px py lp Hp Hlp).
    set (new := newPoint lib ctx props lp p i px py) in *.
    assert (Hkeep : keep lib ctx props lp new = true).
    { apply KeepDecision.keep_true. split; [exact Hsw|].
      right. right. left. simpl. rewrite Hon, Hres. simpl.
      unfold geb in *. eapply FloatFacts.sqrt_nonneg. exact Hsw. }
    rewrite Hkeep in Hk. destruct Hk as [Hlast Hin].
    destruct (IH (S i) c1 fp new Hres H1 Hlast Hrest)
      as (out & E & I & Hall).
    exists out. simpl. rewrite E1. simpl. rewrite E.
    repeat split.
    + eapply incl_tran; eauto.
    + intros [|j] q Hq.
      * injection Hq as <-. exists new. repeat split.
        -- apply I, Hin.
        -- simpl. lia.
        -- exact Hp.
      * destruct (Hall j q Hq) as (sp & Hsp & Hidx & Hproj).
        exists sp. repeat split; auto. lia.
Qed.

(** C2, as amended: at resolution 0, when all points have finite
    projected coordinates and every point after the first lies inside
    the viewport, at least strokeWidth away from its predecessor, the
    pass retains every input point, whatever the colours and the
    continuity flags. *)
Theorem retains_every_point (points : list T) :
  resolution props = 0 ->
  well_spaced None points = true ->
  exists out,
    compressed points = Normal out
    /\ forall i p,
        nth_error points i = Some p ->
        exists sp, In sp (flat out) /\ index sp = i
                   /\ projected p = Some (x sp, y sp).
Proof.
  intros Hres Hws. destruct points as [|p points].
  - exists []. split; [reflexivity|]. intros [|i] p H; discriminate.
  - simpl in Hws.
    destruct (projected p) as [[px py]|] eqn:Hp; [|discriminate].
    simpl in Hws. unfold LineSegments.compressed. simpl.
    rewrite (reducer_first _ _ Hp). simpl.
    set (fp := firstPoint ctx p 0 px py).
    destruct (@reduce_from_well_spaced points 1 [Point fp] fp fp)
      as (out & E & I & Hall); auto.
    { exists []. auto. }
    exists out. split; [exact E|].
    intros [|i] q Hq.
    + injection Hq as <-. exists fp. repeat split; auto.
      apply I. simpl. auto.
    + destruct (Hall i q Hq) as (sp & Hsp & Hidx & Hproj).
      exists sp. repeat split; auto.
Qed.

End Pass.


Lemma retains_every_point_witness :
  exists out,
    compressed Examples.lib Examples.ctx (Examples.props 0 5)
               [(0, 0); (10, 0); (20, 5)] = Normal out
    /\ forall i p,
        nth_error [(0, 0); (10, 0); (20, 5)] i = Some p ->
        exists sp, In sp (flat out) /\ index sp = i
                   /\ Notions.projected Examples.ctx p = Some (x sp, y sp).
Proof.
  apply (@retains_every_point _ Examples.lib Examples.ctx
           (Examples.props 0 5) [(0, 0); (10, 0); (20, 5)]).
  - reflexivity.
  - vm_compute. reflexivity.
Defined.

(** C2, as stated, fails: at resolution 0, in one colour and with a
    constant continuity flag, the point (1, 0) is dropped because it is
    closer than strokeWidth to (0, 0); and the off-screen point (210, 0)
    is dropped because off-screen points need a distance of 50. *)
Lemma resolution_zero_drops_points :
  LineSegments.resolution (Examples.props 0 5) = 0
  /\ ~ In 1%nat
       (kept
          (compressed Examples.lib Examples.ctx (Examples.props 0 5)
                      [(0, 0); (1, 0)]))
  /\ ~ In 2%nat
       (kept
          (compressed Examples.lib Examples.ctx (Examples.props 0 5)
                      [(0, 0); (200, 0); (210, 0)])).
Proof.
  vm_compute. repeat split; intros H; repeat destruct H as [H|H];
    try discriminate; exact H.
Qed.

End Pass.

(** ** Statistics and scales *)

Module Statistics.

Import JS Common Notions.
Local Open Scope float_scope.

(** The callable of a scale never yields [null]: a missing or
    non-numeric field arrives as NaN from [attributeNumber] and is
    scaled like a number. *)
Lemma attrScale_call (Math_pow : float -> float -> float)
      (arr : list object) (attr : TypedAccessor) (override : PartialStats)
      (datum : object) :
  let s := attrScale Math_pow arr attr override in
  call s datum
  = if negb (max (stats s) =? min (stats s))
    then Some ((attributeNumber datum attr - min (stats s))
               / range (stats s))
    else Some 0.
Proof. reflexivity. Qed.

Lemma attrScale_call_not_null (Math_pow : float -> float -> float)
      (arr : list object) (attr : TypedAccessor) (override : PartialStats)
      (datum : object) :
  call (attrScale Math_pow arr attr override) datum <> None.
Proof.
  rewrite attrScale_call. cbv zeta.
  destruct (negb _); discriminate.
Qed.

(** C4 fails on the code: for the records [{v: 1}, {v: 3}, {}] and the
    accessor "v", the scale maps the record [{}], whose field is
    missing, to NaN and not to [null]; when all values coincide it maps
    it to 0. *)
Theorem attrScale_missing_field :
  attributeNumber [] (Key "v") = nan
  /\ call (attrScale Examples.Math_pow
                     [Examples.v_ 1; Examples.v_ 3; []] (Key "v")
                     no_override) []
     = Some nan
  /\ call (attrScale Examples.Math_pow
                     [Examples.v_ 1; Examples.v_ 1; []] (Key "v")
                     no_override) []
     = Some 0.
Proof. vm_compute. repeat split. Qed.

(** C6 fails on the code: for the three values 1, 2, 10 the indices
    floor(3/2) = 1 and ceil(3/2) = 2 differ, and the median computed is
    (2 + 10) / 2 = 6, not the middle element 2.  For the four values
    1, 2, 4, 10 it is the element at index 2. *)
Theorem median_of_three :
  sortedValues [Examples.v_ 10; Examples.v_ 1; Examples.v_ 2] (Key "v")
  = [1; 2; 10]
  /\ Math_floor (of_nat 3 / 2) = 1
  /\ Lodash.Math_ceil (of_nat 3 / 2) = 2
  /\ median (attrStats Examples.Math_pow
                       [Examples.v_ 10; Examples.v_ 1; Examples.v_ 2]
                       (Key "v"))
     = Some 6
  /\ median (attrStats Examples.Math_pow
                       [Examples.v_ 10; Examples.v_ 1; Examples.v_ 4;
                        Examples.v_ 2]
                       (Key "v"))
     = Some 4.
Proof. vm_compute. repeat split. Qed.

End Statistics.

(** ** Binning on a degenerate range *)

Module Degenerate.

Import JS Common.
Local Open Scope float_scope.

(** C3 fails on the code: for the single record [{x: 5}] the range is 0,
    the bin width 0 / 20 = 0 and the bin count floor(0 / 0) = NaN; no bin
    is seeded, the bin index is NaN and reading [bins[NaN].data] raises
    a TypeError. *)
Theorem bins1d_zero_range (Math_pow : float -> float -> float) :
  range (stats (BinStats1d.xStatScale Math_pow [Examples.x_ 5] (Key "x")))
  = 0
  /\ BinStats1d.xBins Math_pow [Examples.x_ 5] (Key "x") = nan
  /\ BinStats1d.start Math_pow [Examples.x_ 5] (Key "x") = Normal []
  /\ BinStats1d.binIndex Math_pow [Examples.x_ 5] (Key "x") 0 = nan
  /\ BinStats1d.bins Math_pow [Examples.x_ 5] (Key "x") = Throw TypeError.
Proof. vm_compute. repeat split. Qed.

(** C7 fails on the code: for the single record [{x: 1, y: 2}] both bin
    counts are NaN, the grid is empty and reading
    [bins["NaN,NaN"].data] raises a TypeError. *)
Theorem bins2d_zero_range (Math_pow : float -> float -> float) :
  BinStats2d.xBins Math_pow [Examples.xy_ 1 2] (Key "x") = nan
  /\ BinStats2d.yBins Math_pow [Examples.xy_ 1 2] (Key "y") = nan
  /\ BinStats2d.start Math_pow [Examples.xy_ 1 2] (Key "x") (Key "y") = []
  /\ BinStats2d.bins Math_pow [Examples.xy_ 1 2] (Key "x") (Key "y")
     = Throw TypeError.
Proof. vm_compute. repeat split. Qed.

End Degenerate.

(** ** Binary64 integers: order, floor and exact subtraction *)

Unset Implicit Arguments.

Module Binary64.

Import JS Notions.
Local Open Scope Z_scope.

Lemma quantum_pos : 0 < quantum.
Proof. unfold quantum. apply Z.pow_pos_nonneg; lia. Qed.

Lemma digits2_size (m : positive) : digits2_pos m = Pos.size m.
Proof. induction m; simpl; congruence. Qed.

Lemma digits_bounds (m : positive) :
  2 ^ (Zpos (digits2_pos m) - 1) <= Zpos m < 2 ^ Zpos (digits2_pos m).
Proof.
  rewrite digits2_size. split.
  - pose proof (Pos.size_le m) as H.
    assert (H' : 2 ^ Zpos (Pos.size m) <= 2 * Zpos m).
    { change (2 * Zpos m) with (Zpos (m~0)).
      rewrite <- Pos2Z.inj_pow. apply Pos2Z.pos_le_pos. exact H. }
    replace (Zpos (Pos.size m)) with (Z.succ (Zpos (Pos.size m) - 1)) in H'
      by lia.
    rewrite Z.pow_succ_r in H' by lia. lia.
  - pose proof (Pos.size_gt m) as H.
    rewrite <- Pos2Z.inj_pow. apply Pos2Z.pos_lt_pos. exact H.
Qed.

(** Validity of a finite number, in arithmetic terms. *)
Lemma valid_finite (s : bool) (m : positive) (e : Z) :
  valid_binary (S754_finite s m e) = true ->
  -1074 <= e <= 971
  /\ Zpos m < 2 ^ 53
  /\ (e = -1074 \/ 2 ^ 52 <= Zpos m).
Proof.
  unfold SpecFloat.valid_binary, bounded, canonical_mantissa, fexp.
  change (SpecFloat.emin prec emax) with (-1074).
  change (emax - prec) with 971. change prec with 53.
  intros H. apply andb_true_iff in H. destruct H as [H1 H2].
  apply Z.eqb_eq in H1. apply Z.leb_le in H2.
  pose proof (digits_bounds m) as [Hlo Hhi].
  set (d := Zpos (digits2_pos m)) in *.
  assert (Hd : d <= 53) by lia.
  repeat split; try lia.
  - eapply Z.lt_le_trans; [exact Hhi|]. apply Z.pow_le_mono_r; lia.
  - destruct (Z.eq_dec e (-1074)) as [|Hne]; [auto|right].
    assert (d = 53) by lia.
    replace 52 with (d - 1) by lia. exact Hlo.
Qed.

Lemma scaled_finite_pos (m : positive) (e : Z) :
  -1074 <= e -> 0 < Zpos m * 2 ^ (e + 1074).
Proof.
  intros He. apply Z.mul_pos_pos; [lia|]. apply Z.pow_pos_nonneg; lia.
Qed.

Lemma scaled_lt (m1 m2 : positive) (e1 e2 : Z) :
  valid_binary (S754_finite false m1 e1) = true ->
  valid_binary (S754_finite false m2 e2) = true ->
  e1 < e2 ->
  Zpos m1 * 2 ^ (e1 + 1074) < Zpos m2 * 2 ^ (e2 + 1074).
Proof.
  intros V1 V2 He.
  apply valid_finite in V1. apply valid_finite in V2.
  destruct V1 as (R1 & B1 & _). destruct V2 as (R2 & _ & [N2|N2]); [lia|].
  replace (e2 + 1074) with ((e1 + 1074) + (e2 - e1)) by lia.
  rewrite (Z.pow_add_r 2 (e1 + 1074) (e2 - e1)) by lia.
  assert (0 < 2 ^ (e1 + 1074)) by (apply Z.pow_pos_nonneg; lia).
  assert (2 ^ 1 <= 2 ^ (e2 - e1)) by (apply Z.pow_le_mono_r; lia).
  change (2 ^ 1) with 2 in *. change (2 ^ 53) with 9007199254740992 in *.
  change (2 ^ 52) with 4503599627370496 in *.
  set (P := 2 ^ (e1 + 1074)) in *. set (Q := 2 ^ (e2 - e1)) in *.
  assert (H1 : Zpos m1 * P < 9007199254740992 * P)
    by (apply Z.mul_lt_mono_pos_r; lia).
  assert (H2 : 4503599627370496 * P * 2 <= Zpos m2 * P * Q).
  { apply Z.mul_le_mono_nonneg; try lia.
    apply Z.mul_le_mono_nonneg_r; lia. }
  lia.
Qed.

Lemma mul_compare (a b P : Z) : 0 < P -> (a * P ?= b * P) = (a ?= b).
Proof.
  intros HP. destruct (Z.compare_spec a b) as [->|H|H].
  - apply Z.compare_refl.
  - apply Z.compare_lt_iff. apply Z.mul_lt_mono_pos_r; assumption.
  - apply Z.compare_gt_iff. apply Z.mul_lt_mono_pos_r; assumption.
Qed.

(** On valid finite numbers the comparison is that of the values. *)
Lemma compare_scaled (a b : spec_float) :
  valid_binary a = true -> valid_binary b = true ->
  finite a -> finite b ->
  SFcompare a b = Some (scaled a ?= scaled b).
Proof.
  intros Va Vb Fa Fb.
  destruct a as [sa| | |sa ma ea], b as [sb| | |sb mb eb];
    try contradiction; unfold SFcompare, scaled, cond_Zopp.
  - reflexivity.
  - pose proof (@valid_finite _ _ _ Vb) as (Rb & _).
    pose proof (@scaled_finite_pos mb eb (proj1 Rb)).
    destruct sb; f_equal; symmetry.
    + apply Z.compare_gt_iff. lia.
    + apply Z.compare_lt_iff. lia.
  - pose proof (@valid_finite _ _ _ Va) as (Ra & _).
    pose proof (@scaled_finite_pos ma ea (proj1 Ra)).
    destruct sa; f_equal; symmetry.
    + apply Z.compare_lt_iff. lia.
    + apply Z.compare_gt_iff. lia.
  - pose proof (@valid_finite _ _ _ Va) as (Ra & _).
    pose proof (@valid_finite _ _ _ Vb) as (Rb & _).
    pose proof (@scaled_finite_pos ma ea (proj1 Ra)).
    pose proof (@scaled_finite_pos mb eb (proj1 Rb)).
    assert (Va' : valid_binary (S754_finite false ma ea) = true) by exact Va.
    assert (Vb' : valid_binary (S754_finite false mb eb) = true) by exact Vb.
    change (Pos.compare_cont Eq ma mb) with (Pos.compare ma mb).
    destruct sa, sb; f_equal; symmetry.
    + destruct (Z.compare_spec ea eb) as [->|He|He].
      * rewrite Z.compare_opp.
        rewrite mul_compare by (apply Z.pow_pos_nonneg; lia).
        apply (Pos.compare_antisym ma mb).
      * apply Z.compare_gt_iff.
        pose proof (@scaled_lt _ _ _ _ Va' Vb' He). lia.
      * apply Z.compare_lt_iff.
        pose proof (@scaled_lt _ _ _ _ Vb' Va' He). lia.
    + apply Z.compare_lt_iff. lia.
    + apply Z.compare_gt_iff. lia.
    + destruct (Z.compare_spec ea eb) as [->|He|He].
      * rewrite mul_compare by (apply Z.pow_pos_nonneg; lia).
        apply Pos2Z.inj_compare.
      * apply Z.compare_lt_iff. apply scaled_lt; assumption.
      * apply Z.compare_gt_iff. apply scaled_lt; assumption.
Qed.

Lemma iter_xO_Z (p k : positive) :
  Zpos (Pos.iter xO p k) = Zpos p * 2 ^ Zpos k.
Proof.
  induction k as [|k IH] using Pos.peano_ind.
  - simpl. lia.
  - rewrite Pos.iter_succ, Pos2Z.inj_xO, IH, Pos2Z.inj_succ.
    rewrite Z.pow_succ_r by lia. lia.
Qed.

Lemma iter_xO_digits (p k : positive) :
  Zpos (digits2_pos (Pos.iter xO p k)) = Zpos (digits2_pos p) + Zpos k.
Proof.
  induction k as [|k IH] using Pos.peano_ind.
  - simpl. lia.
  - rewrite Pos.iter_succ. simpl digits2_pos.
    rewrite Pos2Z.inj_succ, IH, Pos2Z.inj_succ. lia.
Qed.

Lemma digits_le (p : positive) (n : Z) :
  Zpos p < 2 ^ n -> Zpos (digits2_pos p) <= n.
Proof.
  intros H. destruct (Z.le_gt_cases (Zpos (digits2_pos p)) n) as [|Hgt];
    [assumption|].
  pose proof (digits_bounds p) as [Hlo _].
  assert (2 ^ n <= 2 ^ (Zpos (digits2_pos p) - 1)).
  { destruct (Z.le_gt_cases 0 n).
    - apply Z.pow_le_mono_r; lia.
    - rewrite (Z.pow_neg_r 2 n) by lia. apply Z.pow_nonneg. lia. }
  lia.
Qed.

(** The canonical form of a positive integer below 2^53. *)
Lemma SFof_pos_eq (p : positive) :
  Zpos p < 2 ^ 53 ->
  exists m e,
    SFof_pos p = S754_finite false m e
    /\ -52 <= e <= 0
    /\ Zpos m = Zpos p * 2 ^ (- e)
    /\ Zpos (digits2_pos m) = 53
    /\ e = Zpos (digits2_pos p) - 53.
Proof.
  intros Hp. pose proof (digits_le p 53 Hp) as Hd.
  unfold SFof_pos, shl_align. change prec with 53.
  set (d := Zpos (digits2_pos p)) in *.
  assert (0 < d) by (unfold d; lia).
  destruct (d - 53 - 0) as [|k|k] eqn:Ek; try lia.
  - exists p, 0. fold d. repeat split; try lia.
  - exists (Pos.iter xO p k), (d - 53).
    rewrite iter_xO_Z, iter_xO_digits. fold d.
    pose proof (Pos2Z.opp_pos k) as Hk.
    assert (Zpos k = - (d - 53)) as -> by lia.
    repeat split; lia.
Qed.

Lemma SFof_pos_valid (p : positive) :
  Zpos p < 2 ^ 53 -> valid_binary (SFof_pos p) = true.
Proof.
  intros Hp. destruct (SFof_pos_eq p Hp) as (m & e & -> & He & _ & Hd & _).
  unfold SpecFloat.valid_binary, bounded, canonical_mantissa, fexp.
  rewrite Hd. change (SpecFloat.emin prec emax) with (-1074).
  change (emax - prec) with 971. change prec with 53.
  apply andb_true_iff. split.
  - apply Z.eqb_eq. lia.
  - apply Z.leb_le. lia.
Qed.

Lemma pow_split (a b : Z) : 0 <= a -> 0 <= b -> 2 ^ (a + b) = 2 ^ a * 2 ^ b.
Proof. intros. apply Z.pow_add_r; assumption. Qed.

Lemma SFof_pos_scaled (p : positive) :
  Zpos p < 2 ^ 53 -> scaled (SFof_pos p) = Zpos p * quantum.
Proof.
  intros Hp. destruct (SFof_pos_eq p Hp) as (m & e & -> & He & Hm & _).
  unfold scaled, cond_Zopp, quantum. rewrite Hm.
  replace 1074 with (- e + (e + 1074)) at 2 by lia.
  rewrite (pow_split (- e) (e + 1074)) by lia. lia.
Qed.

Lemma SFof_Z_valid (z : Z) :
  Z.abs z < 2 ^ 53 -> valid_binary (SFof_Z z) = true.
Proof.
  destruct z as [|p|p]; intros Hz; simpl.
  - reflexivity.
  - apply SFof_pos_valid. exact Hz.
  - pose proof (SFof_pos_valid p Hz) as V.
    destruct (SFof_pos p); exact V.
Qed.

Lemma SFof_Z_scaled (z : Z) :
  Z.abs z < 2 ^ 53 -> scaled (SFof_Z z) = z * quantum.
Proof.
  destruct z as [|p|p]; intros Hz; simpl SFof_Z.
  - reflexivity.
  - apply SFof_pos_scaled. exact Hz.
  - pose proof (SFof_pos_scaled p Hz) as E.
    destruct (SFof_pos_eq p Hz) as (m & e & Em & _).
    rewrite Em in *. unfold SFopp, scaled, cond_Zopp in *. simpl negb.
    cbv iota. rewrite E. lia.
Qed.

Lemma SFof_Z_finite (z : Z) : Z.abs z < 2 ^ 53 -> finite (SFof_Z z).
Proof.
  destruct z as [|p|p]; intros Hz; simpl SFof_Z.
  - exact I.
  - destruct (SFof_pos_eq p Hz) as (m & e & -> & _). exact I.
  - destruct (SFof_pos_eq p Hz) as (m & e & -> & _). exact I.
Qed.

(** A valid finite number that is a non-negative multiple of the quantum
    denotes that array index. *)
Lemma scaled_index (f : spec_float) (n : Z) :
  valid_binary f = true -> finite f -> 0 <= n ->
  scaled f = n * quantum ->
  SFindex f = Some n.
Proof.
  intros V F Hn E. pose proof quantum_pos as HU.
  destruct f as [s| | |s m e]; try contradiction.
  - simpl in *. f_equal. nia.
  - pose proof (@valid_finite _ _ _ V) as (R & _).
    pose proof (@scaled_finite_pos m e (proj1 R)) as Hpos.
    unfold scaled, cond_Zopp in E.
    destruct s; [nia|]. unfold SFindex.
    destruct (Z.leb_spec 0 e) as [He|He].
    + f_equal. rewrite Z.shiftl_mul_pow2 by lia.
      rewrite (pow_split e 1074) in E by lia. fold quantum in E. nia.
    + assert (Eu : quantum = 2 ^ (- e) * 2 ^ (e + 1074)).
      { unfold quantum. rewrite <- pow_split by lia. f_equal. lia. }
      assert (HP : 0 < 2 ^ (e + 1074)) by (apply Z.pow_pos_nonneg; lia).
      assert (HQ : 0 < 2 ^ (- e)) by (apply Z.pow_pos_nonneg; lia).
      assert (Em : Zpos m = n * 2 ^ (- e)).
      { rewrite Eu in E. nia. }
      rewrite Z.land_ones by lia. rewrite Z.shiftr_div_pow2 by lia.
      rewrite Em. rewrite Z.mod_mul by lia. rewrite Z.div_mul by lia.
      reflexivity.
Qed.

(** Conversely, an array index is a non-negative multiple of the quantum. *)
Lemma index_scaled (f : spec_float) (n : Z) :
  valid_binary f = true ->
  SFindex f = Some n ->
  finite f /\ 0 <= n /\ scaled f = n * quantum.
Proof.
  intros V E. destruct f as [s| | |s m e]; try discriminate.
  - injection E as <-. simpl. auto with zarith.
  - pose proof (@valid_finite _ _ _ V) as (R & _).
    unfold SFindex in E. destruct s; [discriminate|].
    unfold scaled, cond_Zopp, quantum.
    destruct (Z.leb_spec 0 e) as [He|He].
    + injection E as <-. rewrite Z.shiftl_mul_pow2 by lia.
      repeat split.
      * apply Z.mul_nonneg_nonneg; [lia|apply Z.pow_nonneg; lia].
      * rewrite (pow_split e 1074) by lia. lia.
    + destruct (Z.eqb_spec (Z.land (Zpos m) (Z.ones (- e))) 0) as [Hl|];
        [|discriminate].
      injection E as <-. rewrite Z.land_ones in Hl by lia.
      rewrite Z.shiftr_div_pow2 by lia.
      assert (HQ : 0 < 2 ^ (- e)) by (apply Z.pow_pos_nonneg; lia).
      repeat split.
      * apply Z.div_pos; lia.
      * pose proof (Z.div_mod (Zpos m) (2 ^ (- e))) as Hdm.
        rewrite Hl in Hdm.
        replace 1074 with (- e + (e + 1074)) at 2 by lia.
        rewrite (pow_split (- e) (e + 1074)) by lia.
        rewrite Z.mul_assoc. f_equal. lia.
Qed.

(** *** Exact rounding *)

Lemma shr_1_double (a : Z) :
  shr_1 (Build_shr_record (2 * a) false false) = Build_shr_record a false false.
Proof. destruct a; reflexivity. Qed.

Lemma shr_exact (s : positive) :
  forall a : Z,
    SpecFloat.iter_pos shr_1 s (Build_shr_record (a * 2 ^ Zpos s) false false)
    = Build_shr_record a false false.
Proof.
  induction s as [s IH|s IH|]; intros a; cbn [SpecFloat.iter_pos].
  - rewrite (Pos2Z.inj_xI s).
    replace (a * 2 ^ (2 * Zpos s + 1))
      with (2 * ((a * 2 ^ Zpos s) * 2 ^ Zpos s)).
    + rewrite shr_1_double, IH, IH. reflexivity.
    + rewrite Z.pow_add_r, Z.pow_mul_r by lia.
      change (2 ^ 2) with 4. change (2 ^ 1) with 2.
      replace (Zpos s) with (Z.succ (Zpos s - 1)) at 3 by lia.
      rewrite Z.pow_succ_r by lia.
      replace (4 ^ Z.succ (Zpos s - 1)) with (4 * 4 ^ (Zpos s - 1))
        by (rewrite Z.pow_succ_r by lia; reflexivity).
      assert (H : 2 ^ Zpos s * 2 ^ Zpos s = 4 * 4 ^ (Zpos s - 1)).
      { rewrite <- Z.pow_succ_r by lia. rewrite <- Z.pow_mul_l.
        f_equal. lia. }
      rewrite <- H. ring.
  - rewrite (Pos2Z.inj_xO s).
    replace (a * 2 ^ (2 * Zpos s)) with ((a * 2 ^ Zpos s) * 2 ^ Zpos s).
    + rewrite IH, IH. reflexivity.
    + replace (2 * Zpos s) with (Zpos s + Zpos s) by lia.
      rewrite Z.pow_add_r by lia. ring.
  - change (2 ^ 1) with 2. rewrite Z.mul_comm. apply shr_1_double.
Qed.

Lemma fexp_eq (k : Z) : fexp prec emax k = Z.max (k - 53) (-1074).
Proof. reflexivity. Qed.

(** Rounding a mantissa whose excess low bits are all zero. *)
Lemma binary_round_aux_exact (sx : bool) (M a : positive) (e e' : Z) :
  fexp prec emax (Zpos (digits2_pos M) + e) = e' ->
  e <= e' ->
  Zpos M = Zpos a * 2 ^ (e' - e) ->
  fexp prec emax (Zpos (digits2_pos a) + e') <= e' ->
  e' <= 971 ->
  binary_round_aux prec emax sx (Zpos M) e loc_Exact = S754_finite sx a e'.
Proof.
  intros Hf He HM Ha Hmax.
  unfold binary_round_aux.
  assert (E1 : shr_fexp prec emax (Zpos M) e loc_Exact
               = (Build_shr_record (Zpos a) false false, e')).
  { unfold shr_fexp, shr. simpl Zdigits2. rewrite Hf.
    simpl shr_record_of_loc.
    destruct (e' - e) as [|s|s] eqn:Es; try lia.
    - change (2 ^ 0) with 1 in HM. rewrite Z.mul_1_r in HM.
      rewrite HM. f_equal. lia.
    - rewrite HM, shr_exact. f_equal. lia. }
  rewrite E1. simpl shr_m. simpl loc_of_shr_record. simpl round_nearest_even.
  assert (E2 : shr_fexp prec emax (Zpos a) e' loc_Exact
               = (Build_shr_record (Zpos a) false false, e')).
  { unfold shr_fexp, shr. simpl Zdigits2. simpl shr_record_of_loc.
    destruct (fexp prec emax (Zpos (digits2_pos a) + e') - e')
      as [|s|s] eqn:Es; try reflexivity. lia. }
  rewrite E2. simpl shr_m.
  change (emax - prec) with 971.
  destruct (Z.leb_spec e' 971); [reflexivity|lia].
Qed.

Lemma shl_align_ge (mx : positive) (ex ex' : Z) :
  ex <= ex' -> shl_align mx ex ex' = (mx, ex).
Proof.
  intros H. unfold shl_align.
  destruct (ex' - ex) as [|d|d] eqn:E; try reflexivity. lia.
Qed.

Lemma shl_align_fst (mx : positive) (ex ex' : Z) :
  ex' <= ex -> Zpos (fst (shl_align mx ex ex')) = Zpos mx * 2 ^ (ex - ex').
Proof.
  intros H. unfold shl_align.
  destruct (ex' - ex) as [|d|d] eqn:E; try lia.
  - replace (ex - ex') with 0 by lia. simpl fst. lia.
  - simpl fst. rewrite iter_xO_Z. f_equal. f_equal. lia.
Qed.

(** An integer below 2^53, given in units of 2^-52, normalizes to its
    canonical form. *)
Lemma normalize_int (K : Z) :
  0 <= K < 2 ^ 53 ->
  binary_normalize prec emax (K * 2 ^ 52) (-52) false = SFof_Z K.
Proof.
  intros HK. destruct K as [|k|k]; try lia.
  - reflexivity.
  - change (Zpos k * 2 ^ 52) with (Zpos (k * 4503599627370496)).
    set (M := (k * 4503599627370496)%positive).
    assert (EM : M = Pos.iter xO k 52).
    { apply Pos2Z.inj. rewrite iter_xO_Z. reflexivity. }
    assert (DM : Zpos (digits2_pos M) = Zpos (digits2_pos k) + 52).
    { rewrite EM. apply iter_xO_digits. }
    assert (Hk : Zpos k < 2 ^ 53) by lia.
    pose proof (digits_le k 53 Hk) as Hd.
    destruct (SFof_pos_eq k Hk) as (m & e & Em & He & Hm & Hdm & Ee).
    simpl SFof_Z. rewrite Em.
    unfold binary_normalize, binary_round.
    rewrite shl_align_ge.
    2:{ rewrite DM, fexp_eq. lia. }
    apply binary_round_aux_exact.
    + rewrite DM, fexp_eq. lia.
    + lia.
    + rewrite Hm. fold M. rewrite <- Z.mul_assoc, <- pow_split by lia.
      replace (- e + (e - -52)) with 52 by lia. reflexivity.
    + rewrite Hdm, fexp_eq. lia.
    + lia.
Qed.

(** Subtracting one from an integer below 2^53 is exact. *)
Lemma sub_one (N : positive) :
  Zpos N < 2 ^ 53 ->
  SF64sub (SFof_pos N) (S754_finite false 4503599627370496 (-52))
  = SFof_Z (Zpos N - 1).
Proof.
  intros HN. destruct (SFof_pos_eq N HN) as (m & e & -> & He & Hm & _).
  unfold SF64sub, SFsub.
  replace (Z.min e (-52)) with (-52) by lia.
  rewrite shl_align_fst by lia.
  rewrite (shl_align_ge 4503599627370496 (-52) (-52)) by lia.
  simpl fst. unfold cond_Zopp.
  rewrite Hm, <- Z.mul_assoc, <- pow_split by lia.
  replace (- e + (e - -52)) with 52 by lia.
  replace (Zpos N * 2 ^ 52 - 4503599627370496)
    with ((Zpos N - 1) * 2 ^ 52) by (change (2 ^ 52) with 4503599627370496; lia).
  apply normalize_int. lia.
Qed.

(** *** Floor, product and tests on numbers *)

Lemma shiftr_bound (s : bool) (m : positive) (k : Z) :
  0 <= k -> Z.abs (Z.shiftr (cond_Zopp s (Zpos m)) k) <= Zpos m.
Proof.
  intros Hk. rewrite Z.shiftr_div_pow2 by lia.
  assert (HQ : 0 < 2 ^ k) by (apply Z.pow_pos_nonneg; lia).
  assert (H1 : 1 <= 2 ^ k) by lia.
  destruct s; unfold cond_Zopp.
  - pose proof (Z.div_le_upper_bound (- Zpos m) (2 ^ k) 0 HQ).
    pose proof (Z.div_le_lower_bound (- Zpos m) (2 ^ k) (- Zpos m) HQ).
    assert (- Zpos m <= - Zpos m / 2 ^ k) by (apply H0; nia).
    assert (- Zpos m / 2 ^ k <= 0) by (apply H; lia).
    lia.
  - pose proof (Z.div_pos (Zpos m) (2 ^ k)).
    pose proof (Z.div_le_upper_bound (Zpos m) (2 ^ k) (Zpos m) HQ).
    assert (Zpos m / 2 ^ k <= Zpos m) by (apply H0; nia).
    assert (0 <= Zpos m / 2 ^ k) by (apply H; lia).
    lia.
Qed.

Lemma floor_spec (q : float) : Prim2SF (Math_floor q) = SFfloor (Prim2SF q).
Proof.
  unfold Math_floor, SFfloor.
  pose proof (Prim2SF_valid q) as V.
  destruct (Prim2SF q) as [s| | |s m e] eqn:E; try exact E.
  destruct (0 <=? e) eqn:He; [exact E|].
  apply Prim2SF_SF2Prim. apply SFof_Z_valid.
  pose proof (@valid_finite _ _ _ V) as (_ & Hm & _).
  apply Z.leb_gt in He.
  pose proof (shiftr_bound s m (- e)). lia.
Qed.

Lemma SFfloor_scaled (f : spec_float) :
  valid_binary f = true -> finite f ->
  valid_binary (SFfloor f) = true /\ finite (SFfloor f)
  /\ scaled (SFfloor f) = scaled f / quantum * quantum.
Proof.
  intros V F. pose proof quantum_pos as HU.
  destruct f as [s| | |s m e]; try contradiction.
  - simpl. auto.
  - pose proof (@valid_finite _ _ _ V) as (R & Hm & _).
    unfold SFfloor. destruct (Z.leb_spec 0 e) as [He|He].
    + repeat split; auto. unfold scaled.
      rewrite (pow_split e 1074) by lia. fold quantum.
      replace (cond_Zopp s (Zpos m * (2 ^ e * quantum)))
        with (cond_Zopp s (Zpos m * 2 ^ e) * quantum)
        by (destruct s; unfold cond_Zopp; ring).
      rewrite Z.div_mul by lia. reflexivity.
    + pose proof (shiftr_bound s m (- e)) as Hb.
      assert (Hz : Z.abs (Z.shiftr (cond_Zopp s (Zpos m)) (- e)) < 2 ^ 53)
        by lia.
      repeat split.
      * apply SFof_Z_valid. exact Hz.
      * apply SFof_Z_finite. exact Hz.
      * rewrite SFof_Z_scaled by exact Hz. f_equal.
        rewrite Z.shiftr_div_pow2 by lia. unfold scaled.
        assert (Eu : quantum = 2 ^ (- e) * 2 ^ (e + 1074)).
        { unfold quantum. rewrite <- pow_split by lia. f_equal. lia. }
        rewrite Eu.
        replace (cond_Zopp s (Zpos m * 2 ^ (e + 1074)))
          with (cond_Zopp s (Zpos m) * 2 ^ (e + 1074))
          by (destruct s; unfold cond_Zopp; ring).
        assert (HP : 0 < 2 ^ (e + 1074)) by (apply Z.pow_pos_nonneg; lia).
        assert (HQ : 0 < 2 ^ (- e)) by (apply Z.pow_pos_nonneg; lia).
        rewrite Z.div_mul_cancel_r by lia. reflexivity.
Qed.

Lemma shr_1_nonneg (mrs : shr_record) :
  0 <= shr_m mrs -> 0 <= shr_m (shr_1 mrs).
Proof.
  destruct mrs as [m r s]. simpl.
  destruct m as [|[p|p|]|[p|p|]]; simpl; lia.
Qed.

Lemma iter_shr_1_nonneg (n : positive) :
  forall mrs, 0 <= shr_m mrs -> 0 <= shr_m (SpecFloat.iter_pos shr_1 n mrs).
Proof.
  induction n as [n IH|n IH|]; intros mrs H; cbn [SpecFloat.iter_pos];
    auto using shr_1_nonneg.
Qed.

Lemma shr_fexp_nonneg (m e : Z) (l : location) :
  0 <= m -> 0 <= shr_m (fst (shr_fexp prec emax m e l)).
Proof.
  intros H. unfold shr_fexp, shr.
  assert (H0 : 0 <= shr_m (shr_record_of_loc m l)).
  { destruct l as [|[]]; exact H. }
  destruct (fexp prec emax (Zdigits2 m + e) - e); simpl fst; auto.
  apply iter_shr_1_nonneg. exact H0.
Qed.

Lemma binary_round_aux_not_nan (sx : bool) (m e : Z) (l : location) :
  0 <= m -> binary_round_aux prec emax sx m e l <> S754_nan.
Proof.
  intros H. unfold binary_round_aux.
  pose proof (shr_fexp_nonneg m e l H) as H1.
  destruct (shr_fexp prec emax m e l) as [mrs' e']. simpl fst in H1.
  assert (H2 : 0 <= round_nearest_even (shr_m mrs') (loc_of_shr_record mrs')).
  { unfold round_nearest_even.
    destruct (loc_of_shr_record mrs') as [|[]]; try lia.
    destruct (Z.even (shr_m mrs')); lia. }
  pose proof (shr_fexp_nonneg _ e' loc_Exact H2) as H3.
  destruct (shr_fexp prec emax _ e' loc_Exact) as [mrs'' e''].
  simpl fst in H3.
  destruct (shr_m mrs'') as [|p|p]; try discriminate; try lia.
  destruct (e'' <=? emax - prec); discriminate.
Qed.

(** The product of two finite numbers is a number. *)
Lemma SFmul_finite (a b : spec_float) :
  finite a -> finite b -> SF64mul a b <> S754_nan.
Proof.
  destruct a as [sa| | |sa ma ea], b as [sb| | |sb mb eb];
    try contradiction; intros _ _; try discriminate.
  unfold SF64mul, SFmul. apply binary_round_aux_not_nan. lia.
Qed.

Lemma SFeqb_refl_finite (f : spec_float) : finite f -> SFeqb f f = true.
Proof.
  destruct f as [s| | |[] m e]; try contradiction; intros _;
    unfold SFeqb, SFcompare; try reflexivity;
    now rewrite Z.compare_refl, Pos.compare_cont_refl.
Qed.

Lemma is_finite_spec (v : float) :
  is_finite v = true -> finite (Prim2SF v).
Proof.
  unfold is_finite, is_nan, is_infinity.
  rewrite !FloatAxioms.eqb_spec, abs_spec.
  destruct (Prim2SF v) as [s|[]| |s m e]; simpl; auto; discriminate.
Qed.

Lemma SFleb_scaled (a b : spec_float) :
  valid_binary a = true -> valid_binary b = true ->
  finite a -> finite b ->
  SFleb a b = (scaled a <=? scaled b).
Proof.
  intros Va Vb Fa Fb. unfold SFleb. rewrite compare_scaled by assumption.
  unfold Z.leb. destruct (scaled a ?= scaled b); reflexivity.
Qed.

Lemma SFleb_finite_l (a b : spec_float) :
  SFleb a b = true -> finite b -> a <> S754_infinity false /\ a <> S754_nan.
Proof.
  destruct a as [sa|[]| |sa ma ea], b as [sb| | |sb mb eb];
    try contradiction; intros H _; split; try discriminate.
Qed.

(** *** The bin count and the bin index *)

Ltac fin := first [assumption | exact I | reflexivity].

Local Open Scope float_scope.

Lemma one_spec : Prim2SF 1 = SFof_pos 1.
Proof. reflexivity. Qed.

Lemma max_length_spec : Prim2SF 4294967295 = SFof_pos 4294967295.
Proof. reflexivity. Qed.

Lemma zero_spec : Prim2SF 0 = S754_zero false.
Proof. reflexivity. Qed.

(** A bin count between 1 and 2^32 - 1 produced by [Math.floor] is a
    positive integer in canonical form. *)
Lemma bin_count_form (q : float) :
  (1 <=? Math_floor q) = true ->
  (Math_floor q <=? 4294967295) = true ->
  exists N : positive,
    Prim2SF (Math_floor q) = SFof_pos N /\ (Zpos N <= 4294967295)%Z.
Proof.
  rewrite !leb_spec, one_spec, max_length_spec, floor_spec.
  intros H1 H2. pose proof quantum_pos as HU.
  pose proof (Prim2SF_valid q) as V.
  assert (V1 : valid_binary (SFof_pos 1) = true) by reflexivity.
  assert (V2 : valid_binary (SFof_pos 4294967295) = true) by reflexivity.
  assert (S1 : scaled (SFof_pos 1) = (1 * quantum)%Z)
    by (apply SFof_pos_scaled; reflexivity).
  assert (S2 : scaled (SFof_pos 4294967295) = (4294967295 * quantum)%Z)
    by (apply SFof_pos_scaled; reflexivity).
  assert (F1 : finite (SFof_pos 1)) by exact I.
  assert (F2 : finite (SFof_pos 4294967295)) by exact I.
  destruct (Prim2SF q) as [s|[]| |s m e] eqn:E; try discriminate.
  - destruct (SFfloor_scaled (S754_finite s m e) V I) as (Vf & Ff & Sf).
    rewrite SFleb_scaled in H1, H2 by fin.
    apply Z.leb_le in H1, H2. rewrite S1 in H1. rewrite S2 in H2.
    pose proof (@valid_finite _ _ _ V) as (R & Hm & Hn).
    unfold SFfloor in *. destruct (Z.leb_spec 0 e) as [He|He].
    + exfalso. destruct Hn as [Hn|Hn]; [lia|].
      unfold scaled in H1, H2. destruct s; unfold cond_Zopp in *.
      * pose proof (@scaled_finite_pos m e (proj1 R)). lia.
      * rewrite (pow_split e 1074) in H2 by lia. fold quantum in H2.
        assert (1 <= 2 ^ e)%Z.
        { change 1%Z with (2 ^ 0)%Z. apply Z.pow_le_mono_r; lia. }
        change (2 ^ 52)%Z with 4503599627370496%Z in Hn.
        assert (4503599627370496 * 1 * quantum <= Zpos m * 2 ^ e * quantum)%Z.
        { apply Z.mul_le_mono_nonneg_r; [lia|].
          apply Z.mul_le_mono_nonneg; lia. }
        lia.
    + set (z := Z.shiftr (cond_Zopp s (Zpos m)) (- e)) in *.
      assert (Hz : (Z.abs z < 2 ^ 53)%Z).
      { pose proof (shiftr_bound s m (- e)). fold z in H. lia. }
      rewrite SFof_Z_scaled in H1, H2 by exact Hz.
      assert (1 <= z <= 4294967295)%Z by nia.
      destruct z as [|N|N]; try lia.
      exists N. split; [reflexivity|lia].
Qed.

Lemma SFopp_facts (f : spec_float) :
  valid_binary f = true -> finite f ->
  valid_binary (SFopp f) = true /\ finite (SFopp f)
  /\ scaled (SFopp f) = (- scaled f)%Z.
Proof.
  destruct f as [s| | |s m e]; try contradiction; intros V _.
  - repeat split; auto.
  - repeat split; auto. unfold SFopp, scaled, cond_Zopp.
    destruct s; simpl negb; cbv iota; lia.
Qed.

Section BinCount.

Variable B : float.
Variable N : positive.
Hypothesis B_spec : Prim2SF B = SFof_pos N.
Hypothesis N_small : (Zpos N <= 4294967295)%Z.

Lemma N_lt : (Zpos N < 2 ^ 53)%Z.
Proof. change (2 ^ 53)%Z with 9007199254740992%Z. lia. Qed.

Lemma B_valid : valid_binary (Prim2SF B) = true.
Proof. apply Prim2SF_valid. Qed.

Lemma B_finite : finite (Prim2SF B).
Proof.
  rewrite B_spec. destruct (SFof_pos_eq N N_lt) as (m & e & -> & _).
  exact I.
Qed.

Lemma B_scaled : scaled (Prim2SF B) = (Zpos N * quantum)%Z.
Proof. rewrite B_spec. apply SFof_pos_scaled, N_lt. Qed.

Lemma B_index : to_index B = Some (Zpos N).
Proof.
  unfold to_index. apply scaled_index.
  - apply B_valid.
  - apply B_finite.
  - lia.
  - apply B_scaled.
Qed.

(** [xBins - 1] is the integer [N - 1], exactly. *)
Lemma B_minus_one : Prim2SF (B - 1) = SFof_Z (Zpos N - 1).
Proof.
  rewrite sub_spec, B_spec. change (Prim2SF 1)
    with (S754_finite false 4503599627370496 (-52)).
  apply sub_one, N_lt.
Qed.

Lemma upper_facts :
  valid_binary (Prim2SF (B - 1)) = true /\ finite (Prim2SF (B - 1))
  /\ scaled (Prim2SF (B - 1)) = ((Zpos N - 1) * quantum)%Z.
Proof.
  assert (H : (Z.abs (Zpos N - 1) < 2 ^ 53)%Z)
    by (pose proof N_lt; lia).
  rewrite B_minus_one. repeat split.
  - apply SFof_Z_valid, H.
  - apply SFof_Z_finite, H.
  - apply SFof_Z_scaled, H.
Qed.

(** The clamped bin index is an array index below the bin count; it is
    the last index when the scaled value reaches the bin count. *)
Lemma clamp_index (y : float) :
  Prim2SF y <> S754_nan ->
  exists i : Z,
    to_index (Lodash.clamp (Math_floor y) 0 (B - 1)) = Some i
    /\ (0 <= i < Zpos N)%Z
    /\ ((B <=? y) = true -> i = (Zpos N - 1)%Z).
Proof.
  intros Hy. pose proof quantum_pos as HU.
  destruct upper_facts as (Vu & Fu & Su).
  pose proof (Prim2SF_valid y) as Vy.
  pose proof B_valid as VB. pose proof B_finite as FB.
  pose proof B_scaled as SB.
  assert (Iu : to_index (B - 1) = Some (Zpos N - 1)%Z).
  { unfold to_index. apply scaled_index; auto. lia. }
  assert (I0 : to_index 0 = Some 0%Z) by reflexivity.
  assert (Hnn : (0 <= (Zpos N - 1) * quantum)%Z)
    by (apply Z.mul_nonneg_nonneg; lia).
  assert (Eup : (B - 1 =? B - 1) = true).
  { rewrite FloatAxioms.eqb_spec. apply SFeqb_refl_finite, Fu. }
  assert (Eu0 : (0 <=? B - 1) = true).
  { rewrite leb_spec, zero_spec, SFleb_scaled by fin.
    apply Z.leb_le. rewrite Su. exact Hnn. }
  pose proof (floor_spec y) as Pn.
  set (num := Math_floor y) in *.
  unfold Lodash.clamp, geb. rewrite Eup.
  replace (0 =? 0) with true by reflexivity. cbv zeta.
  destruct (Prim2SF y) as [s|[]| |s m e] eqn:Ey; try congruence.
  - (* zero *)
    simpl SFfloor in Pn.
    assert (E1 : (num =? num) = true)
      by (rewrite FloatAxioms.eqb_spec, Pn; reflexivity).
    assert (E2 : (num <=? B - 1) = true).
    { rewrite leb_spec, Pn, SFleb_scaled by fin.
      apply Z.leb_le. rewrite Su. exact Hnn. }
    assert (E3 : (0 <=? num) = true)
      by (rewrite leb_spec, Pn, zero_spec; reflexivity).
    rewrite E1, E2, E3. exists 0%Z. unfold to_index. rewrite Pn.
    repeat split; try lia.
    rewrite leb_spec, Ey, SFleb_scaled by fin.
    intros H. apply Z.leb_le in H. rewrite SB in H.
    change (scaled (S754_zero s)) with 0%Z in H.
    assert (0 < Zpos N * quantum)%Z by (apply Z.mul_pos_pos; lia). lia.
  - (* -infinity *)
    simpl SFfloor in Pn.
    assert (E1 : (num =? num) = true)
      by (rewrite FloatAxioms.eqb_spec, Pn; reflexivity).
    assert (E2 : (num <=? B - 1) = true).
    { rewrite leb_spec, Pn.
      destruct (Prim2SF (B - 1)) as [|[]| |]; try contradiction;
        reflexivity. }
    assert (E3 : (0 <=? num) = false)
      by (rewrite leb_spec, Pn, zero_spec; reflexivity).
    rewrite E1, E2, E3. exists 0%Z. rewrite I0.
    repeat split; try lia.
    rewrite leb_spec, Ey. intros H. exfalso.
    destruct (Prim2SF B) as [|[]| |]; try contradiction; discriminate.
  - (* +infinity *)
    simpl SFfloor in Pn.
    assert (E1 : (num =? num) = true)
      by (rewrite FloatAxioms.eqb_spec, Pn; reflexivity).
    assert (E2 : (num <=? B - 1) = false).
    { rewrite leb_spec, Pn.
      destruct (Prim2SF (B - 1)) as [|[]| |]; try contradiction;
        reflexivity. }
    rewrite E1, E2, Eu0. exists (Zpos N - 1)%Z. rewrite Iu.
    repeat split; lia.
  - (* finite *)
    destruct (SFfloor_scaled (S754_finite s m e) Vy I) as (Vf & Ff & Sf).
    set (fl := SFfloor (S754_finite s m e)) in *.
    set (F := (scaled (S754_finite s m e) / quantum)%Z) in *.
    assert (E1 : (num =? num) = true).
    { rewrite FloatAxioms.eqb_spec, Pn. apply SFeqb_refl_finite, Ff. }
    assert (E2 : (num <=? B - 1) = (F <=? Zpos N - 1)%Z).
    { rewrite leb_spec, Pn, SFleb_scaled, Sf, Su by fin.
      destruct (Z.leb_spec F (Zpos N - 1)) as [H|H].
      - apply Z.leb_le. apply Z.mul_le_mono_nonneg_r; lia.
      - apply Z.leb_gt. apply Z.mul_lt_mono_pos_r; lia. }
    assert (E3 : (0 <=? num) = (0 <=? F)%Z).
    { rewrite leb_spec, Pn, zero_spec, SFleb_scaled, Sf by fin.
      change (scaled (S754_zero false)) with 0%Z.
      destruct (Z.leb_spec 0 F) as [H|H].
      - apply Z.leb_le. apply Z.mul_nonneg_nonneg; lia.
      - apply Z.leb_gt. apply Z.mul_neg_pos; lia. }
    assert (Hmax : (B <=? y) = true -> (Zpos N <= F)%Z).
    { rewrite leb_spec, Ey, SFleb_scaled by fin.
      intros H. apply Z.leb_le in H. rewrite SB in H. unfold F.
      apply Z.div_le_lower_bound; lia. }
    rewrite E1, E2.
    destruct (Z.leb_spec F (Zpos N - 1)) as [Hle|Hgt].
    + rewrite E3. destruct (Z.leb_spec 0 F) as [Hp|Hn].
      * exists F. unfold to_index. rewrite Pn.
        repeat split; try lia.
        -- apply scaled_index; auto.
        -- intros H'. apply Hmax in H'. lia.
      * exists 0%Z. rewrite I0. repeat split; try lia.
        intros H'. apply Hmax in H'. lia.
    + rewrite Eu0. exists (Zpos N - 1)%Z. rewrite Iu.
      repeat split; lia.
Qed.

Lemma B_toFinite : Lodash.toFinite B = B.
Proof.
  unfold Lodash.toFinite, is_nan.
  destruct (is_zero B); [reflexivity|].
  rewrite !FloatAxioms.eqb_spec, (SFeqb_refl_finite _ B_finite).
  pose proof B_finite as F.
  change (Prim2SF infinity) with (S754_infinity false).
  change (Prim2SF neg_infinity) with (S754_infinity true).
  destruct (Prim2SF B) as [| | |[] ? ?]; try contradiction; reflexivity.
Qed.

Lemma B_pos : (0 <? B) = true.
Proof.
  rewrite ltb_spec, zero_spec, B_spec.
  destruct (SFof_pos_eq N N_lt) as (m & e & -> & _). reflexivity.
Qed.

Lemma B_ceil : to_index (Lodash.Math_ceil B) = Some (Zpos N).
Proof.
  pose proof quantum_pos as HU.
  unfold to_index, Lodash.Math_ceil. rewrite opp_spec, floor_spec, opp_spec.
  destruct (SFopp_facts _ B_valid B_finite) as (V1 & F1 & S1).
  destruct (SFfloor_scaled _ V1 F1) as (V2 & F2 & S2).
  destruct (SFopp_facts _ V2 F2) as (V3 & F3 & S3).
  apply scaled_index; auto; try lia.
  rewrite S3, S2, S1, B_scaled.
  replace (- (Zpos N * quantum))%Z with ((- Zpos N) * quantum)%Z by ring.
  rewrite Z.div_mul by lia. ring.
Qed.

(** [_.range(0, xBins)] has [N] elements. *)
Lemma B_range :
  Lodash.range0 B = Normal (Lodash.baseRange_fill (Pos.to_nat N) 0 1).
Proof.
  unfold Lodash.range0. rewrite B_toFinite, B_pos.
  unfold Lodash.array_length. rewrite B_ceil.
  unfold Lodash.MAX_ARRAY_LENGTH.
  destruct (Z.leb_spec (Zpos N) 4294967295) as [_|H]; [|lia].
  reflexivity.
Qed.

End BinCount.

End Binary64.

(** ** One-dimensional binning is a partition *)

Module Partition.

Import JS Common BinStats1d Notions.
Local Open Scope float_scope.

Lemma push_data_spec (bins : list Bin1d) (xBin : float) (p : object)
      (i : nat) :
  to_index xBin = Some (Z.of_nat i) ->
  (i < List.length bins)%nat ->
  exists bins',
    push_data bins xBin p = Normal bins'
    /\ List.length bins' = List.length bins
    /\ forall j, data_at bins' j
                 = if (j =? i)%nat then data_at bins j ++ [p]
                   else data_at bins j.
Proof.
  intros Hi Hlt. unfold push_data, at_number. rewrite Hi, Nat2Z.id.
  destruct (Z.ltb_spec (Z.of_nat i) (Z.of_nat (List.length bins))) as [_|H];
    [|lia].
  destruct (nth_error bins i) as [bin|] eqn:Eb.
  2:{ apply nth_error_None in Eb. lia. }
  eexists. split; [reflexivity|]. split.
  - rewrite length_app. cbn [List.length].
    rewrite length_firstn, length_skipn. lia.
  - intros j. unfold data_at.
    assert (Hf : List.length (firstn i bins) = i)
      by (rewrite length_firstn; lia).
    destruct (Nat.eqb_spec j i) as [->|Hne].
    + rewrite nth_error_app2 by lia. rewrite Hf, Nat.sub_diag.
      cbn [nth_error data]. rewrite Eb. reflexivity.
    + destruct (Nat.lt_ge_cases j i) as [Hj|Hj].
      * rewrite nth_error_app1 by lia. rewrite nth_error_firstn.
        destruct (Nat.ltb_spec j i); [reflexivity|lia].
      * rewrite nth_error_app2 by lia. rewrite Hf.
        destruct (j - i)%nat as [|k] eqn:Ek; [lia|].
        cbn [nth_error]. rewrite nth_error_skipn.
        replace (S i + k)%nat with j by lia. reflexivity.
Qed.

Lemma memberCount_data_at (bins : list Bin1d) :
  memberCount bins
  = list_sum (map (fun j => List.length (data_at bins j))
                  (seq 0 (List.length bins))).
Proof.
  unfold memberCount. induction bins as [|b bins IH].
  - reflexivity.
  - simpl. f_equal. rewrite IH, <- seq_shift, map_map. reflexivity.
Qed.

Lemma sum_indicator (i a n : nat) :
  list_sum (map (fun j => if (i =? j)%nat then 1%nat else 0%nat) (seq a n))
  = if ((a <=? i) && (i <? a + n))%nat then 1%nat else 0%nat.
Proof.
  revert a. induction n as [|n IH]; intros a.
  - simpl. rewrite Nat.add_0_r.
    destruct (Nat.leb_spec a i), (Nat.ltb_spec i a); simpl; auto; lia.
  - simpl. rewrite IH.
    destruct (Nat.eqb_spec i a), (Nat.leb_spec (S a) i),
      (Nat.ltb_spec i (S a + n)), (Nat.leb_spec a i),
      (Nat.ltb_spec i (a + S n)); simpl; lia.
Qed.

Lemma list_sum_map_add {A} (f g : A -> nat) (l : list A) :
  list_sum (map (fun a => (f a + g a)%nat) l)
  = (list_sum (map f l) + list_sum (map g l))%nat.
Proof. induction l as [|a l IH]; simpl; lia. Qed.

Section Binning.

Variable Math_pow : float -> float -> float.
Variable points : list object.
Variable x : TypedAccessor.

Local Abbreviation xBins := (BinStats1d.xBins Math_pow points x).
Local Abbreviation binIndex := (BinStats1d.binIndex Math_pow points x).
Local Abbreviation finite_value := (BinStats1d.finite_value Math_pow points x).
Local Abbreviation reducer := (BinStats1d.reducer Math_pow points x).
Local Abbreviation reduce := (BinStats1d.reduce Math_pow points x).
Local Abbreviation binOf := (Notions.binOf Math_pow points x).
Local Abbreviation assigned := (Notions.assigned Math_pow points x).
Local Abbreviation finite_valued := (Notions.finite_valued Math_pow points x).

Section Positions.

Variable n : nat.

(** Every finite-valued record has a bin position below [n]. *)
Hypothesis binOf_range :
  forall p v, finite_value p = Some v ->
              exists i, to_index (binIndex v) = Some (Z.of_nat i)
                        /\ (i < n)%nat.

Lemma reduce_spec (ps : list object) :
  forall bins,
    List.length bins = n ->
    exists bins',
      reduce ps bins = Normal bins'
      /\ List.length bins' = n
      /\ forall j, data_at bins' j = data_at bins j ++ filter (assigned j) ps.
Proof.
  induction ps as [|p ps IH]; intros bins Hlen.
  - exists bins. simpl. repeat split; auto.
    intros j. now rewrite app_nil_r.
  - simpl. unfold BinStats1d.reducer.
    destruct (finite_value p) as [v|] eqn:Ev.
    + destruct (binOf_range p v Ev) as (i & Hi & Hlt).
      destruct (push_data_spec bins (binIndex v) p i Hi) as
        (bins1 & E1 & L1 & D1); [lia|].
      rewrite E1. simpl.
      destruct (IH bins1) as (bins' & E' & L' & D'); [lia|].
      exists bins'. repeat split; auto.
      intros j. rewrite D', D1. unfold Notions.assigned at 2, Notions.binOf.
      rewrite Ev, Hi.
      destruct (Nat.eqb_spec j i) as [->|Hne].
      * rewrite Z.eqb_refl, <- app_assoc. reflexivity.
      * destruct (Z.eqb_spec (Z.of_nat i) (Z.of_nat j)); [lia|reflexivity].
    + simpl. destruct (IH bins Hlen) as (bins' & E' & L' & D').
      exists bins'. repeat split; auto.
      intros j. rewrite D'. unfold Notions.assigned at 2, Notions.binOf. now rewrite Ev.
Qed.

Lemma assigned_count (ps : list object) :
  list_sum (map (fun j => List.length (filter (assigned j) ps)) (seq 0 n))
  = List.length (filter finite_valued ps).
Proof.
  induction ps as [|p ps IH].
  - simpl. induction (seq 0 n); simpl; auto.
  - assert (E : map (fun j => List.length (filter (assigned j) (p :: ps)))
                    (seq 0 n)
               = map (fun j => ((if assigned j p then 1 else 0)
                                + List.length (filter (assigned j) ps))%nat)
                     (seq 0 n)).
    { apply map_ext. intros j. cbn [filter].
      destruct (assigned j p); reflexivity. }
    rewrite E, list_sum_map_add, IH.
    cbn [filter]. unfold Notions.finite_valued at 2.
    unfold Notions.assigned, Notions.binOf.
    destruct (finite_value p) as [v|] eqn:Ev.
    + destruct (binOf_range p v Ev) as (i & Hi & Hlt). rewrite Hi.
      replace (map (fun j => if (Z.of_nat i =? Z.of_nat j)%Z then 1 else 0)
                   (seq 0 n))%nat
        with (map (fun j => if (i =? j)%nat then 1 else 0) (seq 0 n))%nat.
      * rewrite sum_indicator.
        destruct (Nat.leb_spec 0 i), (Nat.ltb_spec i (0 + n)); simpl; lia.
      * apply map_ext. intros j.
        destruct (Nat.eqb_spec i j), (Z.eqb_spec (Z.of_nat i) (Z.of_nat j));
          auto; lia.
    + replace (map (fun _ : nat => 0%nat) (seq 0 n))
        with (map (fun j => if (n =? j)%nat then 1 else 0) (seq 0 n))%nat.
      * rewrite sum_indicator.
        destruct (Nat.leb_spec 0 n), (Nat.ltb_spec n (0 + n)); simpl; lia.
      * apply map_ext_in. intros j Hj. apply in_seq in Hj.
        destruct (Nat.eqb_spec n j); [lia|reflexivity].
Qed.

End Positions.

Lemma data_at_start (r : list float) (j : nat) :
  data_at (map (fun xBin => {| xBin := xBin; data := [] |}) r) j = [].
Proof.
  unfold data_at. rewrite nth_error_map.
  destruct (nth_error r j); reflexivity.
Qed.

Lemma length_baseRange_fill (n : nat) :
  forall start step, List.length (Lodash.baseRange_fill n start step) = n.
Proof. induction n as [|n IH]; intros; simpl; auto. Qed.


End Binning.


(** On the Examples.sample, two bins: the values below 13 and the values from 13
    on, the maximum 25 among them; the record without [x] is in no
    bin. *)
Lemma sample_bins :
  BinStats1d.xBins Examples.Math_pow Examples.sample (Key "x") = 2
  /\ BinStats1d.bins Examples.Math_pow Examples.sample (Key "x")
     = Normal
         [{| xBin := 0;
             data := map (fun i => Examples.x_ (of_nat i)) (seq 0 13) |};
          {| xBin := 1;
             data := map (fun i => Examples.x_ (of_nat i)) (seq 13 13) |}].
Proof. vm_compute. split; reflexivity. Qed.

End Partition.

(** ** The last element of an array *)

Module Arrays.

Import JS.

Lemma last_snoc {A} (l : list A) (a : A) : last (l ++ [a]) = Some a.
Proof.
  unfold last. rewrite length_app. simpl.
  replace (List.length l + 1 - 1)%nat with (List.length l) by lia.
  rewrite nth_error_app2 by lia. now rewrite Nat.sub_diag.
Qed.

Lemma last_split {A} (l : list A) (a : A) :
  last l = Some a -> l = removelast l ++ [a].
Proof.
  intros H. destruct l as [|b l]; [discriminate|].
  destruct (@exists_last _ (b :: l)) as (l' & a' & E); [discriminate|].
  rewrite E in *. rewrite last_snoc in H. injection H as ->.
  now rewrite removelast_last.
Qed.

Lemma last_none {A} (l : list A) : last l = None -> l = [].
Proof.
  destruct l as [|b l]; [reflexivity|].
  destruct (@exists_last _ (b :: l)) as (l' & a' & E); [discriminate|].
  rewrite E, last_snoc. discriminate.
Qed.

Lemma last_In {A} (l : list A) (a : A) : last l = Some a -> In a l.
Proof. unfold last. apply nth_error_In. Qed.

End Arrays.

(** ** The shape of the line compression's result *)

Module PassShape.

Import JS LineSegments Notions Shape Arrays.
Local Open Scope float_scope.

Lemma flat_snoc (c : list Segment) (s : Segment) :
  flat (c ++ [s]) = flat c ++ flat [s].
Proof. unfold flat. now rewrite flat_map_app. Qed.

Lemma last_flat_point (c : list Segment) (p : SegmentPoint) :
  last c = Some (Point p) -> last (flat c) = Some p.
Proof.
  intros H. rewrite (last_split _ _ H), flat_snoc. simpl. apply last_snoc.
Qed.

Lemma last_flat_run (c : list Segment) (ps : list SegmentPoint)
      (p : SegmentPoint) :
  last c = Some (Run ps) -> last ps = Some p -> last (flat c) = Some p.
Proof.
  intros H Hp. rewrite (last_split _ _ H), flat_snoc. simpl.
  rewrite app_nil_r, (last_split _ _ Hp), app_assoc. apply last_snoc.
Qed.

(** What growing does to the flattened list. *)
Lemma grows_flat (smooth : bool) (lp new : SegmentPoint)
      (c c' : list Segment) :
  grows smooth lp new c c' ->
  flat c' = flat c ++ [new]
  \/ (flat c' = (flat c ++ [lp]) ++ [new] /\ last (flat c) = Some lp).
Proof.
  intros [c0 _|c0 _ Hl|c0 ps _ Hl Hp].
  - left. apply flat_snoc.
  - right. split; [|now apply last_flat_point].
    rewrite flat_snoc. simpl. now rewrite <- app_assoc.
  - left. rewrite (last_split _ _ Hl) at 2. rewrite !flat_snoc. simpl.
    rewrite !app_nil_r. now rewrite !app_assoc.
Qed.

Lemma adjacent_snoc {A} (l : list A) (n a b : A) :
  adjacent (l ++ [n]) a b ->
  adjacent l a b \/ (last l = Some a /\ b = n).
Proof.
  intros (l1 & l2 & E).
  destruct (@exists_last _ (a :: b :: l2)) as (m & z & Em); [discriminate|].
  rewrite Em, app_assoc in E. apply app_inj_tail in E. destruct E as [-> ->].
  destruct m as [|a' [|b' m]].
  - discriminate.
  - injection Em as -> ->. right. split; [apply last_snoc|reflexivity].
  - injection Em as -> -> ->. left. now exists l1, m.
Qed.

Section Pass.

Variable T : Type.
Variable lib : Library.
Variable ctx : CoordinateContext T.
Variable props : Props T.

Local Abbreviation reducer := (reducer lib ctx props).
Local Abbreviation reduce_from := (reduce_from lib ctx props).
Local Abbreviation compressed := (compressed lib ctx props).
Local Abbreviation projected := (Notions.projected ctx).
Local Abbreviation newPoint := (newPoint lib ctx props).
Local Abbreviation keep := (keep lib ctx props).
Local Abbreviation dissimilar :=
  (fun p => dissimilarColors lib p (colorResolution props)).

Lemma reducer_skips (c : list Segment) (p : T) (i : nat) :
  projected p = None -> reducer c p i = Normal c.
Proof.
  unfold Notions.projected, LineSegments.reducer.
  destruct (finite_number (xScale ctx p));
    destruct (finite_number (yScale ctx p)); try discriminate; auto.
Qed.

Lemma reducer_opens (p : T) (i : nat) (px py : float) :
  projected p = Some (px, py) ->
  reducer [] p i = Normal [Point (firstPoint ctx p i px py)].
Proof.
  unfold Notions.projected, LineSegments.reducer.
  destruct (finite_number (xScale ctx p));
    destruct (finite_number (yScale ctx p)); try discriminate.
  now intros [= -> ->].
Qed.

Lemma headed_last (fp : SegmentPoint) (c : list Segment) :
  headed fp c ->
  exists lp,
    lastPointOf c = Some lp
    /\ (last c = Some (Point lp)
        \/ exists ps, last c = Some (Run ps) /\ last ps = Some lp).
Proof.
  intros (rest & -> & Hrest). unfold lastPointOf.
  destruct (last (Point fp :: rest)) as [[p|ps]|] eqn:Hl.
  - exists p. auto.
  - assert (Hin : In (Run ps) (Point fp :: rest))
      by (unfold last in Hl; eapply nth_error_In; eassumption).
    destruct Hin as [Hin|Hin]; [discriminate|].
    rewrite Forall_forall in Hrest. apply Hrest in Hin. simpl in Hin.
    destruct (last ps) as [lp|] eqn:Hps.
    + exists lp. split; [reflexivity|]. right. now exists ps.
    + apply last_none in Hps. contradiction.
  - apply last_none in Hl. discriminate.
Qed.

Lemma grows_headed (smooth : bool) (fp lp new : SegmentPoint)
      (c c' : list Segment) :
  headed fp c -> grows smooth lp new c c' ->
  headed fp c' /\ lastPointOf c' = Some new.
Proof.
  intros Hc Hg.
  destruct Hg as [c _|c _ Hl|c ps _ Hl Hp];
    destruct Hc as (rest & Ec & Hrest); subst c.
  - split.
    + exists (rest ++ [Point new]). split; [reflexivity|].
      apply Forall_app. split; [assumption|].
      constructor; [exact I|constructor].
    + unfold lastPointOf. now rewrite last_snoc.
  - split.
    + exists (rest ++ [Run [lp; new]]). split; [reflexivity|].
      apply Forall_app. split; [assumption|].
      constructor; [discriminate|constructor].
    + unfold lastPointOf. now rewrite last_snoc.
  - assert (Hne : rest <> []).
    { intros ->. unfold last in Hl. simpl in Hl. discriminate. }
    assert (Hrm : removelast (Point fp :: rest)
                  = Point fp :: removelast rest).
    { destruct rest; [congruence|reflexivity]. }
    split.
    + exists (removelast rest ++ [Run (ps ++ [new])]).
      rewrite Hrm. split; [reflexivity|].
      apply Forall_app. split.
      * pose proof (last_split _ _ Hl) as E. rewrite Hrm in E.
        injection E as E. rewrite E in Hrest.
        apply Forall_app in Hrest. tauto.
      * constructor; [|constructor]. simpl. destruct ps; discriminate.
    + unfold lastPointOf. rewrite last_snoc. apply last_snoc.
Qed.

(** One step of the pass on a headed [compressed]: the point is
    dropped, or it is retained and [compressed] grows by it. *)
Lemma reducer_grows (fp : SegmentPoint) (c : list Segment) (p : T)
      (i : nat) :
  headed fp c ->
  exists lp,
    lastPointOf c = Some lp
    /\ (reducer c p i = Normal c
        \/ exists px py c',
            projected p = Some (px, py)
            /\ keep lp (newPoint lp p i px py) = true
            /\ reducer c p i = Normal c'
            /\ grows (negb (dissimilar (newPoint lp p i px py))
                      && negb (dissimilar lp))
                     lp (newPoint lp p i px py) c c').
Proof.
  intros Hc.
  destruct (headed_last _ _ Hc) as (lp & Hlp & Hlast).
  exists lp. split; [assumption|].
  destruct (projected p) as [[px py]|] eqn:Hp.
  2:{ left. now apply reducer_skips. }
  destruct Hc as (rest & -> & Hrest).
  unfold LineSegments.reducer. unfold Notions.projected in Hp.
  destruct (finite_number (xScale ctx p)) as [qx|]; [|discriminate].
  destruct (finite_number (yScale ctx p)) as [qy|]; [|discriminate].
  injection Hp as -> ->.
  change (List.length (Point fp :: rest) =? 0)%nat with false.
  cbv iota.
  set (new := newPoint lp p i px py).
  destruct Hlast as [Hl|(ps & Hl & Hps)]; rewrite Hl; cbv iota beta;
    try rewrite Hps; fold new;
    (destruct (keep lp new) eqn:Hk; [right|now left]);
    exists px, py;
    destruct (negb (dissimilar new) && negb (dissimilar lp)) eqn:Hs;
    eexists; (split; [reflexivity|]); (split; [exact Hk|]);
    (split; [reflexivity|]).
  - now apply grows_open.
  - now apply grows_point.
  - unfold push_last. now apply grows_extend.
  - now apply grows_point.
Qed.

Section Invariant.

Variable points : list T.

(** [I i c]: what holds of [compressed] once the points before
    position [i] have been read. *)
Variable I : nat -> list Segment -> Prop.

Hypothesis first :
  forall i p px py,
    nth_error points i = Some p ->
    projected p = Some (px, py) ->
    I (S i) [Point (firstPoint ctx p i px py)].

Hypothesis dropped : forall i c, I i c -> I (S i) c.

Hypothesis retained :
  forall i p px py fp lp c c',
    nth_error points i = Some p ->
    projected p = Some (px, py) ->
    headed fp c ->
    lastPointOf c = Some lp ->
    I i c ->
    keep lp (newPoint lp p i px py) = true ->
    grows (negb (dissimilar (newPoint lp p i px py))
           && negb (dissimilar lp))
          lp (newPoint lp p i px py) c c' ->
    I (S i) c'.

Lemma invariant_headed (rest : list T) :
  forall (i : nat) (c : list Segment) (fp : SegmentPoint),
    (forall j p, nth_error rest j = Some p ->
                 nth_error points (i + j) = Some p) ->
    headed fp c -> I i c ->
    exists c', reduce_from i rest c = Normal c'
               /\ (exists fp', headed fp' c')
               /\ I (i + List.length rest) c'.
Proof.
  induction rest as [|p rest IH]; intros i c fp Hnth Hc Hi.
  - exists c. simpl. rewrite Nat.add_0_r. eauto.
  - assert (Hp : nth_error points i = Some p).
    { rewrite <- (Nat.add_0_r i). now apply Hnth. }
    assert (Hnth' : forall j q, nth_error rest j = Some q ->
                                nth_error points (S i + j) = Some q).
    { intros j q Hq. replace (S i + j)%nat with (i + S j)%nat by lia.
      now apply Hnth. }
    simpl List.length. replace (i + S (List.length rest))%nat
      with (S i + List.length rest)%nat by lia.
    destruct (reducer_grows _ _ p i Hc)
      as (lp & Hlp & [E|(px & py & c1 & Hpr & Hk & E & Hg)]).
    + simpl. rewrite E. simpl.
      apply (IH (S i) c fp); [assumption|assumption|now apply dropped].
    + simpl. rewrite E. simpl.
      destruct (grows_headed _ _ _ _ _ _ Hc Hg) as [Hc1 _].
      apply (IH (S i) c1 fp); [assumption|assumption|].
      exact (retained _ _ _ _ _ _ _ _ Hp Hpr Hc Hlp Hi Hk Hg).
Qed.

Lemma invariant_from (rest : list T) :
  forall (i : nat),
    (forall j p, nth_error rest j = Some p ->
                 nth_error points (i + j) = Some p) ->
    exists c', reduce_from i rest [] = Normal c'
               /\ ((c' = [] /\ forall q, In q rest -> projected q = None)
                   \/ ((exists fp, headed fp c')
                       /\ I (i + List.length rest) c')).
Proof.
  induction rest as [|p rest IH]; intros i Hnth.
  - exists []. simpl. split; [reflexivity|]. left. split; [reflexivity|].
    intros q [].
  - assert (Hp : nth_error points i = Some p).
    { rewrite <- (Nat.add_0_r i). now apply Hnth. }
    assert (Hnth' : forall j q, nth_error rest j = Some q ->
                                nth_error points (S i + j) = Some q).
    { intros j q Hq. replace (S i + j)%nat with (i + S j)%nat by lia.
      now apply Hnth. }
    simpl List.length. replace (i + S (List.length rest))%nat
      with (S i + List.length rest)%nat by lia.
    destruct (projected p) as [[px py]|] eqn:Hpr.
    + simpl. rewrite (reducer_opens _ i _ _ Hpr). simpl.
      set (fp := firstPoint ctx p i px py).
      destruct (invariant_headed rest (S i) [Point fp] fp)
        as (c' & E & Hh & Hi); auto.
      { exists []. auto. }
      { apply first; assumption. }
      exists c'. split; [assumption|]. right. auto.
    + simpl. rewrite (reducer_skips _ _ _ Hpr). simpl.
      destruct (IH (S i) Hnth') as (c' & E & [[-> Hall]|Hr]).
      * exists []. split; [assumption|]. left. split; [reflexivity|].
        intros q [<-|Hq]; auto.
      * exists c'. split; [assumption|]. right. assumption.
Qed.

(** The pass completes; its result is empty when no point is
    projected, and otherwise it is headed and satisfies the
    invariant. *)
Lemma invariant :
  exists c, compressed points = Normal c
            /\ ((c = [] /\ forall q, In q points -> projected q = None)
                \/ ((exists fp, headed fp c)
                    /\ I (List.length points) c)).
Proof. apply (invariant_from points 0). auto. Qed.

End Invariant.

Lemma lastPointOf_flat (c : list Segment) (lp : SegmentPoint) :
  lastPointOf c = Some lp -> last (flat c) = Some lp.
Proof.
  unfold lastPointOf. destruct (last c) as [[p|ps]|] eqn:Hl; intros H.
  - injection H as ->. now apply last_flat_point.
  - eapply last_flat_run; eassumption.
  - discriminate.
Qed.

Lemma grows_In (smooth : bool) (lp new sp : SegmentPoint)
      (c c' : list Segment) :
  lastPointOf c = Some lp ->
  grows smooth lp new c c' ->
  In sp (flat c') -> In sp (flat c) \/ sp = new.
Proof.
  intros Hlp Hg Hin.
  destruct (grows_flat _ _ _ _ _ Hg) as [E|[E Hl]]; rewrite E in Hin.
  - apply in_app_or in Hin. destruct Hin as [H|[<-|[]]]; auto.
  - apply in_app_or in Hin. destruct Hin as [H|[<-|[]]]; auto.
    apply in_app_or in H. destruct H as [H|[<-|[]]]; auto.
    left. now apply last_In.
Qed.

Lemma grows_adjacent (smooth : bool) (lp new a b : SegmentPoint)
      (c c' : list Segment) :
  lastPointOf c = Some lp ->
  grows smooth lp new c c' ->
  adjacent (flat c') a b ->
  adjacent (flat c) a b \/ a = b \/ (a = lp /\ b = new).
Proof.
  intros Hlp Hg Hadj. apply lastPointOf_flat in Hlp.
  destruct (grows_flat _ _ _ _ _ Hg) as [E|[E Hl]]; rewrite E in Hadj;
    apply adjacent_snoc in Hadj.
  - destruct Hadj as [H|[H ->]]; auto.
    rewrite Hlp in H. injection H as ->. auto.
  - destruct Hadj as [H|[H ->]].
    + apply adjacent_snoc in H. destruct H as [H|[H ->]]; auto.
      rewrite Hlp in H. injection H as ->. auto.
    + rewrite last_snoc in H. injection H as ->. auto.
Qed.

Lemma keep_spaced (lp new : SegmentPoint) :
  keep lp new = true -> geb (distance new) (strokeWidth props) = true.
Proof.
  unfold LineSegments.keep. intros H. apply andb_true_iff in H. tauto.
Qed.

(** X1: the pass never fails, and its result is empty exactly when no
    input point has both projected coordinates finite. *)
Theorem pass_completes (points : list T) :
  exists c,
    compressed points = Normal c
    /\ (c = [] <-> forall q, In q points -> projected q = None).
Proof.
  destruct (invariant points
              (fun _ _ => exists q, In q points /\ projected q <> None))
    as (c & E & [[-> Hall]|[(fp & rest & -> & _) (q & Hq & Hne)]]).
  - intros i p px py Hp Hpr. exists p. split.
    + eapply nth_error_In; eassumption.
    + rewrite Hpr. discriminate.
  - auto.
  - auto.
  - exists []. split; [assumption|]. tauto.
  - exists (Point fp :: rest). split; [assumption|]. split.
    + discriminate.
    + intros Hall. elim Hne. now apply Hall.
Qed.

(** X2: every run of the result holds at least two points, comes
    directly after a point that stands on its own, and starts with that
    very point. *)
Theorem runs_continue_from_a_point (points : list T) :
  exists c,
    compressed points = Normal c
    /\ forall j ps,
        nth_error c j = Some (Run ps) ->
        exists j' p,
          j = S j' /\ nth_error c j' = Some (Point p)
          /\ nth_error ps 0 = Some p /\ (2 <= List.length ps)%nat.
Proof.
  destruct (invariant points
              (fun _ c =>
                 forall j ps,
                   nth_error c j = Some (Run ps) ->
                   exists j' p,
                     j = S j' /\ nth_error c j' = Some (Point p)
                     /\ nth_error ps 0 = Some p
                     /\ (2 <= List.length ps)%nat))
    as (c & E & [[-> _]|[_ H]]).
  - intros i p px py _ _ [|[|j]] ps Hj; discriminate.
  - auto.
  - intros i p px py fp lp c c' _ _ _ _ IH _ Hg j ps Hj.
    destruct Hg as [c _|c _ Hl|c qs _ Hl Hq].
    + destruct (Nat.lt_ge_cases j (List.length c)) as [Hlt|Hge].
      * rewrite nth_error_app1 in Hj by assumption.
        destruct (IH j ps Hj) as (j' & q & -> & Hq & H0 & H2).
        exists j', q. rewrite nth_error_app1 by lia. auto.
      * rewrite nth_error_app2 in Hj by assumption.
        destruct (j - List.length c)%nat as [|[|k]]; discriminate.
    + destruct (Nat.lt_ge_cases j (List.length c)) as [Hlt|Hge].
      * rewrite nth_error_app1 in Hj by assumption.
        destruct (IH j ps Hj) as (j' & q & -> & Hq & H0 & H2).
        exists j', q. rewrite nth_error_app1 by lia. auto.
      * rewrite nth_error_app2 in Hj by assumption.
        destruct (j - List.length c)%nat as [|[|k]] eqn:Ej;
          try discriminate.
        injection Hj as <-.
        assert (Hc : c <> []) by (intros ->; discriminate).
        exists (List.length c - 1)%nat, lp.
        repeat split; auto.
        -- destruct c; [congruence|simpl in *; lia].
        -- rewrite nth_error_app1
             by (destruct c; [congruence|simpl; lia]).
           exact Hl.
    + pose proof (last_split _ _ Hl) as Ec.
      assert (Hlen : List.length c
                     = S (List.length (removelast c))).
      { rewrite Ec at 1. rewrite length_app. simpl. lia. }
      assert (Hrun : nth_error c (List.length (removelast c))
                     = Some (Run qs)).
      { rewrite Ec at 1. rewrite nth_error_app2 by lia.
        now rewrite Nat.sub_diag. }
      destruct (Nat.lt_ge_cases j (List.length (removelast c)))
        as [Hlt|Hge].
      * rewrite nth_error_app1 in Hj by assumption.
        assert (Hj' : nth_error c j = Some (Run ps)).
        { rewrite Ec. now rewrite nth_error_app1. }
        destruct (IH j ps Hj') as (j' & q & -> & Hq' & H0 & H2).
        exists j', q. rewrite nth_error_app1 by lia.
        rewrite Ec in Hq'. rewrite nth_error_app1 in Hq' by lia. auto.
      * rewrite nth_error_app2 in Hj by assumption.
        destruct (j - List.length (removelast c))%nat as [|[|k]] eqn:Ej;
          try discriminate.
        injection Hj as <-.
        destruct (IH _ qs Hrun) as (j' & q & Ej' & Hq' & H0 & H2).
        exists j', q. repeat split.
        -- lia.
        -- rewrite nth_error_app1 by lia.
           rewrite Ec in Hq'. rewrite nth_error_app1 in Hq' by lia. auto.
        -- destruct qs; [discriminate|exact H0].
        -- rewrite length_app. simpl. lia.
  - exists []. split; [assumption|]. intros [|j] ps Hj; discriminate.
  - exists c. auto.
Qed.

(** X3: two consecutive retained points are distinct input points in
    input order; the later one starts with the colour the earlier one
    ends with, its distance is the one to the earlier point, and that
    distance is at least the stroke width.  (A point that opens a run
    is listed twice in the flattened result.) *)
Theorem consecutive_retained_points (points : list T) :
  exists c,
    compressed points = Normal c
    /\ forall a b,
        adjacent (flat c) a b ->
        a = b
        \/ ((index a < index b)%nat
            /\ color1 b = color2 a
            /\ distance b
               = sqrt (Math_pow lib (x b - x a) 2
                       + Math_pow lib (y b - y a) 2)
            /\ geb (distance b) (strokeWidth props) = true).
Proof.
  destruct (invariant points
              (fun i c =>
                 (forall sp, In sp (flat c) -> (index sp < i)%nat)
                 /\ forall a b,
                     adjacent (flat c) a b ->
                     a = b
                     \/ ((index a < index b)%nat
                         /\ color1 b = color2 a
                         /\ distance b
                            = sqrt (Math_pow lib (x b - x a) 2
                                    + Math_pow lib (y b - y a) 2)
                         /\ geb (distance b) (strokeWidth props) = true)))
    as (c & E & [[-> _]|[_ [_ H]]]).
  - intros i p px py _ _. split.
    + intros sp [<-|[]]. simpl. lia.
    + intros a b (l1 & l2 & E). simpl in E.
      destruct l1 as [|? [|? ?]]; discriminate.
  - intros i c [Hidx Hadj]. split; [|assumption].
    intros sp Hsp. apply Hidx in Hsp. lia.
  - intros i p px py fp lp c c' _ _ _ Hlp [Hidx Hadj] Hk Hg. split.
    + intros sp Hsp.
      destruct (grows_In _ _ _ sp _ _ Hlp Hg Hsp) as [H| ->].
      * apply Hidx in H. lia.
      * simpl. lia.
    + intros a b Hab.
      destruct (grows_adjacent _ _ _ a b _ _ Hlp Hg Hab) as [H|[H|[-> ->]]]; auto.
      right. repeat split.
      * simpl. apply Hidx. apply last_In. now apply lastPointOf_flat.
      * exact (keep_spaced lp _ Hk).
  - exists []. split; [assumption|].
    intros a b (l1 & l2 & E'). simpl in E'.
    destruct l1; discriminate.
  - exists c. auto.
Qed.

(** X4: every retained point is an input point: its index is a
    position of the input, its coordinates are the finite projected
    coordinates of the point there, and its second colour is that
    point's colour. *)
Theorem retained_points_are_input_points (points : list T) :
  exists c,
    compressed points = Normal c
    /\ forall sp,
        In sp (flat c) ->
        exists p,
          nth_error points (index sp) = Some p
          /\ projected p = Some (x sp, y sp)
          /\ color2 sp = color ctx p.
Proof.
  destruct (invariant points
              (fun _ c =>
                 forall sp,
                   In sp (flat c) ->
                   exists p,
                     nth_error points (index sp) = Some p
                     /\ projected p = Some (x sp, y sp)
                     /\ color2 sp = color ctx p))
    as (c & E & [[-> _]|[_ H]]).
  - intros i p px py Hp Hpr sp [<-|[]]. exists p. auto.
  - auto.
  - intros i p px py fp lp c c' Hp Hpr _ Hlp IH _ Hg sp Hsp.
    destruct (grows_In _ _ _ sp _ _ Hlp Hg Hsp) as [H| ->]; auto.
    exists p. auto.
  - exists []. split; [assumption|]. intros sp [].
  - exists c. auto.
Qed.

(** X5: when all input points have the same colour, the result is
    empty, or the first retained point followed by at most one run: the
    line is drawn as a single path and no gradient is defined. *)
Theorem one_colour_one_path (points : list T) :
  (forall p q, In p points -> In q points -> color ctx p = color ctx q) ->
  exists c,
    compressed points = Normal c
    /\ (c = []
        \/ exists fp, c = [Point fp] \/ exists ps, c = [Point fp; Run ps])
    /\ Gradients.gradients c = [].
Proof.
  intros Hcol.
  destruct (invariant points
              (fun _ c =>
                 (forall sp, In sp (flat c) ->
                             color1 sp = color2 sp
                             /\ exists p, In p points
                                          /\ color2 sp = color ctx p)
                 /\ exists fp,
                     c = [Point fp] \/ exists ps, c = [Point fp; Run ps]))
    as (c & E & [[-> _]|[_ [Hc (fp & Hs)]]]).
  - intros i p px py Hp _. split.
    + intros sp [<-|[]]. split; [reflexivity|]. exists p. split; auto.
      eapply nth_error_In; eassumption.
    + eexists. left. reflexivity.
  - auto.
  - intros i p px py fp lp c c' Hp _ _ Hlp [Hc (fp' & Hs)] _ Hg.
    assert (Hin : In lp (flat c))
      by (apply last_In; now apply lastPointOf_flat).
    destruct (Hc lp Hin) as (Hlp12 & q & Hq & Hlpq).
    assert (Hp' : In p points) by (eapply nth_error_In; eassumption).
    set (new := newPoint lp p i px py) in *.
    assert (Hnew : color1 new = color2 new).
    { simpl. rewrite Hlpq. now apply Hcol. }
    assert (Hd : forall sp, color1 sp = color2 sp ->
                            dissimilar sp = false).
    { intros sp H. unfold dissimilarColors. rewrite H.
      now rewrite String.eqb_refl. }
    rewrite (Hd new Hnew), (Hd lp Hlp12) in Hg. simpl in Hg. split.
    + intros sp Hsp.
      destruct (grows_In _ _ _ sp _ _ Hlp Hg Hsp) as [H| ->]; auto.
      split; [assumption|]. exists p. auto.
    + exists fp'.
      destruct Hg as [c Hf|c _ Hl|c ps _ Hl Hps]; [discriminate| |].
      * destruct Hs as [->|(ps & ->)]; [|discriminate].
        right. injection Hl as <-. eexists. reflexivity.
      * destruct Hs as [->|(qs & ->)]; [discriminate|].
        right. eexists. reflexivity.
  - exists []. auto.
  - exists c. split; [assumption|]. split; [right; eauto|].
    assert (Hfp : color1 fp = color2 fp).
    { apply Hc. destruct Hs as [->|(ps & ->)]; simpl; auto. }
    unfold Gradients.gradients.
    destruct Hs as [->|(ps & ->)]; simpl; rewrite Hfp;
      now rewrite String.eqb_refl.
Qed.

End Pass.

Lemma one_colour_one_path_witness :
  exists c,
    compressed Examples.lib Examples.ctx (Examples.props 0 5)
               [(0, 0); (10, 0); (20, 5)] = Normal c
    /\ (c = []
        \/ exists fp, c = [Point fp] \/ exists ps, c = [Point fp; Run ps])
    /\ Gradients.gradients c = [].
Proof.
  apply (one_colour_one_path _ Examples.lib Examples.ctx
           (Examples.props 0 5) [(0, 0); (10, 0); (20, 5)]).
  intros p q _ _. reflexivity.
Defined.

End PassShape.

(** ** Gradients *)

Module GradientsFacts.

Import JS LineSegments Gradients.

Lemma seen_spec (n : string) (seen : list string) :
  existsb (String.eqb n) seen = true <-> In n seen.
Proof.
  rewrite existsb_exists. split.
  - intros (m & Hm & E). apply String.eqb_eq in E. now subst.
  - intros H. exists n. split; [assumption|apply String.eqb_refl].
Qed.

Lemma uniqBy_name_spec (l : list Gradient) :
  forall seen,
    NoDup (map name (uniqBy_name seen l))
    /\ (forall g, In g (uniqBy_name seen l) ->
                  In g l /\ ~ In (name g) seen)
    /\ (forall g, In g l ->
                  In (name g) seen
                  \/ In (name g) (map name (uniqBy_name seen l))).
Proof.
  induction l as [|g l IH]; intros seen; simpl.
  - split; [apply NoDup_nil|split; intros g []].
  - destruct (existsb (String.eqb (name g)) seen) eqn:Hs.
    + apply seen_spec in Hs.
      destruct (IH seen) as (Hn & Hsub & Hall).
      repeat split; auto.
      * right. now apply Hsub.
      * now apply Hsub.
      * intros h [<-|Hh]; auto.
    + assert (Hs' : ~ In (name g) seen).
      { intros H. apply seen_spec in H. congruence. }
      destruct (IH (name g :: seen)) as (Hn & Hsub & Hall).
      repeat split.
      * simpl. constructor; [|assumption].
        intros H. apply in_map_iff in H. destruct H as (h & Eh & Hh).
        apply Hsub in Hh. destruct Hh as [_ Hh]. apply Hh.
        left. auto.
      * destruct H as [<-|H]; [auto|]. right. now apply Hsub.
      * destruct H as [<-|H]; [assumption|].
        apply Hsub in H. destruct H as [_ H]. intros H'. apply H.
        now right.
      * intros h [<-|Hh]; [right; simpl; auto|].
        destruct (Hall h Hh) as [[E|H]|H].
        -- right. simpl. auto.
        -- auto.
        -- right. simpl. auto.
Qed.

Lemma standalone_In (c : list Segment) (p : SegmentPoint) :
  In (Point p) c <-> In p (standalone c).
Proof.
  unfold standalone. rewrite in_flat_map. split.
  - intros H. exists (Point p). simpl. auto.
  - intros ([q|ps] & H & Hq); simpl in Hq.
    + destruct Hq as [<-|[]]. assumption.
    + destruct Hq.
Qed.

(** X6: the gradients defined for a result have distinct names and
    two different colours each, and the fill of every point standing on
    its own is either its plain colour or a reference to one of the
    defined gradients. *)
Theorem fills_refer_to_defined_gradients (c : list Segment) :
  NoDup (map name (gradients c))
  /\ (forall g, In g (gradients c) -> g_color1 g <> g_color2 g)
  /\ forall p,
      In (Point p) c ->
      fill p = color1 p
      \/ exists g, In g (gradients c)
                   /\ fill p = ("url(#" ++ name g ++ ")")%string.
Proof.
  unfold gradients.
  set (l := filter _ _).
  destruct (uniqBy_name_spec l []) as (Hn & Hsub & Hall).
  repeat split.
  - assumption.
  - intros g Hg. apply Hsub in Hg. destruct Hg as [Hg _].
    apply filter_In in Hg. destruct Hg as [_ Hg].
    apply negb_true_iff, String.eqb_neq in Hg. assumption.
  - intros p Hp. unfold fill.
    destruct (String.eqb (color1 p) (color2 p)) eqn:Ec; [now left|].
    right.
    set (g := {| name := gradientName p; g_color1 := color1 p;
                 g_color2 := color2 p |}).
    assert (Hg : In g l).
    { apply filter_In. split.
      - apply in_map_iff. exists p. split; [reflexivity|].
        now apply standalone_In.
      - simpl. now rewrite Ec. }
    destruct (Hall g Hg) as [[]|H].
    apply in_map_iff in H. destruct H as (h & Eh & Hh).
    exists h. split; [assumption|]. now rewrite Eh.
Qed.

End GradientsFacts.

(** ** Summary statistics *)

Module Summary.

Import JS Common.
Local Open Scope float_scope.

Lemma length_sort_insert (cmp : float -> float -> float) (v : float)
      (l : list float) :
  List.length (sort_insert cmp v l) = S (List.length l).
Proof.
  induction l as [|h t IH]; simpl; [reflexivity|].
  destruct (cmp v h <? 0); simpl; auto.
Qed.

Lemma length_sort_from (cmp : float -> float -> float) (l : list float) :
  forall acc,
    List.length (fold_left (fun acc v => sort_insert cmp v acc) l acc)
    = (List.length l + List.length acc)%nat.
Proof.
  induction l as [|v l IH]; intros acc; simpl; [reflexivity|].
  rewrite IH, length_sort_insert. lia.
Qed.

Lemma length_sort (cmp : float -> float -> float) (l : list float) :
  List.length (sort cmp l) = List.length l.
Proof. unfold sort. rewrite length_sort_from. simpl. lia. Qed.

Section WithMath.

Variable Math_pow : float -> float -> float.

(** X7: the statistics count every record once: [count] is the number
    of records whose value is a finite number and [naCount] the number
    of all others. *)
Theorem counts_add_up (arr : list object) (attr : TypedAccessor) :
  count (attrStats Math_pow arr attr)
  = List.length
      (filter (fun d => Number_isFinite (attributeNumber d attr)) arr)
  /\ (count (attrStats Math_pow arr attr)
      + naCount (attrStats Math_pow arr attr))%nat
     = List.length arr.
Proof.
  assert (E : List.length
                (filter Number_isFinite
                        (map (fun d => attributeNumber d attr) arr))
              = List.length
                  (filter (fun d => Number_isFinite (attributeNumber d attr))
                          arr)).
  { induction arr as [|d arr IH]; simpl; [reflexivity|].
    destruct (Number_isFinite (attributeNumber d attr)); simpl; auto. }
  unfold attrStats. cbn [count naCount]. rewrite length_sort, E.
  split; [reflexivity|].
  pose proof (filter_length_le
                (fun d => Number_isFinite (attributeNumber d attr)) arr).
  lia.
Qed.

(** X8: when no record has a finite value, all of them are counted as
    missing, [min], [max], [range] and [sum] are 0, and the mean, the
    variance, the standard deviation and the median are absent. *)
Theorem no_finite_value (arr : list object) (attr : TypedAccessor) :
  (forall d, In d arr -> Number_isFinite (attributeNumber d attr) = false) ->
  attrStats Math_pow arr attr
  = {| count := 0; naCount := List.length arr;
       min := 0; max := 0; range := 0; sum := 0;
       mean := None; variance := None; stdev := None; median := None |}.
Proof.
  intros H.
  assert (E : filter Number_isFinite
                     (map (fun d => attributeNumber d attr) arr) = []).
  { induction arr as [|d arr IH]; simpl; [reflexivity|].
    rewrite (H d) by (simpl; auto). apply IH.
    intros; apply H; simpl; auto. }
  unfold attrStats. rewrite E. cbn.
  rewrite Nat.sub_0_r. reflexivity.
Qed.

End WithMath.

Lemma no_finite_value_witness :
  attrStats Examples.Math_pow
            [[("a", VString "x")]; []; [("a", VNumber nan)]]%string
            (Key "a")
  = {| count := 0; naCount := 3;
       min := 0; max := 0; range := 0; sum := 0;
       mean := None; variance := None; stdev := None; median := None |}.
Proof.
  apply (@no_finite_value Examples.Math_pow
           [[("a", VString "x")]; []; [("a", VNumber nan)]]%string
           (Key "a")).
  intros d [H|[H|[H|[]]]]; subst d; reflexivity.
Defined.

End Summary.

(** ** The sigma filter *)

Module Filtering.

Import JS Common SigmaFilter.
Local Open Scope float_scope.

Lemma nan_is_rejected (n m s t : float) :
  (n =? n) = false -> (abs (n - m) / s <=? t) = false.
Proof.
  intros H.
  assert (E : Prim2SF n = S754_nan).
  { rewrite FloatAxioms.eqb_spec in H.
    destruct (Prim2SF n) as [z|z| |z k e] eqn:En;
      [destruct z; discriminate|destruct z; discriminate|reflexivity|].
    rewrite Binary64.SFeqb_refl_finite in H by exact I. discriminate. }
  rewrite leb_spec, div_spec, abs_spec, sub_spec, E.
  destruct (Prim2SF m) as [[]|[]| |[] ? ?]; reflexivity.
Qed.

Section WithMath.

Variable Math_pow : float -> float -> float.

(** X9: the sigma filter keeps records of the input only, each holding
    a number that is not NaN; and it keeps a record only when the data
    has at least two finite values, so that a standard deviation
    exists. *)
Theorem sigmaFilter_keeps_numbers (data : list object)
        (attribute : TypedAccessor) (threshold : float) (d : object) :
  In d (sigmaFilter Math_pow data attribute threshold) ->
  In d data
  /\ (2 <= count (attrStats Math_pow data attribute))%nat
  /\ exists n, attributeValue d attribute = VNumber n /\ (n =? n) = true.
Proof.
  unfold sigmaFilter. intros H. apply filter_In in H.
  destruct H as [Hd Hw]. split; [assumption|].
  unfold within in Hw.
  destruct (attributeValue d attribute) as [| | |n|]; try discriminate.
  destruct (stdev (attrStats Math_pow data attribute)) as [s|] eqn:Es;
    [|discriminate].
  destruct (mean (attrStats Math_pow data attribute)) as [m|] eqn:Em;
    [|discriminate].
  split.
  - unfold attrStats in Es |- *. cbn [stdev count] in *.
    destruct (List.length _) as [|[|k]]; [discriminate|discriminate|lia].
  - exists n. split; [reflexivity|].
    destruct (n =? n) eqn:En; [reflexivity|].
    now rewrite (nan_is_rejected n m s threshold En) in Hw.
Qed.

End WithMath.

Lemma sigmaFilter_keeps_numbers_witness :
  In [("v", VNumber 2)]%string
     [[("v", VNumber 1)]; [("v", VNumber 2)]; [("v", VNumber 3)];
      [("v", VNumber nan)]]%string
  /\ (2 <= count (attrStats Examples.Math_pow
                            [[("v", VNumber 1)]; [("v", VNumber 2)];
                             [("v", VNumber 3)]; [("v", VNumber nan)]]%string
                            (Key "v")))%nat
  /\ exists n, attributeValue [("v", VNumber 2)]%string (Key "v")
               = VNumber n /\ (n =? n) = true.
Proof.
  apply (@sigmaFilter_keeps_numbers Examples.Math_pow
           [[("v", VNumber 1)]; [("v", VNumber 2)]; [("v", VNumber 3)];
            [("v", VNumber nan)]]%string
           (Key "v") 1 [("v", VNumber 2)]%string).
  vm_compute. right. left. reflexivity.
Defined.

End Filtering.

(** ** Splitting data into sections *)

Module Sections.

Import JS Common SplitData Arrays.

Section Split.

Variable on : TypedAccessor.

Local Abbreviation opens := (fun p => truthy_value (attributeValue p on)).

(** The two outcomes of [reducer]. *)
Lemma reducer_cases (sections : list (list object)) (point : object) :
  (reducer on sections point = sections ++ [[point]]
   /\ (opens point = true \/ sections = []))
  \/ exists front lastSection,
      sections = front ++ [lastSection]
      /\ opens point = false
      /\ reducer on sections point = front ++ [lastSection ++ [point]].
Proof.
  unfold reducer. destruct (opens point) eqn:Ho; [left; auto|].
  destruct (last sections) as [s|] eqn:Hl.
  - right. exists (removelast sections), s.
    split; [now apply last_split|]. auto.
  - left. split; [reflexivity|]. right.
    destruct sections as [|b l]; [reflexivity|].
    destruct (@exists_last _ (b :: l)) as (l' & a' & E); [discriminate|].
    rewrite E, last_snoc in Hl. discriminate.
Qed.

Lemma concat_snoc {A} (l : list (list A)) (s : list A) :
  List.concat (l ++ [s]) = List.concat l ++ s.
Proof. rewrite concat_app. simpl. now rewrite app_nil_r. Qed.

Lemma concat_fold (allData : list object) :
  forall sections,
    List.concat (fold_left (reducer on) allData sections)
    = List.concat sections ++ allData.
Proof.
  induction allData as [|p allData IH]; intros sections; simpl.
  - now rewrite app_nil_r.
  - rewrite IH.
    destruct (reducer_cases sections p)
      as [[-> _]|(front & s & -> & _ & ->)].
    + rewrite concat_snoc, <- app_assoc. reflexivity.
    + rewrite !concat_snoc, <- !app_assoc. reflexivity.
Qed.

(** X10: the sections, one after the other, are the input in its
    order: no record is lost, repeated or moved. *)
Theorem sections_concatenate_to_input (allData : list object) :
  List.concat (split on allData) = allData.
Proof. unfold split. now rewrite concat_fold. Qed.

(** A section that starts where it may and holds no other record that
    opens a section. *)
Local Abbreviation well_cut :=
  (fun (sections : list (list object)) =>
     forall j s,
       nth_error sections j = Some s ->
       exists h t,
         s = h :: t
         /\ (j = 0%nat \/ opens h = true)
         /\ Forall (fun p => opens p = false) t).

Lemma well_cut_fold (allData : list object) :
  forall sections,
    well_cut sections -> well_cut (fold_left (reducer on) allData sections).
Proof.
  induction allData as [|p allData IH]; intros sections Hs; simpl;
    [assumption|].
  apply IH. intros j s Hj.
  destruct (reducer_cases sections p)
    as [[E Ho]|(front & ls & -> & Ho & E)]; rewrite E in Hj.
  - destruct (Nat.lt_ge_cases j (List.length sections)) as [Hlt|Hge].
    + rewrite nth_error_app1 in Hj by assumption. now apply Hs.
    + rewrite nth_error_app2 in Hj by assumption.
      destruct (j - List.length sections)%nat as [|k] eqn:Ej.
      * injection Hj as <-. exists p, []. repeat split; auto.
        destruct Ho as [Ho| ->]; [now right|].
        left. simpl in *. lia.
      * destruct k; discriminate.
  - destruct (Nat.lt_ge_cases j (List.length front)) as [Hlt|Hge].
    + rewrite nth_error_app1 in Hj by assumption. apply Hs.
      now rewrite nth_error_app1.
    + rewrite nth_error_app2 in Hj by assumption.
      destruct (j - List.length front)%nat as [|k] eqn:Ej.
      * injection Hj as <-.
        destruct (Hs j ls) as (h & t & -> & Hh & Ht).
        { rewrite nth_error_app2 by assumption. now rewrite Ej. }
        exists h, (t ++ [p]). repeat split; auto.
        apply Forall_app. split; [assumption|]. constructor; auto.
      * destruct k; discriminate.
Qed.

(** X11: no section is empty; every section but the first starts with
    a record for which the accessor is truthy, and no section holds
    such a record after its first one. *)
Theorem sections_start_at_truthy_points (allData : list object) :
  forall j s,
    nth_error (split on allData) j = Some s ->
    exists h t,
      s = h :: t
      /\ (j = 0%nat \/ truthy_value (attributeValue h on) = true)
      /\ Forall (fun p => truthy_value (attributeValue p on) = false) t.
Proof.
  unfold split. apply well_cut_fold.
  intros [|j] s H; discriminate.
Qed.

End Split.

Lemma sections_start_at_truthy_points_witness :
  exists h t,
    [[("new", VBoolean true)]; [("new", VBoolean false)]]%string = h :: t
    /\ (1%nat = 0%nat
        \/ truthy_value (attributeValue h (Key "new")) = true)
    /\ Forall (fun p => truthy_value (attributeValue p (Key "new")) = false)
              t.
Proof.
  apply (@sections_start_at_truthy_points (Key "new")
           [[("new", VBoolean false)]; [("new", VBoolean true)];
            [("new", VBoolean false)]]%string 1).
  reflexivity.
Defined.

End Sections.

(** ** Binning data without a range *)

Module Collapse.

Import JS Lodash Common.
Local Open Scope float_scope.

(** A zero or NaN. *)
Local Abbreviation collapsed :=
  (fun f : float => f = zero \/ f = neg_zero \/ f = nan).

Lemma of_spec (f : float) (s : spec_float) :
  Prim2SF f = s -> f = SF2Prim s.
Proof. intros <-. now rewrite SF2Prim_Prim2SF. Qed.

Lemma SFcompare_Eq (s1 s2 : bool) (m1 m2 : positive) (e1 e2 : Z) :
  SFcompare (S754_finite s1 m1 e1) (S754_finite s2 m2 e2) = Some Eq ->
  s1 = s2 /\ m1 = m2 /\ e1 = e2.
Proof.
  simpl. destruct s1, s2; try discriminate;
    destruct (Z.compare e1 e2) eqn:Ee; try discriminate;
    intros [= H]; apply Z.compare_eq in Ee.
  - apply CompOpp_iff in H. simpl in H.
    apply Pos.compare_eq in H. auto.
  - apply Pos.compare_eq in H. auto.
Qed.

Lemma SFsub_diag (s : bool) (m : positive) (e : Z) :
  SFsub prec emax (S754_finite s m e) (S754_finite s m e)
  = S754_zero false.
Proof. unfold SFsub. cbv zeta. now rewrite Z.sub_diag. Qed.

(** The difference of two equal numbers is a zero, or NaN for two
    infinities. *)
Lemma sub_collapsed (a b : float) :
  (a =? b) = true -> collapsed (a - b).
Proof.
  rewrite FloatAxioms.eqb_spec. intros H.
  pose proof (sub_spec a b) as E. unfold SF64sub in E. unfold SFeqb in H.
  destruct (Prim2SF a) as [[]|[]| |[] ma ea];
    destruct (Prim2SF b) as [[]|[]| |[] mb eb];
    try (simpl in H; discriminate);
    lazymatch type of E with
    | _ = SFsub _ _ (S754_finite _ _ _) (S754_finite _ _ _) =>
        destruct (SFcompare _ _) as [[]|] eqn:Ec; try discriminate;
        apply SFcompare_Eq in Ec; destruct Ec as (_ & -> & ->);
        rewrite SFsub_diag in E; apply of_spec in E; auto
    | _ => apply of_spec in E; vm_compute in E; auto
    end.
Qed.

Lemma div_collapsed (r w : float) : collapsed r -> collapsed (r / w).
Proof.
  intros H. pose proof (div_spec r w) as E.
  destruct H as [-> |[-> | ->]];
    destruct (Prim2SF w) as [[]|[]| |[] m e]; apply of_spec in E;
    vm_compute in E; auto.
Qed.

Lemma floor_collapsed (r : float) : collapsed r -> collapsed (Math_floor r).
Proof. intros [-> |[-> | ->]]; vm_compute; auto. Qed.

Lemma range0_collapsed (r : float) : collapsed r -> range0 r = Normal [].
Proof. intros [-> |[-> | ->]]; reflexivity. Qed.

Lemma times_collapsed {A} (r : float) (f : float -> A) :
  collapsed r -> times r f = [].
Proof. intros [-> |[-> | ->]]; reflexivity. Qed.

Lemma at_number_nil {A} (n : float) : at_number (@nil A) n = None.
Proof.
  unfold at_number. destruct (to_index n) as [i|]; [|reflexivity].
  destruct (i <? _)%Z; [|reflexivity]. now destruct (Z.to_nat i).
Qed.

Section OneDimension.

Import BinStats1d.

Variable Math_pow : float -> float -> float.
Variable points : list object.
Variable x : TypedAccessor.

Local Abbreviation xStats := (stats (xStatScale Math_pow points x)).

Hypothesis extremes : (max xStats =? min xStats) = true.

Lemma xBins_collapsed : collapsed (xBins Math_pow points x).
Proof.
  unfold xBins. apply floor_collapsed, div_collapsed.
  change (range xStats) with (max xStats - min xStats).
  now apply sub_collapsed.
Qed.

Lemma finite_value_zero (p : object) :
  finite_value Math_pow points x p = Some 0.
Proof.
  unfold finite_value, xStatScale, attrScale. cbn [call].
  unfold scaleTo. unfold xStatScale, attrScale in extremes.
  cbn [stats] in extremes. rewrite extremes. reflexivity.
Qed.

Lemma reduce_nil (ps : list object) :
  reduce Math_pow points x ps []
  = match ps with
    | [] => Normal []
    | _ :: _ => Throw TypeError
    end.
Proof.
  destruct ps as [|p ps]; [reflexivity|]. simpl.
  unfold reducer. rewrite finite_value_zero.
  unfold push_data. now rewrite at_number_nil.
Qed.

(** X12: when the largest and the smallest finite x value coincide (or
    there is none), no bin is seeded; one-dimensional binning then
    returns no bins for empty input and raises a TypeError for any
    other input. *)
Theorem bins1d_without_range :
  start Math_pow points x = Normal []
  /\ bins Math_pow points x
     = match points with
       | [] => Normal []
       | _ :: _ => Throw TypeError
       end.
Proof.
  assert (E : start Math_pow points x = Normal []).
  { unfold start. now rewrite (range0_collapsed _ xBins_collapsed). }
  split; [exact E|].
  unfold bins. rewrite E. simpl. apply reduce_nil.
Qed.

End OneDimension.

Lemma bins1d_without_range_witness :
  BinStats1d.start Examples.Math_pow
                   [Examples.x_ 5; []; Examples.x_ 5] (Key "x") = Normal []
  /\ BinStats1d.bins Examples.Math_pow
                     [Examples.x_ 5; []; Examples.x_ 5] (Key "x")
     = Throw TypeError.
Proof.
  apply (bins1d_without_range Examples.Math_pow
           [Examples.x_ 5; []; Examples.x_ 5] (Key "x")).
  reflexivity.
Defined.

Section TwoDimensions.

Import BinStats2d.

Variable Math_pow : float -> float -> float.
Variable points : list object.
Variables x y : TypedAccessor.

Local Abbreviation xStats := (stats (xStatScale Math_pow points x)).
Local Abbreviation yStats := (stats (yStatScale Math_pow points y)).

(** A record whose normalized x and y values are both finite. *)
Local Abbreviation binned :=
  (fun p =>
     match finite_value (xStatScale Math_pow points x) p,
           finite_value (yStatScale Math_pow points y) p with
     | Some _, Some _ => true
     | _, _ => false
     end).

Lemma times_map (n : float) :
  exists l, forall A (f : float -> A), times n f = map f l.
Proof.
  unfold times.
  destruct ((toInteger n <? 1) || (MAX_SAFE_INTEGER <? toInteger n)).
  - exists []. reflexivity.
  - destruct (to_index (toInteger n)) as [len|].
    + eexists. reflexivity.
    + exists []. reflexivity.
Qed.

Lemma reduce2d_nil (ps : list object) :
  reduce Math_pow points x y ps []
  = if existsb binned ps then Throw TypeError else Normal [].
Proof.
  induction ps as [|p ps IH]; [reflexivity|]. simpl. unfold reducer.
  destruct (finite_value (xStatScale Math_pow points x) p);
    [destruct (finite_value (yStatScale Math_pow points y) p)|];
    simpl; auto.
Qed.

(** X13: when the extremes of the x values or those of the y values
    coincide, no cell is seeded; two-dimensional binning then raises a
    TypeError if some record has finite normalized x and y values, and
    returns no bins otherwise. *)
Theorem bins2d_without_range :
  (max xStats =? min xStats) = true \/ (max yStats =? min yStats) = true ->
  start Math_pow points x y = []
  /\ bins Math_pow points x y
     = if existsb binned points then Throw TypeError else Normal [].
Proof.
  intros H.
  assert (E : start Math_pow points x y = []).
  { unfold start.
    replace (List.concat _) with (@nil key); [reflexivity|].
    destruct H as [H|H].
    - rewrite times_collapsed; [reflexivity|].
      unfold xBins. apply floor_collapsed, div_collapsed.
      change (range xStats) with (max xStats - min xStats).
      now apply sub_collapsed.
    - destruct (times_map (xBins Math_pow points x)) as [l Hl].
      rewrite Hl. clear Hl.
      induction l as [|a l IH]; [reflexivity|]. simpl.
      rewrite <- IH, app_nil_r. rewrite times_collapsed; [reflexivity|].
      unfold yBins. apply floor_collapsed, div_collapsed.
      change (range yStats) with (max yStats - min yStats).
      now apply sub_collapsed. }
  split; [exact E|].
  unfold bins. rewrite E, reduce2d_nil.
  now destruct (existsb _ points).
Qed.

End TwoDimensions.

Lemma bins2d_without_range_witness :
  BinStats2d.start Examples.Math_pow
                   [Examples.xy_ 1 2; Examples.xy_ 1 7] (Key "x") (Key "y")
  = []
  /\ BinStats2d.bins Examples.Math_pow
                     [Examples.xy_ 1 2; Examples.xy_ 1 7] (Key "x") (Key "y")
     = if existsb
            (fun p =>
               match BinStats2d.finite_value
                       (BinStats2d.xStatScale
                          Examples.Math_pow
                          [Examples.xy_ 1 2; Examples.xy_ 1 7] (Key "x")) p,
                     BinStats2d.finite_value
                       (BinStats2d.yStatScale
                          Examples.Math_pow
                          [Examples.xy_ 1 2; Examples.xy_ 1 7] (Key "y")) p
               with
               | Some _, Some _ => true
               | _, _ => false
               end)
            [Examples.xy_ 1 2; Examples.xy_ 1 7]
       then Throw TypeError else Normal [].
Proof.
  apply (bins2d_without_range Examples.Math_pow
           [Examples.xy_ 1 2; Examples.xy_ 1 7] (Key "x") (Key "y")).
  left. reflexivity.
Defined.

End Collapse.

(** ** The sign of a difference *)

Module Differences.

Import JS Notions Binary64.
Local Open Scope Z_scope.

Lemma shr_1_lower (K : Z) (mrs : shr_record) :
  K * 2 <= shr_m mrs -> 0 < K -> K <= shr_m (shr_1 mrs).
Proof.
  destruct mrs as [m r s]. simpl.
  destruct m as [|[p|p|]|[p|p|]]; simpl; lia.
Qed.

Lemma iter_shr_1_lower (n : positive) :
  forall (K : Z) (mrs : shr_record),
    0 < K -> K * 2 ^ Zpos n <= shr_m mrs ->
    K <= shr_m (SpecFloat.iter_pos shr_1 n mrs).
Proof.
  induction n as [n IH|n IH|]; intros K mrs HK H;
    cbn [SpecFloat.iter_pos].
  - assert (HP : 0 < 2 ^ Zpos n) by (apply Z.pow_pos_nonneg; lia).
    apply (IH K); [lia|].
    apply (IH (K * 2 ^ Zpos n)); [lia|].
    apply shr_1_lower; [|lia].
    rewrite (Pos2Z.inj_xI n) in H.
    rewrite (pow_split (2 * Zpos n) 1) in H by lia.
    replace (2 * Zpos n) with (Zpos n + Zpos n) in H by lia.
    rewrite (pow_split (Zpos n) (Zpos n)) in H by lia.
    change (2 ^ 1) with 2 in H. lia.
  - assert (HP : 0 < 2 ^ Zpos n) by (apply Z.pow_pos_nonneg; lia).
    apply (IH K); [lia|].
    apply (IH (K * 2 ^ Zpos n)); [lia|].
    rewrite (Pos2Z.inj_xO n) in H.
    replace (2 * Zpos n) with (Zpos n + Zpos n) in H by lia.
    rewrite (pow_split (Zpos n) (Zpos n)) in H by lia. lia.
  - apply shr_1_lower; [|assumption]. exact H.
Qed.

(** Shifting to the format's precision keeps a positive mantissa
    positive, and the exponent in range. *)
Lemma shr_fexp_pos (m : positive) (e : Z) (l : location) :
  -1074 <= e ->
  0 < shr_m (fst (shr_fexp prec emax (Zpos m) e l))
  /\ -1074 <= snd (shr_fexp prec emax (Zpos m) e l).
Proof.
  intros He. unfold shr_fexp, shr.
  assert (H0 : shr_m (shr_record_of_loc (Zpos m) l) = Zpos m).
  { destruct l as [|[]]; reflexivity. }
  simpl Zdigits2. rewrite fexp_eq.
  destruct (Z.max (Zpos (digits2_pos m) + e - 53) (-1074) - e)
    as [|n|n] eqn:En; simpl fst; simpl snd.
  - rewrite H0. lia.
  - split; [|lia].
    apply Z.lt_le_trans with (2 ^ 52); [reflexivity|].
    apply iter_shr_1_lower; [reflexivity|].
    rewrite H0. rewrite <- pow_split by lia.
    pose proof (digits_bounds m) as [Hlo _].
    replace (52 + Zpos n) with (Zpos (digits2_pos m) - 1) by lia.
    exact Hlo.
  - rewrite H0. lia.
Qed.

(** Rounding a positive integer multiple of a representable power of
    two never yields a zero. *)
Lemma binary_round_aux_not_zero (sx : bool) (m : positive) (e : Z)
      (l : location) (s : bool) :
  -1074 <= e ->
  binary_round_aux prec emax sx (Zpos m) e l <> S754_zero s.
Proof.
  intros He. unfold binary_round_aux.
  destruct (shr_fexp_pos m e l He) as [H1 H1'].
  destruct (shr_fexp prec emax (Zpos m) e l) as [mrs' e'].
  simpl fst in H1. simpl snd in H1'.
  assert (H2 : 0 < round_nearest_even (shr_m mrs')
                                      (loc_of_shr_record mrs')).
  { unfold round_nearest_even.
    destruct (loc_of_shr_record mrs') as [|[]]; try lia.
    destruct (Z.even (shr_m mrs')); lia. }
  destruct (round_nearest_even (shr_m mrs') (loc_of_shr_record mrs'))
    as [|p|p]; try lia.
  destruct (shr_fexp_pos p e' loc_Exact H1') as [H3 _].
  destruct (shr_fexp prec emax (Zpos p) e' loc_Exact) as [mrs'' e''].
  simpl fst in H3.
  destruct (shr_m mrs'') as [|q|q]; try lia.
  destruct (e'' <=? emax - prec); discriminate.
Qed.

Lemma binary_round_sign (sx : bool) (m : positive) (e : Z) :
  -1074 <= e ->
  SFltb (binary_round prec emax sx m e) (S754_zero false) = sx.
Proof.
  intros He. unfold binary_round.
  destruct (shl_align m e _) as [mz ez] eqn:Ea.
  assert (Hz : -1074 <= ez).
  { unfold shl_align in Ea. rewrite fexp_eq in Ea.
    destruct (Z.max _ _ - e) as [|d|d] eqn:Ed; injection Ea as _ <-; lia. }
  pose proof (FloatFacts.binary_round_aux_sign sx (Zpos mz) ez loc_Exact) as Hs.
  pose proof (binary_round_aux_not_nan sx (Zpos mz) ez loc_Exact) as Hn.
  pose proof (binary_round_aux_not_zero sx mz ez loc_Exact) as H0.
  destruct (binary_round_aux prec emax sx (Zpos mz) ez loc_Exact)
    as [s|s| |s k q].
  - elim (H0 s Hz). reflexivity.
  - subst s. now destruct sx.
  - elim Hn; [lia|reflexivity].
  - subst s. now destruct sx.
Qed.

(** The sign of a normalized integer. *)
Lemma binary_normalize_sign (D e : Z) (szero : bool) :
  -1074 <= e ->
  SFltb (binary_normalize prec emax D e szero) (S754_zero false)
  = (D <? 0)
  /\ (D <> 0 ->
      forall s, binary_normalize prec emax D e szero <> S754_zero s)
  /\ binary_normalize prec emax D e szero <> S754_nan.
Proof.
  intros He. destruct D as [|d|d]; simpl binary_normalize.
  - repeat split; try discriminate. intros H. now elim H.
  - split; [now apply binary_round_sign|]. split.
    + intros _ s. unfold binary_round.
      destruct (shl_align d e _) as [mz ez] eqn:Ea.
      apply binary_round_aux_not_zero.
      unfold shl_align in Ea. rewrite fexp_eq in Ea.
      destruct (Z.max _ _ - e) as [|k|k] eqn:Ed; injection Ea as _ <-; lia.
    + unfold binary_round. destruct (shl_align d e _) as [mz ez].
      apply binary_round_aux_not_nan. lia.
  - split; [now apply binary_round_sign|]. split.
    + intros _ s. unfold binary_round.
      destruct (shl_align d e _) as [mz ez] eqn:Ea.
      apply binary_round_aux_not_zero.
      unfold shl_align in Ea. rewrite fexp_eq in Ea.
      destruct (Z.max _ _ - e) as [|k|k] eqn:Ed; injection Ea as _ <-; lia.
    + unfold binary_round. destruct (shl_align d e _) as [mz ez].
      apply binary_round_aux_not_nan. lia.
Qed.

(** The aligned mantissas of a subtraction, in units of 2^-1074. *)
Lemma aligned_scaled (s : bool) (m : positive) (e ez : Z) :
  -1074 <= ez -> ez <= e ->
  cond_Zopp s (Zpos (fst (shl_align m e ez))) * 2 ^ (ez + 1074)
  = scaled (S754_finite s m e).
Proof.
  intros Hz He. rewrite shl_align_fst by assumption. unfold scaled.
  replace (e + 1074) with ((e - ez) + (ez + 1074)) by lia.
  rewrite (pow_split (e - ez) (ez + 1074)) by lia.
  destruct s; unfold cond_Zopp; ring.
Qed.

(** The difference of two finite numbers: its value has the sign of the
    difference of the values; it is a zero only when they are equal and
    never NaN. *)
Lemma SFsub_sign (a b : spec_float) :
  valid_binary a = true -> valid_binary b = true ->
  finite a -> finite b ->
  SFltb (SFsub prec emax a b) (S754_zero false) = (scaled a <? scaled b)
  /\ (scaled a <> scaled b ->
      forall s, SFsub prec emax a b <> S754_zero s)
  /\ SFsub prec emax a b <> S754_nan.
Proof.
  intros Va Vb Fa Fb.
  destruct a as [sa| | |sa ma ea], b as [sb| | |sb mb eb];
    try contradiction.
  - repeat split.
    + now destruct sa, sb.
    + intros H. now elim H.
    + destruct sa, sb; discriminate.
  - pose proof (valid_finite _ _ _ Vb) as (Rb & _).
    pose proof (scaled_finite_pos mb eb (proj1 Rb)).
    repeat split; try discriminate.
    unfold SFsub, scaled.
    destruct sb; unfold SFltb, SFcompare, cond_Zopp, negb; symmetry.
    + apply Z.ltb_ge. lia.
    + apply Z.ltb_lt. lia.
  - pose proof (valid_finite _ _ _ Va) as (Ra & _).
    pose proof (scaled_finite_pos ma ea (proj1 Ra)).
    repeat split; try discriminate.
    unfold SFsub, scaled.
    destruct sa; unfold SFltb, SFcompare, cond_Zopp; symmetry.
    + apply Z.ltb_lt. lia.
    + apply Z.ltb_ge. lia.
  - pose proof (valid_finite _ _ _ Va) as (Ra & _).
    pose proof (valid_finite _ _ _ Vb) as (Rb & _).
    unfold SFsub. cbv zeta.
    set (ez := Z.min ea eb).
    assert (Hz : -1074 <= ez) by (unfold ez; lia).
    pose proof (aligned_scaled sa ma ea ez Hz ltac:(unfold ez; lia)) as Ea.
    pose proof (aligned_scaled sb mb eb ez Hz ltac:(unfold ez; lia)) as Eb.
    set (A := cond_Zopp sa (Zpos (fst (shl_align ma ea ez)))) in *.
    set (B := cond_Zopp sb (Zpos (fst (shl_align mb eb ez)))) in *.
    assert (HP : 0 < 2 ^ (ez + 1074)) by (apply Z.pow_pos_nonneg; lia).
    destruct (binary_normalize_sign (A - B) ez false Hz) as (Hs & H0 & Hn).
    rewrite <- Ea, <- Eb. split; [|split].
    + rewrite Hs.
      destruct (Z.ltb_spec (A - B) 0), (Z.ltb_spec (A * 2 ^ (ez + 1074))
                                                   (B * 2 ^ (ez + 1074)));
        try reflexivity; nia.
    + intros Hne. apply H0. intros E. apply Hne.
      replace A with B by lia. reflexivity.
    + exact Hn.
Qed.

Local Open Scope float_scope.

(** [a - b < 0] decides [a < b] on finite numbers: the comparator of
    the sort orders them by value. *)
Lemma sub_ltb (a b : float) :
  is_finite a = true -> is_finite b = true ->
  (a - b <? 0) = (a <? b).
Proof.
  intros Fa Fb. apply is_finite_spec in Fa, Fb.
  rewrite !ltb_spec, sub_spec, zero_spec.
  destruct (SFsub_sign (Prim2SF a) (Prim2SF b)
                       (Prim2SF_valid a) (Prim2SF_valid b) Fa Fb)
    as (Hs & _).
  unfold SF64sub. rewrite Hs. unfold SFltb.
  rewrite compare_scaled by auto using Prim2SF_valid.
  unfold Z.ltb. now destruct (_ ?= _)%Z.
Qed.

End Differences.

(** ** The extremes of the sorted values *)

Module Extremes.

Import JS Common Notions Order Binary64 Differences.
Local Open Scope float_scope.

Lemma ltb_value (a b : float) :
  is_finite a = true -> is_finite b = true ->
  (a <? b) = (value_of a <? value_of b)%Z.
Proof.
  intros Fa Fb. apply is_finite_spec in Fa, Fb.
  rewrite ltb_spec. unfold SFltb, value_of.
  rewrite compare_scaled by auto using Prim2SF_valid.
  unfold Z.ltb. now destruct (_ ?= _)%Z.
Qed.

Lemma leb_value (a b : float) :
  is_finite a = true -> is_finite b = true ->
  (a <=? b) = (value_of a <=? value_of b)%Z.
Proof.
  intros Fa Fb. apply is_finite_spec in Fa, Fb.
  rewrite leb_spec. apply SFleb_scaled; auto using Prim2SF_valid.
Qed.

Lemma eqb_value (a b : float) :
  is_finite a = true -> is_finite b = true ->
  (a =? b) = (value_of a =? value_of b)%Z.
Proof.
  intros Fa Fb. apply is_finite_spec in Fa, Fb.
  rewrite FloatAxioms.eqb_spec. unfold SFeqb, value_of.
  rewrite compare_scaled by auto using Prim2SF_valid.
  destruct (Z.compare_spec (scaled (Prim2SF a)) (scaled (Prim2SF b)));
    symmetry; [apply Z.eqb_eq|apply Z.eqb_neq|apply Z.eqb_neq]; lia.
Qed.

(** [v || 0] keeps the value of a finite number. *)
Lemma or_zero_value (h : float) :
  is_finite h = true ->
  is_finite (or_zero (Some h)) = true
  /\ value_of (or_zero (Some h)) = value_of h.
Proof.
  intros Fh. unfold or_zero, truthy.
  destruct (is_nan h || is_zero h) eqn:E; simpl; [|auto].
  split; [reflexivity|].
  apply orb_true_iff in E. unfold is_nan, is_zero in E.
  pose proof (is_finite_spec h Fh) as F.
  rewrite !FloatAxioms.eqb_spec in E. unfold value_of.
  destruct (Prim2SF h) as [s| | |s m e]; try contradiction.
  - reflexivity.
  - destruct E as [E|E].
    + rewrite SFeqb_refl_finite in E by exact I. discriminate.
    + change (Prim2SF zero) with (S754_zero false) in E.
      destruct s; discriminate.
Qed.

Local Abbreviation by_difference := (fun a b : float => a - b).

Lemma sort_insert_spec (v : float) (l : list float) :
  is_finite v = true ->
  Forall (fun u => is_finite u = true) l ->
  ascending l ->
  ascending (sort_insert by_difference v l)
  /\ forall u, In u (sort_insert by_difference v l) <-> u = v \/ In u l.
Proof.
  intros Fv. induction l as [|h t IH]; intros Fl Hl.
  - simpl. split.
    + split; [intros u []|exact I].
    + intros u. split; [intros [<-|[]]|intros [->|[]]]; auto.
  - inversion Fl as [|? ? Fh Ft]; subst. destruct Hl as [Hh Ht].
    simpl sort_insert. cbv beta.
    rewrite (sub_ltb v h Fv Fh), (ltb_value v h Fv Fh).
    destruct (Z.ltb_spec (value_of v) (value_of h)) as [Hlt|Hge].
    + split.
      * split; [|split; assumption].
        intros u [<-|Hu]; [lia|]. apply Hh in Hu. lia.
      * intros u. simpl. split; intros [H|H]; auto.
    + destruct (IH Ft Ht) as [IHa IHi]. split.
      * split; [|assumption].
        intros u Hu. apply IHi in Hu. destruct Hu as [->|Hu]; auto.
      * intros u. simpl. rewrite IHi. tauto.
Qed.

Lemma sort_from_spec (l : list float) :
  forall acc,
    Forall (fun u => is_finite u = true) l ->
    Forall (fun u => is_finite u = true) acc ->
    ascending acc ->
    ascending (fold_left (fun acc v => sort_insert by_difference v acc)
                         l acc)
    /\ forall u,
        In u (fold_left (fun acc v => sort_insert by_difference v acc)
                        l acc)
        <-> In u l \/ In u acc.
Proof.
  induction l as [|v l IH]; intros acc Fl Fa Ha; simpl.
  - split; [assumption|]. tauto.
  - inversion Fl as [|? ? Fv Fl']; subst.
    destruct (sort_insert_spec v acc Fv Fa Ha) as [Hs Hi].
    destruct (IH (sort_insert by_difference v acc)) as [Hs' Hi']; auto.
    { apply Forall_forall. intros u Hu. apply Hi in Hu.
      destruct Hu as [->|Hu]; [assumption|].
      rewrite Forall_forall in Fa. auto. }
    split; [assumption|].
    intros u. rewrite Hi', Hi. intuition (subst; auto).
Qed.

(** The sorted finite values are in ascending order and are the finite
    values of the records. *)
Lemma sortedValues_spec (arr : list object) (attr : TypedAccessor) :
  ascending (sortedValues arr attr)
  /\ forall u,
      In u (sortedValues arr attr)
      <-> is_finite u = true
          /\ exists d, In d arr /\ attributeNumber d attr = u.
Proof.
  unfold sortedValues, sort.
  set (l := filter _ _).
  assert (Fl : Forall (fun u => is_finite u = true) l).
  { apply Forall_forall. intros u Hu. apply filter_In in Hu. tauto. }
  destruct (sort_from_spec l [] Fl (Forall_nil _) I) as [Hs Hi].
  split; [assumption|].
  intros u. rewrite Hi. unfold l. rewrite filter_In, in_map_iff.
  simpl. unfold Number_isFinite. split.
  - intros [[(d & <- & Hd) Hf]|[]]. split; [assumption|]. now exists d.
  - intros [Hf (d & Hd & <-)]. left. split; [|assumption]. now exists d.
Qed.

Lemma ascending_last (l : list float) (b : float) :
  ascending l -> nth_error l (List.length l - 1) = Some b ->
  forall u, In u l -> (value_of u <= value_of b)%Z.
Proof.
  induction l as [|h t IH]; intros Hl Hb u Hu; [destruct Hu|].
  destruct Hl as [Hh Ht]. destruct t as [|h' t'].
  - simpl in Hb. injection Hb as <-. destruct Hu as [<-|[]]. lia.
  - assert (Hb' : nth_error (h' :: t') (List.length (h' :: t') - 1)
                  = Some b).
    { simpl in Hb |- *. now rewrite Nat.sub_0_r. }
    destruct Hu as [<-|Hu].
    + apply Hh. eapply nth_error_In. exact Hb'.
    + now apply IH.
Qed.

Section WithMath.

Variable Math_pow : float -> float -> float.

(** The minimum and the maximum, when some value is finite. *)
Lemma extremes_spec (arr : list object) (attr : TypedAccessor) :
  sortedValues arr attr <> [] ->
  exists lo hi,
    In lo (sortedValues arr attr) /\ In hi (sortedValues arr attr)
    /\ is_finite (min (attrStats Math_pow arr attr)) = true
    /\ is_finite (max (attrStats Math_pow arr attr)) = true
    /\ value_of (min (attrStats Math_pow arr attr)) = value_of lo
    /\ value_of (max (attrStats Math_pow arr attr)) = value_of hi
    /\ forall u, In u (sortedValues arr attr) ->
                 (value_of lo <= value_of u <= value_of hi)%Z.
Proof.
  intros Hne.
  destruct (sortedValues_spec arr attr) as [Hs Hi].
  change (min (attrStats Math_pow arr attr))
    with (or_zero (nth_error (sortedValues arr attr) 0)).
  change (max (attrStats Math_pow arr attr))
    with (or_zero (nth_error (sortedValues arr attr)
                             (List.length (sortedValues arr attr) - 1))).
  destruct (sortedValues arr attr) as [|lo t] eqn:E; [congruence|].
  destruct (nth_error (lo :: t) (List.length (lo :: t) - 1))
    as [hi|] eqn:Eh.
  2:{ apply nth_error_None in Eh. simpl in Eh. lia. }
  assert (Hlo : In lo (lo :: t)) by (simpl; auto).
  assert (Hhi : In hi (lo :: t)) by (eapply nth_error_In; exact Eh).
  destruct (or_zero_value lo) as [F1 V1]; [now apply Hi|].
  destruct (or_zero_value hi) as [F2 V2]; [now apply Hi|].
  exists lo, hi. simpl nth_error at 1. repeat split; auto.
  - destruct Hs as [Hh _]. destruct H as [<-|H]; [lia|]. now apply Hh.
  - eapply ascending_last; eauto.
Qed.

(** X14: when a record has a finite value, [min] and [max] are finite,
    they bound the value of every such record, and each of them is
    equal to the value of some record. *)
Theorem extremes_bound_values (arr : list object) (attr : TypedAccessor)
        (d : object) :
  In d arr ->
  Number_isFinite (attributeNumber d attr) = true ->
  (min (attrStats Math_pow arr attr) <=? attributeNumber d attr) = true
  /\ (attributeNumber d attr <=? max (attrStats Math_pow arr attr)) = true
  /\ (exists d', In d' arr
                 /\ (attributeNumber d' attr
                     =? min (attrStats Math_pow arr attr)) = true)
  /\ (exists d', In d' arr
                 /\ (attributeNumber d' attr
                     =? max (attrStats Math_pow arr attr)) = true).
Proof.
  intros Hd Hf. unfold Number_isFinite in Hf.
  destruct (sortedValues_spec arr attr) as [_ Hi].
  assert (Hin : In (attributeNumber d attr) (sortedValues arr attr)).
  { apply Hi. split; [assumption|]. now exists d. }
  destruct (extremes_spec arr attr)
    as (lo & hi & Hlo & Hhi & F1 & F2 & V1 & V2 & Hb).
  { intros E. rewrite E in Hin. destruct Hin. }
  destruct (Hb _ Hin) as [B1 B2].
  apply Hi in Hlo, Hhi.
  destruct Hlo as [Flo (dlo & Hdlo & Elo)].
  destruct Hhi as [Fhi (dhi & Hdhi & Ehi)].
  repeat split.
  - rewrite leb_value by assumption. apply Z.leb_le. lia.
  - rewrite leb_value by assumption. apply Z.leb_le. lia.
  - exists dlo. split; [assumption|]. rewrite Elo.
    rewrite eqb_value by assumption. apply Z.eqb_eq. lia.
  - exists dhi. split; [assumption|]. rewrite Ehi.
    rewrite eqb_value by assumption. apply Z.eqb_eq. lia.
Qed.

End WithMath.

Lemma extremes_bound_values_witness :
  (min (attrStats Examples.Math_pow
                  [Examples.x_ 3; []; Examples.x_ (-2); Examples.x_ 7]
                  (Key "x"))
   <=? attributeNumber (Examples.x_ 3) (Key "x")) = true
  /\ (attributeNumber (Examples.x_ 3) (Key "x")
      <=? max (attrStats Examples.Math_pow
                         [Examples.x_ 3; []; Examples.x_ (-2); Examples.x_ 7]
                         (Key "x"))) = true
  /\ (exists d',
         In d' [Examples.x_ 3; []; Examples.x_ (-2); Examples.x_ 7]
         /\ (attributeNumber d' (Key "x")
             =? min (attrStats Examples.Math_pow
                               [Examples.x_ 3; []; Examples.x_ (-2);
                                Examples.x_ 7]
                               (Key "x"))) = true)
  /\ (exists d',
         In d' [Examples.x_ 3; []; Examples.x_ (-2); Examples.x_ 7]
         /\ (attributeNumber d' (Key "x")
             =? max (attrStats Examples.Math_pow
                               [Examples.x_ 3; []; Examples.x_ (-2);
                                Examples.x_ 7]
                               (Key "x"))) = true).
Proof.
  apply (extremes_bound_values Examples.Math_pow
           [Examples.x_ 3; []; Examples.x_ (-2); Examples.x_ 7]
           (Key "x") (Examples.x_ 3)).
  - simpl. auto.
  - reflexivity.
Defined.

End Extremes.

(** ** Pixel scales *)

Module Pixels.

Import JS Common PixelScale Notions Order Binary64 Collapse Differences.
Import Extremes.
Local Open Scope float_scope.

(** A zero of either sign. *)
Local Abbreviation zeroish := (fun f : float => f = zero \/ f = neg_zero).

Lemma eqb_finite (a b : float) :
  (a =? b) = true -> is_finite b = true -> is_finite a = true.
Proof.
  intros H Fb. apply is_finite_spec in Fb.
  rewrite FloatAxioms.eqb_spec in H.
  unfold is_finite, is_nan, is_infinity.
  rewrite !FloatAxioms.eqb_spec, abs_spec.
  destruct (Prim2SF a) as [[]|[]| |[] ma ea];
    destruct (Prim2SF b) as [[]|[]| |[] mb eb];
    try contradiction; try discriminate; try reflexivity;
    rewrite SFeqb_refl_finite by exact I; reflexivity.
Qed.

(** The difference of two equal finite numbers is a zero. *)
Lemma sub_equal (a b : float) :
  (a =? b) = true -> is_finite b = true -> zeroish (a - b).
Proof.
  intros H Fb. pose proof (eqb_finite a b H Fb) as Fa.
  destruct (sub_collapsed a b H) as [E|[E|E]]; auto.
  exfalso.
  destruct (SFsub_sign (Prim2SF a) (Prim2SF b)
                       (Prim2SF_valid a) (Prim2SF_valid b)
                       (is_finite_spec a Fa) (is_finite_spec b Fb))
    as (_ & _ & Hn).
  apply Hn. change (SFsub prec emax) with SF64sub.
  rewrite <- sub_spec, E. reflexivity.
Qed.

(** The difference of two different finite numbers is neither a zero
    nor NaN. *)
Lemma sub_different (a b : float) :
  (a =? b) = false -> is_finite a = true -> is_finite b = true ->
  match Prim2SF (a - b) with
  | S754_finite _ _ _ | S754_infinity _ => True
  | _ => False
  end.
Proof.
  intros H Fa Fb. rewrite eqb_value in H by assumption.
  apply Z.eqb_neq in H.
  destruct (SFsub_sign (Prim2SF a) (Prim2SF b)
                       (Prim2SF_valid a) (Prim2SF_valid b)
                       (is_finite_spec a Fa) (is_finite_spec b Fb))
    as (_ & H0 & Hn).
  rewrite sub_spec. unfold SF64sub.
  destruct (SFsub prec emax (Prim2SF a) (Prim2SF b)) as [s|s| |s m e];
    auto.
  now elim (H0 H s).
Qed.

Lemma div_zero (z r : float) :
  zeroish z ->
  match Prim2SF r with
  | S754_finite _ _ _ | S754_infinity _ => True
  | _ => False
  end ->
  zeroish (z / r).
Proof.
  intros Hz Hr. pose proof (div_spec z r) as E.
  destruct Hz as [-> | ->];
    destruct (Prim2SF r) as [[]|[]| |[] m e]; try contradiction;
    apply of_spec in E; vm_compute in E; auto.
Qed.

Lemma mul_zero (P z : float) :
  is_finite P = true -> zeroish z -> zeroish (P * z).
Proof.
  intros FP Hz. apply is_finite_spec in FP.
  pose proof (mul_spec P z) as E.
  destruct Hz as [-> | ->];
    destruct (Prim2SF P) as [[]|[]| |[] m e]; try contradiction;
    apply of_spec in E; vm_compute in E; auto.
Qed.

Lemma sub_zero (P z : float) :
  is_finite P = true -> zeroish z -> (P - z =? P) = true.
Proof.
  intros FP Hz. apply is_finite_spec in FP.
  rewrite FloatAxioms.eqb_spec, sub_spec.
  destruct Hz as [-> | ->];
    destruct (Prim2SF P) as [[]|[]| |[] m e] eqn:EP; try contradiction;
    try reflexivity;
    change (SF64sub ?x (Prim2SF ?y)) with x;
    apply SFeqb_refl_finite; exact I.
Qed.

Lemma zeroish_eqb (z : float) : zeroish z -> (z =? 0) = true.
Proof. intros [-> | ->]; reflexivity. Qed.

Section WithMath.

Variable Math_pow : float -> float -> float.

Lemma extremes_finite (arr : list object) (attr : TypedAccessor) :
  is_finite (min (attrStats Math_pow arr attr)) = true
  /\ is_finite (max (attrStats Math_pow arr attr)) = true.
Proof.
  destruct (sortedValues arr attr) as [|h t] eqn:E.
  - change (min (attrStats Math_pow arr attr))
      with (or_zero (nth_error (sortedValues arr attr) 0)).
    change (max (attrStats Math_pow arr attr))
      with (or_zero (nth_error (sortedValues arr attr)
                               (List.length (sortedValues arr attr) - 1))).
    rewrite E. split; reflexivity.
  - destruct (extremes_spec Math_pow arr attr)
      as (lo & hi & _ & _ & F1 & F2 & _); [congruence|auto].
Qed.

(** The normalized value of a record at the minimum is a zero. *)
Lemma minimum_normalized (arr : list object) (attr : TypedAccessor)
      (d : object) :
  (attributeNumber d attr =? min (attrStats Math_pow arr attr)) = true ->
  exists z,
    call (attrScale Math_pow arr attr no_override) d = Some z
    /\ zeroish z.
Proof.
  intros H. destruct (extremes_finite arr attr) as [Fmin Fmax].
  unfold attrScale. cbn [call]. unfold scaleTo.
  change (max (assign (attrStats Math_pow arr attr) no_override))
    with (max (attrStats Math_pow arr attr)).
  change (min (assign (attrStats Math_pow arr attr) no_override))
    with (min (attrStats Math_pow arr attr)).
  change (range (assign (attrStats Math_pow arr attr) no_override))
    with (max (attrStats Math_pow arr attr)
          - min (attrStats Math_pow arr attr)).
  destruct (max (attrStats Math_pow arr attr)
            =? min (attrStats Math_pow arr attr)) eqn:Em; simpl negb;
    cbv iota.
  - exists 0. auto.
  - eexists. split; [reflexivity|].
    apply div_zero.
    + now apply sub_equal.
    + now apply sub_different.
Qed.

(** X15: the pixel scale built on the scale of an attribute sends a
    record whose value equals the minimum to pixel 0, and to the full
    span when the scale is inverted. *)
Theorem minimum_at_pixel_zero (arr : list object) (attr : TypedAccessor)
        (scaleTo : float) (d : object) :
  is_finite scaleTo = true ->
  (attributeNumber d attr =? min (attrStats Math_pow arr attr)) = true ->
  exists z z',
    call (buildScale (attrScale Math_pow arr attr no_override)
                     scaleTo false) d = Some z
    /\ (z =? 0) = true
    /\ call (buildScale (attrScale Math_pow arr attr no_override)
                        scaleTo true) d = Some z'
    /\ (z' =? scaleTo) = true.
Proof.
  intros FP H.
  destruct (minimum_normalized arr attr d H) as (z0 & E & Hz).
  unfold buildScale. cbn [call]. rewrite E.
  exists (scaleTo * z0), (scaleTo - scaleTo * z0).
  pose proof (mul_zero scaleTo z0 FP Hz) as Hm.
  repeat split.
  - now apply zeroish_eqb.
  - now apply sub_zero.
Qed.

End WithMath.

Lemma minimum_at_pixel_zero_witness :
  exists z z',
    call (buildScale (attrScale Examples.Math_pow
                                [Examples.x_ 3; Examples.x_ (-2);
                                 Examples.x_ 7]
                                (Key "x") no_override)
                     400 false) (Examples.x_ (-2)) = Some z
    /\ (z =? 0) = true
    /\ call (buildScale (attrScale Examples.Math_pow
                                   [Examples.x_ 3; Examples.x_ (-2);
                                    Examples.x_ 7]
                                   (Key "x") no_override)
                        400 true) (Examples.x_ (-2)) = Some z'
    /\ (z' =? 400) = true.
Proof.
  apply (minimum_at_pixel_zero Examples.Math_pow
           [Examples.x_ 3; Examples.x_ (-2); Examples.x_ 7]
           (Key "x") 400 (Examples.x_ (-2))).
  - reflexivity.
  - reflexivity.
Defined.

End Pixels.

(** ** Integers in binary64 *)

Module Integers.

Import JS Notions Binary64.
Local Open Scope Z_scope.

Lemma SFltb_scaled (a b : spec_float) :
  valid_binary a = true -> valid_binary b = true ->
  finite a -> finite b ->
  SFltb a b = (scaled a <? scaled b).
Proof.
  intros Va Vb Fa Fb. unfold SFltb. rewrite compare_scaled by assumption.
  unfold Z.ltb. destruct (scaled a ?= scaled b); reflexivity.
Qed.

Lemma SFeqb_scaled (a b : spec_float) :
  valid_binary a = true -> valid_binary b = true ->
  finite a -> finite b ->
  SFeqb a b = (scaled a =? scaled b).
Proof.
  intros Va Vb Fa Fb. unfold SFeqb. rewrite compare_scaled by assumption.
  destruct (Z.compare_spec (scaled a) (scaled b));
    symmetry; [apply Z.eqb_eq|apply Z.eqb_neq|apply Z.eqb_neq]; lia.
Qed.

(** Adding one to an integer below 2^53 - 1 is exact. *)
Lemma add_one (s : Z) :
  0 <= s -> s + 1 < 2 ^ 53 ->
  SF64add (SFof_Z s) (S754_finite false 4503599627370496 (-52))
  = SFof_Z (s + 1).
Proof.
  intros H0 H1. destruct s as [|N|N]; try lia; [reflexivity|].
  assert (HN : Zpos N < 2 ^ 53) by lia.
  simpl SFof_Z at 1.
  destruct (SFof_pos_eq N HN) as (m & e & -> & He & Hm & _).
  unfold SF64add, SFadd.
  replace (Z.min e (-52)) with (-52) by lia.
  rewrite shl_align_fst by lia.
  rewrite (shl_align_ge 4503599627370496 (-52) (-52)) by lia.
  simpl fst. unfold cond_Zopp.
  rewrite Hm, <- Z.mul_assoc, <- pow_split by lia.
  replace (- e + (e - -52)) with 52 by lia.
  replace (Zpos N * 2 ^ 52 + 4503599627370496)
    with ((Zpos N + 1) * 2 ^ 52)
    by (change (2 ^ 52) with 4503599627370496; lia).
  apply normalize_int. lia.
Qed.

Local Open Scope float_scope.

(** The numbers 0, 1, 2, ... that [baseRange] produces. *)
Lemma baseRange_fill_spec (n : nat) :
  forall (g : float) (s : Z),
    Prim2SF g = SFof_Z s ->
    (0 <= s)%Z -> (s + Z.of_nat n < 2 ^ 53)%Z ->
    forall k, (k < n)%nat ->
              exists gk,
                nth_error (Lodash.baseRange_fill n g 1) k = Some gk
                /\ Prim2SF gk = SFof_Z (s + Z.of_nat k).
Proof.
  induction n as [|n IH]; intros g s Hg H0 Hn k Hk; [lia|].
  destruct k as [|k].
  - exists g. split; [reflexivity|]. now rewrite Z.add_0_r.
  - simpl. destruct (IH (g + 1) (s + 1)%Z) with (k := k)
      as (gk & E & Hgk).
    + rewrite add_spec, Hg.
      change (Prim2SF 1) with (S754_finite false 4503599627370496 (-52)).
      apply add_one; lia.
    + lia.
    + lia.
    + lia.
    + exists gk. split; [assumption|]. rewrite Hgk. f_equal. lia.
Qed.

(** An array index and a grid number are equal, as numbers and as
    strings, exactly when they denote the same integer. *)
Lemma same_string_index (c g : float) (i k : Z) :
  to_index c = Some i ->
  Prim2SF g = SFof_Z k -> (0 <= k < 2 ^ 53)%Z ->
  BinStats2d.same_string c g = (i =? k)%Z.
Proof.
  intros Hc Hg Hk. unfold to_index in Hc.
  destruct (index_scaled _ _ (Prim2SF_valid c) Hc) as (Fc & Hi & Sc).
  assert (Hk' : (Z.abs k < 2 ^ 53)%Z) by lia.
  pose proof (SFof_Z_valid k Hk') as Vg.
  pose proof (SFof_Z_finite k Hk') as Fg.
  pose proof (SFof_Z_scaled k Hk') as Sg.
  unfold BinStats2d.same_string, is_nan.
  rewrite !FloatAxioms.eqb_spec, Hg.
  rewrite (SFeqb_refl_finite _ Fc). simpl negb. rewrite andb_false_l, orb_false_r.
  rewrite SFeqb_scaled by auto using Prim2SF_valid.
  rewrite Sc, Sg. pose proof quantum_pos.
  destruct (Z.eqb_spec i k) as [->|Hne].
  - apply Z.eqb_refl.
  - apply Z.eqb_neq. nia.
Qed.

Section BinCount.

Variable B : float.
Variable N : positive.
Hypothesis count_spec : Prim2SF B = SFof_pos N.
Hypothesis count_small : (Zpos N <= 4294967295)%Z.

Lemma B_toInteger :
  valid_binary (Prim2SF (Lodash.toInteger B)) = true
  /\ finite (Prim2SF (Lodash.toInteger B))
  /\ scaled (Prim2SF (Lodash.toInteger B)) = (Zpos N * quantum)%Z.
Proof.
  pose proof quantum_pos as HU.
  pose proof (B_valid B) as VB. pose proof (B_finite B N count_spec count_small) as FB.
  pose proof (B_scaled B N count_spec count_small) as SB.
  unfold Lodash.toInteger. rewrite (B_toFinite B N count_spec count_small).
  assert (E : (B <? 0) = false).
  { rewrite ltb_spec, zero_spec, SFltb_scaled by fin.
    rewrite SB. apply Z.ltb_ge. change (scaled (S754_zero false)) with 0%Z.
    lia. }
  rewrite E, floor_spec.
  destruct (SFfloor_scaled _ VB FB) as (V & F & S).
  repeat split; auto.
  rewrite S, SB, Z.div_mul by lia. reflexivity.
Qed.

(** [_.times(xBins, f)] calls [f] on 0, 1, ..., xBins - 1. *)
Lemma B_times {A} (f : float -> A) :
  Lodash.times B f = map f (Lodash.baseRange_fill (Pos.to_nat N) 0 1).
Proof.
  pose proof quantum_pos as HU.
  destruct B_toInteger as (V & F & S).
  unfold Lodash.times.
  assert (E1 : (Lodash.toInteger B <? 1) = false).
  { rewrite ltb_spec, one_spec, SFltb_scaled; try fin.
    rewrite S, SFof_pos_scaled by reflexivity. apply Z.ltb_ge. nia. }
  assert (E2 : (Lodash.MAX_SAFE_INTEGER <? Lodash.toInteger B) = false).
  { rewrite ltb_spec.
    change (Prim2SF Lodash.MAX_SAFE_INTEGER) with (SFof_pos 9007199254740991).
    rewrite SFltb_scaled; try fin.
    rewrite S, SFof_pos_scaled by reflexivity. apply Z.ltb_ge. nia. }
  rewrite E1, E2. simpl orb. cbv iota.
  assert (E3 : to_index (Lodash.toInteger B) = Some (Zpos N)).
  { apply scaled_index; auto. lia. }
  rewrite E3. unfold Lodash.MAX_ARRAY_LENGTH.
  rewrite Z.min_l by lia. reflexivity.
Qed.

End BinCount.

End Integers.

(** ** Two-dimensional binning is a partition *)

Module GridPartition.

Import JS Common BinStats2d Notions Grid.
Local Open Scope float_scope.

Lemma set_fresh (o : bin_object) (k : key) (b : Bin) :
  (forall k' b', In (k', b') o -> key_eqb k k' = false) ->
  set o k b = o ++ [(k, b)].
Proof.
  induction o as [|[k' b'] o IH]; intros H; simpl; [reflexivity|].
  rewrite (H k' b') by (simpl; auto). f_equal.
  apply IH. intros k'' b'' Hin. apply (H k'' b''). simpl. auto.
Qed.

Lemma cells_from_app (ks ks' : list key) :
  forall a D,
    cells_from a D (ks ++ ks')
    = cells_from a D ks ++ cells_from (a + List.length ks) D ks'.
Proof.
  induction ks as [|c ks IH]; intros a D; simpl.
  - now rewrite Nat.add_0_r.
  - rewrite IH. do 3 f_equal. lia.
Qed.

Lemma cells_from_ext (ks : list key) :
  forall a D D',
    (forall t, (a <= t < a + List.length ks)%nat -> D t = D' t) ->
    cells_from a D ks = cells_from a D' ks.
Proof.
  induction ks as [|c ks IH]; intros a D D' H; simpl; [reflexivity|].
  rewrite (H a) by (simpl; lia). f_equal.
  apply IH. intros t Ht. apply H. simpl. lia.
Qed.

Lemma cells_from_In (ks : list key) :
  forall a D k b,
    In (k, b) (cells_from a D ks) ->
    exists t, nth_error ks t = Some k.
Proof.
  induction ks as [|c ks IH]; intros a D k b H; simpl in H; [destruct H|].
  destruct H as [H|H].
  - injection H as <- _. now exists 0%nat.
  - destruct (IH _ _ _ _ H) as [t Ht]. now exists (S t).
Qed.

Lemma nth_error_cells_from (ks : list key) :
  forall a D t,
    nth_error (cells_from a D ks) t
    = match nth_error ks t with
      | Some c => Some (c, {| xBin := fst c; yBin := snd c;
                              data := D (a + t)%nat |})
      | None => None
      end.
Proof.
  induction ks as [|c ks IH]; intros a D t; simpl.
  - now destruct t.
  - destruct t as [|t]; simpl.
    + now rewrite Nat.add_0_r.
    + rewrite IH. replace (S a + t)%nat with (a + S t)%nat by lia.
      reflexivity.
Qed.

(** Seeding the cells for keys that differ from each other. *)
Lemma start_spec (ks : list key) :
  forall pre,
    (forall t t' c c',
        nth_error (pre ++ ks) t = Some c ->
        nth_error (pre ++ ks) t' = Some c' ->
        key_eqb c c' = true -> t = t') ->
    fold_left
      (fun o c => set o c {| xBin := fst c; yBin := snd c; data := [] |})
      ks (cells_from 0 (fun _ => []) pre)
    = cells_from 0 (fun _ => []) (pre ++ ks).
Proof.
  induction ks as [|c ks IH]; intros pre H; simpl.
  - now rewrite app_nil_r.
  - rewrite set_fresh.
    + replace (cells_from 0 (fun _ => []) pre
               ++ [(c, {| xBin := fst c; yBin := snd c; data := [] |})])
        with (cells_from 0 (fun _ : nat => @nil object) (pre ++ [c]))
        by (rewrite cells_from_app; reflexivity).
      rewrite IH; rewrite <- app_assoc; [reflexivity|exact H].
    + intros k' b' Hin. apply cells_from_In in Hin.
      destruct Hin as [t Ht].
      destruct (key_eqb c k') eqn:E; [|reflexivity]. exfalso.
      assert (Hlt : (t < List.length pre)%nat)
        by (apply nth_error_Some; congruence).
      assert (Ec : nth_error (pre ++ c :: ks) (List.length pre) = Some c).
      { rewrite nth_error_app2 by lia. now rewrite Nat.sub_diag. }
      assert (Ek : nth_error (pre ++ c :: ks) t = Some k')
        by (rewrite nth_error_app1 by lia; exact Ht).
      specialize (H _ _ _ _ Ec Ek E). lia.
Qed.

(** Adding a record to the cell at position [t]. *)
Lemma push_data_cells (ks : list key) (k : key) (p : object) (t : nat) :
  forall a D,
    (forall t' c, nth_error ks t' = Some c ->
                  key_eqb k c = (a + t' =? t)%nat) ->
    (a <= t < a + List.length ks)%nat ->
    push_data (cells_from a D ks) k p
    = Normal (cells_from a
                (fun t' => if (t' =? t)%nat then D t' ++ [p] else D t')
                ks).
Proof.
  induction ks as [|c ks IH]; intros a D Hk Ht; simpl in Ht; [lia|].
  simpl. rewrite (Hk 0%nat c eq_refl), Nat.add_0_r.
  destruct (Nat.eqb_spec a t) as [->|Hne].
  - do 2 f_equal. apply cells_from_ext. intros t' Ht'.
    destruct (Nat.eqb_spec t' t); [lia|reflexivity].
  - rewrite IH.
    + reflexivity.
    + intros t' c' Hc'. rewrite (Hk (S t') c' Hc').
      f_equal. lia.
    + lia.
Qed.

(** The cells of a grid, row after row. *)
Lemma grid_length {A B} (xs : list A) (ys : list B) :
  List.length
    (List.concat (map (fun a => map (fun b => (a, b)) ys) xs))
  = (List.length xs * List.length ys)%nat.
Proof.
  induction xs as [|a xs IH]; simpl; [reflexivity|].
  rewrite length_app, length_map, IH. reflexivity.
Qed.

Lemma grid_nth {A B} (xs : list A) (ys : list B) :
  forall i j a b,
    nth_error xs i = Some a -> nth_error ys j = Some b ->
    nth_error (List.concat (map (fun a => map (fun b => (a, b)) ys) xs))
              (i * List.length ys + j)
    = Some (a, b).
Proof.
  induction xs as [|a' xs IH]; intros i j a b Ha Hb.
  - destruct i; discriminate.
  - assert (Hj : (j < List.length ys)%nat)
      by (apply nth_error_Some; congruence).
    destruct i as [|i]; simpl.
    + injection Ha as ->. rewrite nth_error_app1
        by (rewrite length_map; exact Hj).
      rewrite nth_error_map, Hb. reflexivity.
    + rewrite nth_error_app2 by (rewrite length_map; lia).
      rewrite length_map.
      replace (List.length ys + i * List.length ys + j - List.length ys)%nat
        with (i * List.length ys + j)%nat by lia.
      now apply IH.
Qed.

Lemma grid_nth_inv {A B} (xs : list A) (ys : list B) :
  forall t c,
    nth_error (List.concat (map (fun a => map (fun b => (a, b)) ys) xs)) t
    = Some c ->
    exists i j,
      t = (i * List.length ys + j)%nat
      /\ nth_error xs i = Some (fst c) /\ nth_error ys j = Some (snd c).
Proof.
  induction xs as [|a xs IH]; intros t c H; simpl in H.
  - destruct t; discriminate.
  - destruct (Nat.lt_ge_cases t (List.length ys)) as [Hlt|Hge].
    + rewrite nth_error_app1 in H by (rewrite length_map; exact Hlt).
      rewrite nth_error_map in H.
      destruct (nth_error ys t) as [b|] eqn:Eb; [|discriminate].
      injection H as <-. exists 0%nat, t. simpl. auto.
    + rewrite nth_error_app2 in H by (rewrite length_map; exact Hge).
      rewrite length_map in H.
      destruct (IH _ _ H) as (i & j & E & Hi & Hj).
      exists (S i), j. simpl. split; [lia|auto].
Qed.

Lemma position_eqb (m i j i' j' : nat) :
  (j < m)%nat -> (j' < m)%nat ->
  (i' * m + j' =? i * m + j)%nat = ((i' =? i)%nat && (j' =? j)%nat).
Proof.
  intros Hj Hj'.
  destruct (Nat.eqb_spec i' i) as [->|Hi]; simpl.
  - destruct (Nat.eqb_spec j' j) as [->|Hne].
    + apply Nat.eqb_refl.
    + apply Nat.eqb_neq. lia.
  - apply Nat.eqb_neq. nia.
Qed.

Lemma members_cells (ks : list key) :
  forall a D,
    members (map snd (cells_from a D ks))
    = list_sum (map (fun t => List.length (D t))
                    (seq a (List.length ks))).
Proof.
  unfold members.
  induction ks as [|c ks IH]; intros a D; simpl; [reflexivity|].
  f_equal. apply IH.
Qed.

Lemma length_fill (k : nat) :
  forall g s, List.length (Lodash.baseRange_fill k g s) = k.
Proof. induction k as [|k IH]; intros; simpl; auto. Qed.

Lemma small_index (N : positive) (i : nat) :
  (Zpos N <= 4294967295)%Z -> (i < Pos.to_nat N)%nat ->
  (0 <= Z.of_nat i < 2 ^ 53)%Z.
Proof.
  intros. change (2 ^ 53)%Z with 9007199254740992%Z. lia.
Qed.

Lemma fill_nth (N : positive) (i : nat) :
  (Zpos N <= 4294967295)%Z -> (i < Pos.to_nat N)%nat ->
  exists g,
    nth_error (Lodash.baseRange_fill (Pos.to_nat N) 0 1) i = Some g
    /\ Prim2SF g = SFof_Z (Z.of_nat i)
    /\ to_index g = Some (Z.of_nat i).
Proof.
  intros HN Hi.
  assert (Hb0 : (0 + Z.of_nat (Pos.to_nat N) < 2 ^ 53)%Z).
  { rewrite positive_nat_Z. change (2 ^ 53)%Z with 9007199254740992%Z.
    lia. }
  destruct (Integers.baseRange_fill_spec (Pos.to_nat N) 0 0 eq_refl
              (Z.le_refl 0) Hb0 i Hi) as (g & E & Hg).
  simpl in Hg. exists g. repeat split; auto.
  unfold to_index. rewrite Hg.
  assert (Hb : (Z.abs (Z.of_nat i) < 2 ^ 53)%Z).
  { change (2 ^ 53)%Z with 9007199254740992%Z. lia. }
  apply Binary64.scaled_index.
  - now apply Binary64.SFof_Z_valid.
  - now apply Binary64.SFof_Z_finite.
  - lia.
  - now apply Binary64.SFof_Z_scaled.
Qed.

Section Binning.

Variable Math_pow : float -> float -> float.
Variable points : list object.
Variables x y : TypedAccessor.

Local Abbreviation xBins := (BinStats2d.xBins Math_pow points x).
Local Abbreviation yBins := (BinStats2d.yBins Math_pow points y).
Local Abbreviation binned := (Grid.binned Math_pow points x y).
Local Abbreviation cellOf := (Grid.cellOf Math_pow points x y).
Local Abbreviation in_cell := (Grid.in_cell Math_pow points x y).
Local Abbreviation reduce := (BinStats2d.reduce Math_pow points x y).

Section Counts.

Variables Nx Ny : positive.
Hypothesis xBins_spec : Prim2SF xBins = SFof_pos Nx.
Hypothesis Nx_small : (Zpos Nx <= 4294967295)%Z.
Hypothesis yBins_spec : Prim2SF yBins = SFof_pos Ny.
Hypothesis Ny_small : (Zpos Ny <= 4294967295)%Z.

Local Abbreviation n := (Pos.to_nat Nx).
Local Abbreviation m := (Pos.to_nat Ny).
Local Abbreviation xs := (Lodash.baseRange_fill n 0 1).
Local Abbreviation ys := (Lodash.baseRange_fill m 0 1).
Local Abbreviation ks :=
  (@List.concat key
     (@map float (list key) (fun gx => @map float key (fun gy => (gx, gy)) ys)
           xs)).

(** The position of the cell a record is assigned to. *)
Local Abbreviation at_pos :=
  (fun (t : nat) (p : object) =>
     match cellOf p with
     | Some (i, j) => (Z.to_nat i * m + Z.to_nat j =? t)%nat
     | None => false
     end).

Lemma ks_nth (t : nat) (c : key) :
  nth_error ks t = Some c ->
  exists i j,
    t = (i * m + j)%nat /\ (i < n)%nat /\ (j < m)%nat
    /\ Prim2SF (fst c) = SFof_Z (Z.of_nat i)
    /\ to_index (fst c) = Some (Z.of_nat i)
    /\ Prim2SF (snd c) = SFof_Z (Z.of_nat j)
    /\ to_index (snd c) = Some (Z.of_nat j).
Proof.
  intros H. destruct (grid_nth_inv _ _ _ _ H) as (i & j & E & Hi & Hj).
  rewrite length_fill in E.
  assert (Hi' : (i < n)%nat).
  { rewrite <- (length_fill n 0 1). apply nth_error_Some. congruence. }
  assert (Hj' : (j < m)%nat).
  { rewrite <- (length_fill m 0 1). apply nth_error_Some. congruence. }
  destruct (fill_nth Nx i Nx_small Hi') as (gx & Ex & Px & Ix).
  destruct (fill_nth Ny j Ny_small Hj') as (gy & Ey & Py & Iy).
  rewrite Hi in Ex. injection Ex as <-.
  rewrite Hj in Ey. injection Ey as <-.
  exists i, j. repeat split; auto.
Qed.

Lemma ks_length : List.length ks = (n * m)%nat.
Proof.
  pose proof (grid_length xs ys) as H. rewrite !length_fill in H. exact H.
Qed.

Lemma keys_differ (t t' : nat) (c c' : key) :
  nth_error ks t = Some c -> nth_error ks t' = Some c' ->
  key_eqb c c' = true -> t = t'.
Proof.
  intros Hc Hc' E.
  destruct (ks_nth _ _ Hc) as (i & j & -> & Hi & Hj & _ & Ix & _ & Iy).
  destruct (ks_nth _ _ Hc') as (i' & j' & -> & Hi' & Hj' & Px & _ & Py & _).
  unfold key_eqb in E.
  rewrite (Integers.same_string_index _ _ _ _ Ix Px
             (small_index Nx i' Nx_small Hi')) in E.
  rewrite (Integers.same_string_index _ _ _ _ Iy Py
             (small_index Ny j' Ny_small Hj')) in E.
  apply andb_true_iff in E. destruct E as [E1 E2].
  apply Z.eqb_eq in E1, E2. f_equal; [f_equal|]; lia.
Qed.

Lemma start_cells :
  start Math_pow points x y = cells_from 0 (fun _ => []) ks.
Proof.
  unfold start.
  rewrite (Integers.B_times xBins Nx xBins_spec Nx_small).
  replace (map (fun xBin => Lodash.times yBins (fun yBin => (xBin, yBin)))
               xs)
    with (map (fun gx => map (fun gy => (gx, gy)) ys) xs).
  - apply (start_spec ks []). simpl. exact keys_differ.
  - apply map_ext. intros gx.
    now rewrite (Integers.B_times yBins Ny yBins_spec Ny_small).
Qed.

(** Every record with finite normalized values has a cell of the
    grid. *)
Lemma cell_range (p : object) (xValue yValue : float) :
  finite_value (xStatScale Math_pow points x) p = Some xValue ->
  finite_value (yStatScale Math_pow points y) p = Some yValue ->
  exists i j,
    to_index (Lodash.clamp (Math_floor (xValue * xBins)) 0 (xBins - 1))
    = Some (Z.of_nat i)
    /\ to_index (Lodash.clamp (Math_floor (yValue * yBins)) 0 (yBins - 1))
       = Some (Z.of_nat j)
    /\ (i < n)%nat /\ (j < m)%nat.
Proof.
  intros Hx Hy.
  assert (F : forall s v, finite_value s p = Some v -> is_finite v = true).
  { intros s v. unfold finite_value. destruct (call s p) as [v'|];
      [|discriminate].
    unfold Number_isFinite. destruct (is_finite v') eqn:E;
      [|discriminate]. now intros [= <-]. }
  assert (Nan : forall B N v,
             Prim2SF B = SFof_pos N -> (Zpos N <= 4294967295)%Z ->
             is_finite v = true -> Prim2SF (v * B) <> S754_nan).
  { intros B N v HB HN Hv. rewrite mul_spec.
    apply Binary64.SFmul_finite.
    - now apply Binary64.is_finite_spec.
    - exact (Binary64.B_finite B N HB HN). }
  destruct (Binary64.clamp_index xBins Nx xBins_spec Nx_small
              (xValue * xBins))
    as (i & Hi & Ri & _).
  { apply (Nan _ Nx); auto. eapply F; eassumption. }
  destruct (Binary64.clamp_index yBins Ny yBins_spec Ny_small
              (yValue * yBins))
    as (j & Hj & Rj & _).
  { apply (Nan _ Ny); auto. eapply F; eassumption. }
  exists (Z.to_nat i), (Z.to_nat j). rewrite !Z2Nat.id by lia.
  repeat split; auto; lia.
Qed.

Lemma reduce_cells (ps : list object) :
  forall D,
    reduce ps (cells_from 0 D ks)
    = Normal (cells_from 0 (fun t => D t ++ filter (at_pos t) ps) ks).
Proof.
  induction ps as [|p ps IH]; intros D.
  - simpl. f_equal. apply cells_from_ext. intros t _.
    now rewrite app_nil_r.
  - simpl. unfold reducer, Grid.cellOf.
    destruct (finite_value (xStatScale Math_pow points x) p)
      as [xValue|] eqn:Ex.
    2:{ simpl. rewrite IH. reflexivity. }
    destruct (finite_value (yStatScale Math_pow points y) p)
      as [yValue|] eqn:Ey.
    2:{ simpl. rewrite IH. reflexivity. }
    destruct (cell_range p xValue yValue Ex Ey)
      as (i & j & Hi & Hj & Ri & Rj).
    cbv zeta. rewrite Hi, Hj, !Nat2Z.id.
    rewrite (push_data_cells ks _ p (i * m + j)%nat).
    + simpl. rewrite IH. f_equal. apply cells_from_ext. intros t _.
      rewrite Nat.eqb_sym.
      destruct (i * m + j =? t)%nat; [rewrite <- app_assoc|]; reflexivity.
    + intros t' c Hc.
      destruct (ks_nth _ _ Hc) as (i' & j' & -> & Hi' & Hj' & Px & _ & Py & _).
      unfold key_eqb. cbn [fst snd].
      rewrite (Integers.same_string_index _ _ _ _ Hi Px
                 (small_index Nx i' Nx_small Hi')).
      rewrite (Integers.same_string_index _ _ _ _ Hj Py
                 (small_index Ny j' Ny_small Hj')).
      simpl Nat.add. rewrite position_eqb by assumption.
      destruct (Nat.eqb_spec i' i), (Z.eqb_spec (Z.of_nat i) (Z.of_nat i')),
        (Nat.eqb_spec j' j), (Z.eqb_spec (Z.of_nat j) (Z.of_nat j'));
        simpl; auto; lia.
    + rewrite ks_length. nia.
Qed.

Lemma cellOf_range (p : object) :
  if binned p
  then exists i j, cellOf p = Some (Z.of_nat i, Z.of_nat j)
                   /\ (i < n)%nat /\ (j < m)%nat
  else cellOf p = None.
Proof.
  unfold Grid.binned, Grid.cellOf.
  destruct (finite_value (xStatScale Math_pow points x) p)
    as [xValue|] eqn:Ex; [|reflexivity].
  destruct (finite_value (yStatScale Math_pow points y) p)
    as [yValue|] eqn:Ey; [|reflexivity].
  destruct (cell_range p xValue yValue Ex Ey)
    as (i & j & Hi & Hj & Ri & Rj).
  exists i, j. rewrite Hi, Hj. auto.
Qed.

Lemma at_pos_in_cell (i j : nat) (p : object) :
  (i < n)%nat -> (j < m)%nat ->
  at_pos (i * m + j)%nat p = in_cell i j p.
Proof.
  intros Hi Hj. unfold Grid.in_cell.
  pose proof (cellOf_range p) as H.
  destruct (binned p).
  - destruct H as (i' & j' & -> & Hi' & Hj'). rewrite !Nat2Z.id.
    rewrite position_eqb by assumption.
    destruct (Nat.eqb_spec i' i), (Z.eqb_spec (Z.of_nat i') (Z.of_nat i)),
      (Nat.eqb_spec j' j), (Z.eqb_spec (Z.of_nat j') (Z.of_nat j));
      simpl; auto; lia.
  - now rewrite H.
Qed.

Lemma at_pos_count (ps : list object) :
  list_sum (map (fun t => List.length (filter (at_pos t) ps))
                (seq 0 (n * m)))
  = List.length (filter binned ps).
Proof.
  induction ps as [|p ps IH].
  - simpl. induction (seq 0 (n * m)); simpl; auto.
  - assert (E : map (fun t => List.length (filter (at_pos t) (p :: ps)))
                    (seq 0 (n * m))
               = map (fun t => ((if at_pos t p then 1 else 0)
                                + List.length (filter (at_pos t) ps))%nat)
                     (seq 0 (n * m))).
    { apply map_ext. intros t. cbn [filter].
      destruct (at_pos t p); reflexivity. }
    rewrite E, Partition.list_sum_map_add, IH. cbn [filter].
    pose proof (cellOf_range p) as H.
    destruct (binned p).
    + destruct H as (i & j & -> & Hi & Hj). rewrite !Nat2Z.id.
      rewrite Partition.sum_indicator.
      destruct (Nat.leb_spec 0 (i * m + j)),
        (Nat.ltb_spec (i * m + j) (0 + n * m)); simpl; nia.
    + rewrite H.
      replace (map (fun _ : nat => 0%nat) (seq 0 (n * m)))
        with (map (fun t => if (n * m =? t)%nat then 1 else 0)
                  (seq 0 (n * m)))%nat.
      * rewrite Partition.sum_indicator.
        destruct (Nat.leb_spec 0 (n * m)),
          (Nat.ltb_spec (n * m) (0 + n * m)); simpl; lia.
      * apply map_ext_in. intros t Ht. apply in_seq in Ht.
        destruct (Nat.eqb_spec (n * m) t); [lia|reflexivity].
Qed.

Lemma partition_for_counts :
  exists bins : list Bin,
    to_index xBins = Some (Z.of_nat n)
    /\ to_index yBins = Some (Z.of_nat m)
    /\ BinStats2d.bins Math_pow points x y = Normal bins
    /\ List.length bins = (n * m)%nat
    /\ (forall i j,
          (i < n)%nat -> (j < m)%nat ->
          exists b,
            nth_error bins (i * m + j) = Some b
            /\ to_index (xBin b) = Some (Z.of_nat i)
            /\ to_index (yBin b) = Some (Z.of_nat j)
            /\ data b = filter (in_cell i j) points)
    /\ (forall p,
          binned p = true ->
          exists i j, cellOf p = Some (Z.of_nat i, Z.of_nat j)
                      /\ (i < n)%nat /\ (j < m)%nat)
    /\ members bins = List.length (filter binned points).
Proof.
  eexists. split; [|split; [|split; [|split; [|split; [|split]]]]].
  - rewrite positive_nat_Z.
    exact (Binary64.B_index xBins Nx xBins_spec Nx_small).
  - rewrite positive_nat_Z.
    exact (Binary64.B_index yBins Ny yBins_spec Ny_small).
  - unfold BinStats2d.bins. rewrite start_cells, reduce_cells.
    reflexivity.
  - rewrite length_map.
    assert (L : forall ks' a D,
               List.length (cells_from a D ks') = List.length ks').
    { induction ks' as [|c ks' IH]; intros; simpl; auto. }
    rewrite L. apply ks_length.
  - intros i j Hi Hj.
    destruct (fill_nth Nx i Nx_small Hi) as (gx & Ex & _ & Ix).
    destruct (fill_nth Ny j Ny_small Hj) as (gy & Ey & _ & Iy).
    pose proof (grid_nth xs ys i j gx gy Ex Ey) as Hk.
    rewrite length_fill in Hk.
    assert (Hk' : nth_error ks (i * m + j) = Some (gx, gy)) by exact Hk.
    eexists. rewrite nth_error_map, nth_error_cells_from, Hk'.
    split; [reflexivity|]. cbn [xBin yBin data fst snd].
    repeat split; auto.
    simpl. apply filter_ext. intros p. now apply at_pos_in_cell.
  - intros p Hp. pose proof (cellOf_range p) as H.
    rewrite Hp in H. exact H.
  - rewrite members_cells, ks_length. simpl app.
    apply at_pos_count.
Qed.

End Counts.


End Binning.


End GridPartition.

(** ** The maximum on the pixel scale *)

Module FullSpan.

Import JS Common PixelScale Notions Order Binary64 Collapse Differences.
Import Extremes Pixels.
Local Open Scope Z_scope.

(** A finite number other than zero, divided by itself, is 1. *)
Lemma SFdiv_self (s : bool) (m : positive) (e : Z) :
  SF64div (S754_finite s m e) (S754_finite s m e)
  = S754_finite false 4503599627370496 (-52).
Proof.
  unfold SF64div, SFdiv, SFdiv_core_binary. cbv zeta.
  simpl Zdigits2.
  replace (Zpos (digits2_pos m) + e - (Zpos (digits2_pos m) + e)) with 0
    by lia.
  replace (e - e) with 0 by lia.
  change (Z.min (fexp prec emax 0) 0) with (-53).
  change (0 - -53) with 53. cbv iota.
  rewrite Z.shiftl_mul_pow2 by lia.
  assert (E : Z.div_eucl (Zpos m * 2 ^ 53) (Zpos m) = (2 ^ 53, 0)).
  { pose proof (Z.div_mul (2 ^ 53) (Zpos m) ltac:(lia)) as Hq.
    pose proof (Z.mod_mul (2 ^ 53) (Zpos m) ltac:(lia)) as Hr.
    rewrite (Z.mul_comm (2 ^ 53)) in Hq, Hr.
    unfold Z.div, Z.modulo in Hq, Hr.
    destruct (Z.div_eucl (Zpos m * 2 ^ 53) (Zpos m)) as [q r].
    simpl in Hq, Hr. now subst. }
  rewrite E. rewrite xorb_nilpotent.
  assert (L : new_location (Zpos m) 0 = loc_Exact).
  { unfold new_location, new_location_even, new_location_odd.
    now destruct (Z.even (Zpos m)). }
  rewrite L.
  change (2 ^ 53) with (Zpos 9007199254740992).
  apply binary_round_aux_exact; try reflexivity; lia.
Qed.

(** Multiplying a finite number by 1 is exact. *)
Lemma SFmul_one (f : spec_float) :
  valid_binary f = true -> finite f ->
  SF64mul f (S754_finite false 4503599627370496 (-52)) = f.
Proof.
  intros V F. destruct f as [s| | |s m e]; try contradiction.
  - simpl. now rewrite xorb_false_r.
  - unfold SF64mul, SFmul. rewrite xorb_false_r.
    pose proof (valid_finite _ _ _ V) as (R & _).
    assert (C : fexp prec emax (Zpos (digits2_pos m) + e) = e).
    { unfold SpecFloat.valid_binary, bounded, canonical_mantissa in V.
      apply andb_true_iff in V. destruct V as [V _].
      now apply Z.eqb_eq in V. }
    set (M := (m * 4503599627370496)%positive).
    assert (EM : M = Pos.iter xO m 52).
    { apply Pos2Z.inj. rewrite iter_xO_Z. reflexivity. }
    assert (DM : Zpos (digits2_pos M) = Zpos (digits2_pos m) + 52).
    { rewrite EM. apply iter_xO_digits. }
    apply binary_round_aux_exact.
    + rewrite DM. replace (Zpos (digits2_pos m) + 52 + (e + -52))
        with (Zpos (digits2_pos m) + e) by lia. exact C.
    + lia.
    + replace (e - (e + -52)) with 52 by lia. reflexivity.
    + rewrite C. lia.
    + lia.
Qed.

Local Open Scope float_scope.

Lemma Prim2SF_inj (a b : float) : Prim2SF a = Prim2SF b -> a = b.
Proof.
  intros H. rewrite <- (SF2Prim_Prim2SF a), <- (SF2Prim_Prim2SF b).
  now rewrite H.
Qed.

Lemma div_self (r : float) :
  match Prim2SF r with
  | S754_finite _ _ _ => True
  | _ => False
  end ->
  r / r = 1.
Proof.
  intros H. apply Prim2SF_inj. rewrite div_spec.
  destruct (Prim2SF r) as [| | |s m e]; try contradiction.
  apply SFdiv_self.
Qed.

Lemma mul_one (P : float) : is_finite P = true -> P * 1 = P.
Proof.
  intros F. apply Prim2SF_inj. rewrite mul_spec.
  change (Prim2SF 1) with (S754_finite false 4503599627370496 (-52)).
  apply SFmul_one; [apply Prim2SF_valid|now apply is_finite_spec].
Qed.

(** Equal numbers have the same difference to a third, different
    one. *)
Lemma sub_eqb_l (a b c : float) :
  (a =? b) = true -> (b =? c) = false -> a - c = b - c.
Proof.
  intros H Hc. apply Prim2SF_inj. rewrite !sub_spec.
  rewrite !FloatAxioms.eqb_spec in *. unfold SFeqb in *.
  destruct (Prim2SF a) as [[]|[]| |[] ma ea];
    destruct (Prim2SF b) as [[]|[]| |[] mb eb];
    try (simpl in H; discriminate);
    lazymatch type of H with
    | context [SFcompare (S754_finite _ _ _) (S754_finite _ _ _)] =>
        destruct (SFcompare _ _) as [[]|] eqn:Ec in H; try discriminate;
        apply SFcompare_Eq in Ec; destruct Ec as (_ & -> & ->);
        reflexivity
    | _ =>
        try reflexivity;
        destruct (Prim2SF c) as [[]|[]| |[] mc ec];
        try reflexivity; simpl in Hc; discriminate
    end.
Qed.

Section WithMath.

Variable Math_pow : float -> float -> float.

(** The normalized value of a record at the maximum is 1. *)
Lemma maximum_normalized (arr : list object) (attr : TypedAccessor)
      (d : object) :
  (attributeNumber d attr =? max (attrStats Math_pow arr attr)) = true ->
  (max (attrStats Math_pow arr attr) =? min (attrStats Math_pow arr attr))
  = false ->
  is_finite (range (attrStats Math_pow arr attr)) = true ->
  call (attrScale Math_pow arr attr no_override) d = Some 1.
Proof.
  intros H Em Fr. destruct (extremes_finite Math_pow arr attr) as [Fmin Fmax].
  unfold attrScale. cbn [call]. unfold scaleTo.
  change (max (assign (attrStats Math_pow arr attr) no_override))
    with (max (attrStats Math_pow arr attr)).
  change (min (assign (attrStats Math_pow arr attr) no_override))
    with (min (attrStats Math_pow arr attr)).
  change (range (assign (attrStats Math_pow arr attr) no_override))
    with (max (attrStats Math_pow arr attr)
          - min (attrStats Math_pow arr attr)).
  change (range (attrStats Math_pow arr attr))
    with (max (attrStats Math_pow arr attr)
          - min (attrStats Math_pow arr attr)) in Fr.
  rewrite Em. simpl negb. cbv iota.
  rewrite (sub_eqb_l _ _ _ H Em). f_equal. apply div_self.
  pose proof (sub_different _ _ Em Fmax Fmin) as Hd.
  pose proof (is_finite_spec _ Fr) as Hf.
  destruct (Prim2SF (max (attrStats Math_pow arr attr)
                     - min (attrStats Math_pow arr attr)));
    try contradiction; exact I.
Qed.

(** X17: for a finite pixel span and data whose range is finite and
    not zero, the pixel scale sends a record whose value equals the
    maximum to the full span, and to pixel 0 when the scale is
    inverted. *)
Theorem maximum_at_full_span (arr : list object) (attr : TypedAccessor)
        (scaleTo : float) (d : object) :
  is_finite scaleTo = true ->
  (attributeNumber d attr =? max (attrStats Math_pow arr attr)) = true ->
  (max (attrStats Math_pow arr attr) =? min (attrStats Math_pow arr attr))
  = false ->
  is_finite (range (attrStats Math_pow arr attr)) = true ->
  call (attrScale Math_pow arr attr no_override) d = Some 1
  /\ call (buildScale (attrScale Math_pow arr attr no_override)
                      scaleTo false) d = Some scaleTo
  /\ exists z,
      call (buildScale (attrScale Math_pow arr attr no_override)
                       scaleTo true) d = Some z
      /\ (z =? 0) = true.
Proof.
  intros FP H Em Fr.
  pose proof (maximum_normalized arr attr d H Em Fr) as E.
  split; [exact E|].
  unfold buildScale. cbn [call]. rewrite E, (mul_one _ FP).
  split; [reflexivity|].
  eexists. split; [reflexivity|].
  apply zeroish_eqb. apply sub_equal; [|assumption].
  rewrite FloatAxioms.eqb_spec.
  apply SFeqb_refl_finite. now apply is_finite_spec.
Qed.

End WithMath.

Lemma maximum_at_full_span_witness :
  call (attrScale Examples.Math_pow
                  [Examples.x_ 3; Examples.x_ (-2); Examples.x_ 7]
                  (Key "x") no_override)
       (Examples.x_ 7) = Some 1
  /\ call (buildScale (attrScale Examples.Math_pow
                                 [Examples.x_ 3; Examples.x_ (-2);
                                  Examples.x_ 7]
                                 (Key "x") no_override)
                      400 false) (Examples.x_ 7) = Some 400
  /\ exists z,
      call (buildScale (attrScale Examples.Math_pow
                                  [Examples.x_ 3; Examples.x_ (-2);
                                   Examples.x_ 7]
                                  (Key "x") no_override)
                       400 true) (Examples.x_ 7) = Some z
      /\ (z =? 0) = true.
Proof.
  apply (maximum_at_full_span Examples.Math_pow
           [Examples.x_ 3; Examples.x_ (-2); Examples.x_ 7]
           (Key "x") 400 (Examples.x_ 7)); reflexivity.
Defined.

End FullSpan.

(** ** The labels of the bins *)

Module Labels.

Import JS Common BinStats1d Notions.
Local Open Scope float_scope.

Lemma nth_error_cut {A} (l : list A) :
  forall k a,
    nth_error l k = Some a -> firstn k l ++ a :: skipn (S k) l = l.
Proof.
  induction l as [|h l IH]; intros [|k] a H; try discriminate.
  - now injection H as ->.
  - simpl. f_equal. now apply IH.
Qed.

Lemma push_data_labels (bins bins' : list Bin1d) (v : float) (p : object) :
  push_data bins v p = Normal bins' ->
  map xBin bins' = map xBin bins.
Proof.
  unfold push_data, at_number.
  destruct (to_index v) as [i|]; [|discriminate].
  destruct (i <? Z.of_nat (List.length bins))%Z; [|discriminate].
  destruct (nth_error bins (Z.to_nat i)) as [bin|] eqn:E; [|discriminate].
  intros [= <-]. rewrite map_app. cbn [map xBin].
  rewrite <- (nth_error_cut bins _ _ E) at 3.
  now rewrite map_app.
Qed.

Section Binning.

Variable Math_pow : float -> float -> float.
Variable points : list object.
Variable x : TypedAccessor.

Local Abbreviation xBins := (BinStats1d.xBins Math_pow points x).
Local Abbreviation binIndex := (BinStats1d.binIndex Math_pow points x).
Local Abbreviation finite_value :=
  (BinStats1d.finite_value Math_pow points x).
Local Abbreviation reduce := (BinStats1d.reduce Math_pow points x).

(** The pass over the records leaves the bins' labels as they are. *)
Lemma reduce_labels (ps : list object) :
  forall bins bins',
    reduce ps bins = Normal bins' -> map xBin bins' = map xBin bins.
Proof.
  induction ps as [|p ps IH]; intros bins bins' H; simpl in H.
  - now injection H as <-.
  - unfold reducer in H.
    destruct (finite_value p) as [v|].
    + destruct (push_data bins (binIndex v) p) as [bins1|] eqn:E;
        [|discriminate].
      simpl in H. rewrite (IH _ _ H). eapply push_data_labels. exact E.
    + simpl in H. now apply IH.
Qed.

(** X18: when the computed bin count is at least 1 (and at most
    2^32 - 1), the bins that one-dimensional binning returns are
    labelled 0, 1, 2, ... in this order: the bin at position j has
    [xBin] equal to j. *)
Theorem bins_are_labelled :
  (1 <=? xBins) = true ->
  (xBins <=? 4294967295) = true ->
  exists (n : nat) (bins : list Bin1d),
    to_index xBins = Some (Z.of_nat n) /\ (1 <= n)%nat
    /\ BinStats1d.bins Math_pow points x = Normal bins
    /\ List.length bins = n
    /\ forall j, (j < n)%nat ->
                 exists b, nth_error bins j = Some b
                           /\ to_index (xBin b) = Some (Z.of_nat j).
Proof.
  intros H1 H2.
  destruct (Binary64.bin_count_form _ H1 H2) as (N & HB & HN).
  set (n := Pos.to_nat N).
  assert (Hn : Z.of_nat n = Zpos N) by apply positive_nat_Z.
  assert (Hrange :
            forall p v,
              finite_value p = Some v ->
              exists i, to_index (binIndex v) = Some (Z.of_nat i)
                        /\ (i < n)%nat).
  { intros p v Hv. unfold BinStats1d.finite_value in Hv.
    destruct (call _ p) as [v'|]; [|discriminate].
    destruct (Number_isFinite v') eqn:Hf; [|discriminate].
    injection Hv as ->.
    assert (Hy : Prim2SF (v * xBins) <> S754_nan).
    { rewrite mul_spec. apply Binary64.SFmul_finite.
      - apply Binary64.is_finite_spec. exact Hf.
      - apply (Binary64.B_finite xBins N HB HN). }
    destruct (Binary64.clamp_index xBins N HB HN (v * xBins) Hy)
      as (i & Hi & Hr & _).
    exists (Z.to_nat i). rewrite Z2Nat.id by lia. split; [assumption|lia]. }
  set (seed := map (fun xBin => {| xBin := xBin; data := [] |})
                   (Lodash.baseRange_fill n 0 1)).
  assert (Hstart : BinStats1d.start Math_pow points x = Normal seed).
  { unfold BinStats1d.start.
    rewrite (Binary64.B_range xBins N HB HN). reflexivity. }
  destruct (Partition.reduce_spec Math_pow points x n Hrange points seed)
    as (bins & Eb & Lb & _).
  { unfold seed. rewrite length_map. apply Partition.length_baseRange_fill. }
  exists n, bins. repeat split.
  - rewrite Hn. apply (Binary64.B_index xBins N HB HN).
  - lia.
  - unfold BinStats1d.bins. rewrite Hstart. exact Eb.
  - exact Lb.
  - intros j Hj.
    destruct (GridPartition.fill_nth N j HN Hj) as (g & Eg & _ & Ig).
    pose proof (reduce_labels _ _ _ Eb) as Hl.
    unfold seed in Hl. rewrite map_map in Hl. cbn [xBin] in Hl.
    rewrite map_id in Hl.
    destruct (nth_error bins j) as [b|] eqn:Enth.
    2:{ apply nth_error_None in Enth. lia. }
    exists b. split; [reflexivity|].
    assert (E : nth_error (map xBin bins) j = Some (xBin b))
      by (rewrite nth_error_map, Enth; reflexivity).
    rewrite Hl in E. fold n in Eg. rewrite Eg in E.
    injection E as <-. exact Ig.
Qed.

End Binning.

Lemma bins_are_labelled_witness :
  (1 <=? BinStats1d.xBins Examples.Math_pow Examples.sample (Key "x")) = true
  /\ (BinStats1d.xBins Examples.Math_pow Examples.sample (Key "x")
      <=? 4294967295) = true
  /\ exists (n : nat) (bins : list Bin1d),
      to_index (BinStats1d.xBins Examples.Math_pow Examples.sample (Key "x"))
      = Some (Z.of_nat n) /\ (1 <= n)%nat
      /\ BinStats1d.bins Examples.Math_pow Examples.sample (Key "x")
         = Normal bins
      /\ List.length bins = n
      /\ forall j, (j < n)%nat ->
                   exists b, nth_error bins j = Some b
                             /\ to_index (xBin b) = Some (Z.of_nat j).
Proof.
  assert (H1 : (1 <=? BinStats1d.xBins Examples.Math_pow Examples.sample
                                       (Key "x")) = true)
    by (vm_compute; reflexivity).
  assert (H2 : (BinStats1d.xBins Examples.Math_pow Examples.sample (Key "x")
                <=? 4294967295) = true) by (vm_compute; reflexivity).
  exact (conj H1 (conj H2
           (bins_are_labelled Examples.Math_pow Examples.sample (Key "x")
                              H1 H2))).
Defined.

End Labels.
